(** * Markdown.Extra (pagedown-extra): a shallow embedding and its properties

    The source is one JavaScript file, [Markdown.Extra.js].  Almost all of
    its logic is written with regular expressions, so the embedding has
    two layers:

    - a small executable model of the ECMAScript backtracking matcher
      (greedy and lazy quantifiers, capture groups, look-ahead, [^] and [$]
      with and without the multiline flag) together with the string
      methods the source calls on it ([replace], [match], [split]);
    - the functions of [Markdown.Extra.js], transliterated one by one,
      each regular expression written as a term that follows the literal.

    Strings are lists of characters.  Code units are restricted to the
    8-bit range, on which [\s] is TAB, LF, VT, FF, CR, SPACE and NBSP and
    [.] is everything but LF and CR. *)

From Stdlib Require Import Ascii String.
From Stdlib Require Import Decimal DecimalNat DecimalString DecimalFacts.
From Stdlib Require Import List Bool Arith PeanoNat Lia.
Import ListNotations.


Local Open Scope list_scope.

(** ** Strings and character classes *)

Definition str := list ascii.

(** A string literal of the source. *)
Definition lit (s : string) : str := list_ascii_of_string s.

Definition LF : ascii := "010".
Definition CR : ascii := "013".
Definition TAB : ascii := "009".
Definition VT : ascii := "011".
Definition FF : ascii := "012".
Definition SP : ascii := " ".
Definition NBSP : ascii := "160".
Definition NUL : ascii := "000".
Definition STX : ascii := "002".
Definition ETX : ascii := "003".

Definition eqc (a : ascii) : ascii -> bool := fun c => Ascii.eqb c a.
Definition nec (a : ascii) : ascii -> bool := fun c => negb (Ascii.eqb c a).
Definition one_of (l : list ascii) : ascii -> bool :=
  fun c => existsb (Ascii.eqb c) l.

(** [\s], [\S], [\d], [.] and [[\s\S]]. *)
Definition is_space : ascii -> bool := one_of [TAB; LF; VT; FF; CR; SP; NBSP].
Definition non_space : ascii -> bool := fun c => negb (is_space c).
Definition is_line_terminator : ascii -> bool := one_of [LF; CR].
Definition dot : ascii -> bool := fun c => negb (is_line_terminator c).
Definition any : ascii -> bool := fun _ => true.
Definition is_digit : ascii -> bool :=
  fun c => (48 <=? nat_of_ascii c) && (nat_of_ascii c <=? 57).

(** Canonicalisation under the [i] flag.  Every pattern character of the
    source is ASCII, and no character outside ASCII canonicalises into
    ASCII, so folding the ASCII letters is exact. *)
Definition to_upper (c : ascii) : ascii :=
  let n := nat_of_ascii c in
  if (97 <=? n) && (n <=? 122) then ascii_of_nat (n - 32) else c.
Definition is_ci (a : ascii) : ascii -> bool :=
  fun c => Ascii.eqb (to_upper c) (to_upper a).

(** ** Regular expressions *)

Inductive re : Type :=
| Chr (p : ascii -> bool)                       (* one character of a class *)
| Eps                                           (* the empty pattern *)
| Seq (a b : re)                                (* ab *)
| Alt (a b : re)                                (* a|b *)
| Rep (greedy : bool) (min : nat) (max : option nat) (a : re)
                                                (* a{min,max}, a{min,max}? *)
| Grp (i : nat) (a : re)                        (* the i-th capture group *)
| Look (positive : bool) (a : re)               (* (?=a) and (?!a) *)
| Bol (multiline : bool)                        (* ^ *)
| Eol (multiline : bool).                       (* $ *)

Fixpoint seqs (l : list re) : re :=
  match l with
  | [] => Eps
  | [a] => a
  | a :: l' => Seq a (seqs l')
  end.

Fixpoint alts (l : list re) : re :=
  match l with
  | [] => Chr (fun _ => false)
  | [a] => a
  | a :: l' => Alt a (alts l')
  end.

(** A literal run of characters, and the same under the [i] flag. *)
Definition Lit (s : string) : re := seqs (map (fun a => Chr (eqc a)) (lit s)).
Definition LitCI (s : string) : re := seqs (map (fun a => Chr (is_ci a)) (lit s)).

Definition Star (a : re) : re := Rep true 0 None a.      (* a*  *)
Definition Plus (a : re) : re := Rep true 1 None a.      (* a+  *)
Definition Opt (a : re) : re := Rep true 0 (Some 1) a.   (* a?  *)
Definition LazyStar (a : re) : re := Rep false 0 None a. (* a*? *)
Definition LazyPlus (a : re) : re := Rep false 1 None a. (* a+? *)
Definition Upto (n : nat) (a : re) : re := Rep true 0 (Some n) a.
Definition AtLeast (n : nat) (a : re) : re := Rep true n None a.

(** ** The backtracking matcher

    A state is a position in the input: the character before it (what
    [^] looks at), the input that is left, and the captures made so far.
    The matcher is written with continuations, as in the ECMAScript
    specification: [m r x c] matches [r] at [x] and hands each candidate
    end state to [c], in priority order, until [c] accepts one. *)

Record mstate : Type := MState {
  prev : option ascii;
  rest : str;
  caps : list (nat * str)
}.

Definition cont := mstate -> option mstate.

Definition at_bol (multiline : bool) (x : mstate) : bool :=
  match prev x with
  | None => true
  | Some c => multiline && is_line_terminator c
  end.

Definition at_eol (multiline : bool) (x : mstate) : bool :=
  match rest x with
  | [] => true
  | c :: _ => multiline && is_line_terminator c
  end.

(** RepeatMatcher.  Once [min] iterations are done an iteration that
    consumes nothing is rejected, so at most [min + length (rest x)]
    iterations can happen; the counter [fuel] starts there and is
    therefore never the reason a match is missed ([rep_fuel_enough]).
    ECMAScript also clears, before each iteration, the captures of the
    groups inside the repeated pattern; no pattern of the source has a
    group inside a repetition that can run twice, so this is left out. *)
Fixpoint rep (ma : mstate -> cont -> option mstate) (greedy : bool)
    (fuel min : nat) (max : option nat) (x : mstate) (c : cont)
    {struct fuel} : option mstate :=
  match max with
  | Some 0 => c x
  | _ =>
    match fuel with
    | 0 => c x
    | S fuel' =>
      let d : cont := fun y =>
        if (min =? 0) && (length (rest y) =? length (rest x)) then None
        else rep ma greedy fuel' (pred min) (option_map pred max) y c in
      if 0 <? min then ma x d
      else if greedy then
        match ma x d with Some z => Some z | None => c x end
      else
        match c x with Some z => Some z | None => ma x d end
    end
  end.

Definition set_cap (i : nat) (x y : mstate) : mstate :=
  MState (prev y) (rest y)
         ((i, firstn (length (rest x) - length (rest y)) (rest x)) :: caps y).

Fixpoint m (r : re) (x : mstate) (c : cont) {struct r} : option mstate :=
  match r with
  | Chr p =>
    match rest x with
    | ch :: t => if p ch then c (MState (Some ch) t (caps x)) else None
    | [] => None
    end
  | Eps => c x
  | Seq a b => m a x (fun y => m b y c)
  | Alt a b => match m a x c with Some z => Some z | None => m b x c end
  | Rep g mn mx a => rep (m a) g (mn + length (rest x)) mn mx x c
  | Grp i a => m a x (fun y => c (set_cap i x y))
  | Look positive a =>
    match m a x Some with
    | Some y => if positive then c (MState (prev x) (rest x) (caps y)) else None
    | None => if positive then None else c x
    end
  | Bol ml => if at_bol ml x then c x else None
  | Eol ml => if at_eol ml x then c x else None
  end.

(** The value of capture group [i]; [None] is JavaScript's [undefined]. *)
Fixpoint get_cap (i : nat) (g : list (nat * str)) : option str :=
  match g with
  | [] => None
  | (j, v) :: g' => if j =? i then Some v else get_cap i g'
  end.

(** One attempt at one position: the length of the match and its captures. *)
Definition exec_at (r : re) (pv : option ascii) (s : str)
  : option (nat * list (nat * str)) :=
  match m r (MState pv s []) Some with
  | Some y => Some (length s - length (rest y), caps y)
  | None => None
  end.

(** ** The string methods that take a regular expression *)

(** [RegExp.prototype.exec] from index 0 without the [g] flag: the
    leftmost position where the pattern matches.  The result is the text
    before the match, the match, its captures and the text after it. *)
Record found : Type := Found {
  f_pre : str;
  f_whole : str;
  f_caps : list (nat * str);
  f_post : str
}.

Fixpoint search (r : re) (pv : option ascii) (s : str) : option found :=
  match exec_at r pv s with
  | Some (n, g) => Some (Found [] (firstn n s) g (skipn n s))
  | None =>
    match s with
    | [] => None
    | ch :: t =>
      match search r (Some ch) t with
      | Some f => Some (Found (ch :: f_pre f) (f_whole f) (f_caps f) (f_post f))
      | None => None
      end
    end
  end.

(** [str.match(r)] used as a condition. *)
Definition test (r : re) (s : str) : bool :=
  match search r None s with Some _ => true | None => false end.

(** [str.replace(r, f)] without the [g] flag: the first match only. *)
Definition sub_first (r : re) (f : str -> list (nat * str) -> str) (s : str) : str :=
  match search r None s with
  | Some x => f_pre x ++ f (f_whole x) (f_caps x) ++ f_post x
  | None => s
  end.

(** The matches of a [g] pattern, found left to right before any
    replacement is computed.  [skip] counts the characters of the current
    match that are still to be passed over; after an empty match the
    search resumes one character further. *)
Inductive token : Type :=
| TLit (c : ascii)
| TMatch (whole : str) (groups : list (nat * str)).

Fixpoint scan (r : re) (pv : option ascii) (s : str) (skip : nat) : list token :=
  match s with
  | [] =>
    match skip with
    | 0 => match exec_at r pv [] with
           | Some (_, g) => [TMatch [] g]
           | None => []
           end
    | S _ => []
    end
  | ch :: t =>
    match skip with
    | S k => scan r (Some ch) t k
    | 0 =>
      match exec_at r pv s with
      | Some (n, g) =>
        TMatch (firstn n s) g ::
        match n with
        | 0 => TLit ch :: scan r (Some ch) t 0
        | S k => scan r (Some ch) t k
        end
      | None => TLit ch :: scan r (Some ch) t 0
      end
    end
  end.

(** [str.replace(r, f)] with the [g] flag and a pure replacer. *)
Definition subst (f : str -> list (nat * str) -> str) (t : token) : str :=
  match t with
  | TLit c => [c]
  | TMatch w g => f w g
  end.

Definition gsub (r : re) (f : str -> list (nat * str) -> str) (s : str) : str :=
  flat_map (subst f) (scan r None s 0).

(** The same with a replacer that reads and updates a state (the
    hash-block array): the replacer runs once per match, left to right. *)
Fixpoint substS {S : Type} (f : str -> list (nat * str) -> S -> str * S)
    (ts : list token) (st : S) : str * S :=
  match ts with
  | [] => ([], st)
  | TLit c :: ts' =>
    let (o, st') := substS f ts' st in (c :: o, st')
  | TMatch w g :: ts' =>
    let (o1, st1) := f w g st in
    let (o2, st2) := substS f ts' st1 in (o1 ++ o2, st2)
  end.

Definition gsubS {S : Type} (r : re) (f : str -> list (nat * str) -> S -> str * S)
    (s : str) (st : S) : str * S :=
  substS f (scan r None s 0) st.

(** [str.split(r)]: [piece] is the text since the last separator, in
    reverse.  A separator is looked for at every position before the end;
    an empty separator right at the start of the piece does not split. *)
Fixpoint split_go (r : re) (pv : option ascii) (s : str) (skip : nat)
    (piece : str) : list str :=
  match s with
  | [] => [rev piece]
  | ch :: t =>
    match skip with
    | S k => split_go r (Some ch) t k piece
    | 0 =>
      match exec_at r pv s with
      | Some (S k, _) => rev piece :: split_go r (Some ch) t k []
      | Some (0, _) =>
        match piece with
        | [] => split_go r (Some ch) t 0 [ch]
        | _ => rev piece :: split_go r (Some ch) t 0 [ch]
        end
      | None => split_go r (Some ch) t 0 (ch :: piece)
      end
    end
  end.

Definition split_re (r : re) (s : str) : list str :=
  match s with
  | [] => match exec_at r None [] with Some _ => [] | None => [[]] end
  | _ => split_go r None s 0 []
  end.

(** [str.split('\n')]: a one-character string separator. *)
Fixpoint split_chr (sep : ascii) (s : str) : list str :=
  match s with
  | [] => [[]]
  | ch :: t =>
    if Ascii.eqb ch sep then [] :: split_chr sep t
    else match split_chr sep t with
         | p :: ps => (ch :: p) :: ps
         | [] => [[ch]]
         end
  end.

(** ** Utility functions of [Markdown.Extra.js] *)

Definition DQ : ascii := "034".   (* the double quote *)
Definition sp : re := Chr (eqc SP).
Definition pipe : re := Chr (eqc "|").
Definition nl : re := Chr (eqc LF).

(** A string replacement without [$]: every match becomes [by]. *)
Definition const_str (by_ : str) : str -> list (nat * str) -> str :=
  fun _ _ => by_.

(** [/^\s+|\s+$/g] *)
Definition re_trim : re :=
  Alt (Seq (Bol false) (Plus (Chr is_space)))
      (Seq (Plus (Chr is_space)) (Eol false)).

Definition trim (s : str) : str := gsub re_trim (const_str []) s.

(** [/\s+$/g] *)
Definition re_rtrim : re := Seq (Plus (Chr is_space)) (Eol false).

Definition rtrim (s : str) : str := gsub re_rtrim (const_str []) s.

(** [new RegExp('^(\\t|[ ]{1,4})', 'mg')] *)
Definition re_outdent : re :=
  Seq (Bol true) (Grp 1 (Alt (Chr (eqc TAB)) (Rep true 1 (Some 4) sp))).

Definition outdent (text : str) : str := gsub re_outdent (const_str []) text.

(** [inlineTags]: the whitelist of span-level tags, flag [i]. *)
Definition inline_names : list string :=
  ["a"; "abbr"; "acronym"; "applet"; "area"; "b"; "basefont";
   "bdo"; "big"; "button"; "cite"; "code"; "del"; "dfn"; "em"; "figcaption";
   "font"; "i"; "iframe"; "img"; "input"; "ins"; "kbd"; "label"; "map";
   "mark"; "meter"; "object"; "param"; "progress"; "q"; "ruby"; "rp"; "rt"; "s";
   "samp"; "script"; "select"; "small"; "span"; "strike"; "strong";
   "sub"; "sup"; "textarea"; "time"; "tt"; "u"; "var"; "wbr"]%string.

Definition inlineTags : re :=
  seqs [Bol false;
        Grp 1 (Alt
          (seqs [Chr (eqc "<"); Opt (Chr (eqc "/"));
                 Grp 2 (alts (map LitCI inline_names));
                 Star (Chr (nec ">")); Chr (eqc ">")])
          (seqs [Chr (eqc "<"); Grp 3 (LitCI "br");
                 Opt (Chr is_space); Opt (Chr (eqc "/")); Chr (eqc ">")]));
        Eol false].

(** A tag, flags [gi]: [<], everything up to the next [>], and that [>]
    when there is one. *)
Definition re_tag : re :=
  seqs [Chr (eqc "<"); Star (Chr (nec ">")); Opt (Chr (eqc ">"))].

Definition sanitizeHtml (html : str) (whitelist : re) : str :=
  gsub re_tag (fun tag _ => if test whitelist tag then tag else []) html.

Definition addAnchors (text : str) : str :=
  let text :=
    match text with
    | c :: _ => if Ascii.eqb c STX then text else STX :: text
    | [] => STX :: text
    end in
  if Ascii.eqb (last text NUL) ETX then text else text ++ [ETX].

Definition removeAnchors (text : str) : str :=
  let text :=
    match text with
    | c :: t => if Ascii.eqb c STX then t else text
    | [] => text
    end in
  match text with
  | [] => text
  | _ => if Ascii.eqb (last text NUL) ETX then removelast text else text
  end.

(** The host converter is outside the repository: [makeHtml] is any
    function from text to markup. *)
Record Converter : Type := { makeHtml : str -> str }.

Definition convertSpans (text : str) (converter : Converter) : str :=
  let html := makeHtml converter text in
  sanitizeHtml html inlineTags.

(** [/\\\|/g] and [/\\:/g] *)
Definition re_esc_pipe : re := Seq (Chr (eqc "\")) (Chr (eqc "|")).
Definition re_esc_colon : re := Seq (Chr (eqc "\")) (Chr (eqc ":")).

Definition processEscapes (text : str) : str :=
  gsub re_esc_colon (const_str (lit "&#58;"))
       (gsub re_esc_pipe (const_str (lit "&#124;")) text).

(** ** The [Markdown.Extra] object *)

Record Extra : Type := {
  converter : Converter;
  hashBlocks : list str;
  googleCodePrettify : bool;
  highlightJs : bool;
  tableClass : str;
  tabWidth : nat
}.

(** [new Markdown.Extra()], with the converter [init] chooses for it. *)
Definition new_Extra (c : Converter) : Extra :=
  {| converter := c; hashBlocks := [];
     googleCodePrettify := false; highlightJs := false;
     tableClass := []; tabWidth := 4 |}.

(** Equality of strings, [===]. *)
Fixpoint str_eqb (a b : str) : bool :=
  match a, b with
  | [], [] => true
  | x :: a', y :: b' => Ascii.eqb x y && str_eqb a' b'
  | _, _ => false
  end.

(** What [init] does with [options.highlighter]. *)
Definition set_highlighter (e : Extra) (highlighter : str) : Extra :=
  {| converter := converter e; hashBlocks := hashBlocks e;
     googleCodePrettify := str_eqb highlighter (lit "prettify");
     highlightJs := str_eqb highlighter (lit "highlight");
     tableClass := tableClass e; tabWidth := tabWidth e |}.

Definition set_hashBlocks (e : Extra) (bs : list str) : Extra :=
  {| converter := converter e; hashBlocks := bs;
     googleCodePrettify := googleCodePrettify e; highlightJs := highlightJs e;
     tableClass := tableClass e; tabWidth := tabWidth e |}.

(** Number to string, and [parseInt(_, 10)] on a run of digits ([None]
    is NaN). *)
Definition toString (n : nat) : str :=
  lit (NilZero.string_of_uint (Nat.to_uint n)).

(** [parseInt] is exact here; in JavaScript it rounds above 2^53, far
    beyond the length an array can have, so [hashBlocks[key]] is the same. *)
Definition parseInt (s : str) : option nat :=
  option_map Nat.of_uint (NilZero.uint_of_string (string_of_list_ascii s)).

Definition placeholder (n : nat) : str :=
  lit "<p>~X" ++ toString n ++ lit "X</p>".

(** [hashExtraBlock]: [push] returns the new length. *)
Definition hashExtraBlock (block : str) (e : Extra) : str * Extra :=
  (placeholder (length (hashBlocks e ++ [block]) - 1),
   set_hashBlocks e (hashBlocks e ++ [block])).

(** [/<p>~X(\d+)X<\/p>/g] *)
Definition re_placeholder : re :=
  seqs [Lit "<p>~X"; Grp 1 (Plus (Chr is_digit)); Lit "X</p>"].

(** What [self.hashBlocks[key]] becomes once [replace] makes a string of
    it: an index with no element gives [undefined]. *)
Definition block_at (bs : list str) (key : option nat) : str :=
  match key with
  | Some k => match nth_error bs k with
              | Some b => b
              | None => lit "undefined"
              end
  | None => lit "undefined"
  end.

Definition unHashExtraBlocks (e : Extra) (text : str) : str :=
  gsub re_placeholder
       (fun _ g =>
          let key := match get_cap 1 g with
                     | Some m1 => parseInt m1
                     | None => None
                     end in
          block_at (hashBlocks e) key)
       text.

Definition finishConversion (text : str) (e : Extra) : str * Extra :=
  let text := unHashExtraBlocks e text in
  (text, set_hashBlocks e []).

(** ** Tables *)

Definition dash_colon : re := Chr (one_of ["-"; ":"]%char).
Definition is_sep_char : ascii -> bool := one_of ["-"; "|"; " "; ":"]%char.
Definition sep_char : re := Chr is_sep_char.

Definition leadingPipe : re :=
  seqs [Bol true;
        Upto 3 sp;                                         (* allowed whitespace *)
        pipe;                                              (* initial pipe *)
        Grp 1 (Plus (Chr dot)); nl;                        (* $1: header row *)
        Upto 3 sp;
        pipe; Grp 2 (seqs [Star sp; Plus dash_colon; Star sep_char]); nl;
                                                (* $2: separator *)
        Grp 3 (Star (seqs [Star sp; pipe; Star (Chr dot); Opt nl]));
                                                (* $3: table rows *)
        Alt nl (Eol true)].                                (* stop at final newline *)

Definition noLeadingPipe : re :=
  seqs [Bol true;
        Upto 3 sp;
        Grp 1 (seqs [Chr non_space; Star (Chr dot); pipe; Star (Chr dot)]); nl;
                                                           (* $1: header row *)
        Upto 3 sp;
        Grp 2 (seqs [Plus dash_colon; Star sp; pipe; Star sep_char]); nl;
                                                (* $2: separator *)
        Grp 3 (Star (seqs [Star (Chr dot); pipe; Star (Chr dot); Opt nl]));
                                                (* $3: table rows *)
        Alt nl (Eol true)].

(** A leading pipe after spaces at the start of a line, a trailing pipe
    before spaces at the end of a line (both with flag [m]), and a pipe
    with the spaces around it. *)
Definition re_lead_pipe : re := seqs [Bol true; Star sp; pipe].
Definition re_trail_pipe : re := seqs [pipe; Star sp; Eol true].
Definition re_cell_sep : re := seqs [Star sp; pipe; Star sp].

(** The three alignment patterns, flag [m]: dashes then a colon; a colon,
    dashes and a colon; a colon then dashes; each between optional spaces
    and anchored to a whole line. *)
Definition dash : re := Chr (eqc "-").
Definition colon : re := Chr (eqc ":").
Definition re_right : re := seqs [Bol true; Star sp; Plus dash; colon; Star sp; Eol true].
Definition re_center : re :=
  seqs [Bol true; Star sp; colon; Plus dash; colon; Star sp; Eol true].
Definition re_left : re := seqs [Bol true; Star sp; colon; Plus dash; Star sp; Eol true].

(** A blank row: white space from start to end. *)
Definition re_blank : re := seqs [Bol false; Star (Chr is_space); Eol false].

Definition style (a : string) : str :=
  lit " style=" ++ [DQ] ++ lit "text-align:" ++ lit a ++ lit ";" ++ [DQ].

(** The body of the loop that fills [align]. *)
Definition align_of (spec : str) : str :=
  if test re_right spec then style "right"
  else if test re_center spec then style "center"
  else if test re_left spec then style "left"
  else [].

(** [align[i]] inside [[...].join('')]: a missing element joins as ''. *)
Definition align_at (align : list str) (i : nat) : str := nth i align [].

(** One header cell and one data cell, as the two loops build them. *)
Definition th_cell (e : Extra) (align : list str) (i : nat) (cell : str) : str :=
  let headerHtml := convertSpans (trim cell) (converter e) in
  lit "  <th" ++ align_at align i ++ lit ">" ++ headerHtml ++ lit "</th>" ++ [LF].

Definition td_cell (e : Extra) (align : list str) (j : nat) (cell : str) : str :=
  let colHtml := convertSpans (trim cell) (converter e) in
  lit "  <td" ++ align_at align j ++ lit ">" ++ colHtml ++ lit "</td>" ++ [LF].

(** [rowCells] after the padding loop, read at [j = 0 .. colCount - 1]. *)
Definition row_cells (colCount : nat) (row : str) : list str :=
  let rowCells := split_re re_cell_sep row in
  let lenDiff := colCount - length rowCells in
  let rowCells := rowCells ++ repeat [] lenDiff in
  map (fun j => nth j rowCells []) (seq 0 colCount).

(** The rows that are rendered: the lines of the body that are not blank. *)
Definition body_rows (body : str) : list str :=
  filter (fun row => negb (test re_blank row)) (split_chr LF body).

(** The cells of the header row and of one body row, in column order. *)
Definition th_cells (e : Extra) (align : list str) (headers : list str) : list str :=
  map (fun ic => th_cell e align (fst ic) (snd ic))
      (combine (seq 0 (length headers)) headers).

Definition td_cells (e : Extra) (align : list str) (colCount : nat) (row : str)
  : list str :=
  map (fun jc => td_cell e align (fst jc) (snd jc))
      (combine (seq 0 colCount) (row_cells colCount row)).

Definition tr_row (e : Extra) (align : list str) (colCount : nat) (row : str) : str :=
  lit "<tr>" ++ [LF] ++ concat (td_cells e align colCount row) ++ lit "</tr>" ++ [LF].

(** The three strings [doTable] works on once the outer pipes are gone. *)
Definition strip_header (header : str) : str :=
  sub_first re_trail_pipe (const_str []) (sub_first re_lead_pipe (const_str []) header).
Definition strip_body (body : str) : str :=
  gsub re_trail_pipe (const_str []) (gsub re_lead_pipe (const_str []) body).

Definition table_class (e : Extra) : str :=
  match tableClass e with
  | [] => []
  | c => lit " class=" ++ [DQ] ++ c ++ [DQ]
  end.

Definition table_html (e : Extra) (header separator body : str) : str :=
  let header := strip_header header in
  let separator := strip_header separator in
  let body := strip_body body in
  let alignspecs := split_re re_cell_sep separator in
  let align := map align_of alignspecs in
  let headers := split_re re_cell_sep header in
  let colCount := length headers in
  let cls := table_class e in
  lit "<table" ++ cls ++ lit ">" ++ [LF] ++ lit "<thead>" ++ [LF] ++ lit "<tr>" ++ [LF]
  ++ concat (th_cells e align headers)
  ++ lit "</tr>" ++ [LF] ++ lit "</thead>" ++ [LF]
  ++ concat (map (tr_row e align colCount) (body_rows body))
  ++ lit "</table>" ++ [LF].

Definition cap (i : nat) (g : list (nat * str)) : str :=
  match get_cap i g with Some v => v | None => [] end.

Definition doTable (whole : str) (g : list (nat * str)) (e : Extra) : str * Extra :=
  hashExtraBlock (table_html e (cap 1 g) (cap 2 g) (cap 3 g)) e.

Definition tables (text : str) (e : Extra) : str * Extra :=
  let (text, e) := gsubS leadingPipe doTable text e in
  gsubS noLeadingPipe doTable text e.

(** ** Fenced code blocks *)

Definition encodeCode (code : str) : str :=
  let code := gsub (Chr (eqc "&")) (const_str (lit "&amp;")) code in
  let code := gsub (Chr (eqc "<")) (const_str (lit "&lt;")) code in
  let code := gsub (Chr (eqc ">")) (const_str (lit "&gt;")) code in
  code.

(** The pattern of [fencedCodeBlocks], flag [g]: start of text or a
    newline, three backticks, $1 the rest of that line, a newline, $2 the
    shortest text that is followed by a newline and three backticks. *)
Definition re_fence : re :=
  seqs [Alt (Bol false) nl; Lit "```"; Grp 1 (Star (Chr dot)); nl;
        Grp 2 (LazyStar (Chr any)); nl; Lit "```"].

Definition code_html (e : Extra) (language codeblock : str) : str :=
  let preclass := if googleCodePrettify e
                  then lit " class=" ++ [DQ] ++ lit "prettyprint" ++ [DQ] else [] in
  let codeclass :=
    match language with
    | [] => []
    | _ => if googleCodePrettify e || highlightJs e
           then lit " class=" ++ [DQ] ++ lit "language-" ++ language ++ [DQ]
           else lit " class=" ++ [DQ] ++ language ++ [DQ]
    end in
  lit "<pre" ++ preclass ++ lit "><code" ++ codeclass ++ lit ">"
  ++ encodeCode codeblock ++ lit "</code></pre>".

Definition fencedCodeBlocks (text : str) (e : Extra) : str * Extra :=
  gsubS re_fence
        (fun _ g e => hashExtraBlock (code_html e (cap 1 g) (cap 2 g)) e)
        text e.

Definition all (text : str) (e : Extra) : str * Extra :=
  let (text, e) := tables text e in
  fencedCodeBlocks text e.

(** ** Definition lists *)

Definition sp03 : re := Upto 3 sp.                 (* [ ]{0,3} *)
Definition def_mark : re := seqs [sp03; colon; Plus sp].   (* [ ]{0,3}:[ ]+ *)

(** [wholeList], flags [gm].  Group numbers are those of the pattern:
    1 is [pre], 2 is [list]. *)
Definition wholeList : re :=
  seqs [Grp 1 (Alt (Seq (Chr (eqc STX)) (Opt nl)) (Seq nl nl));
        Grp 2 (seqs [
          Grp 3 (seqs [
            sp03;
            Grp 4 (Plus (seqs [Star (Chr (one_of [SP; TAB]));
                               Chr non_space; Star (Chr dot); nl]));
                                                       (* defined term *)
            Opt nl;
            def_mark]);                  (* colon starting definition *)
          Grp 5 (LazyPlus (Chr any));
          Grp 6 (Alt
            (* the source writes \0x03 here: NUL, then the letters x03 *)
            (Look true (Seq (Chr (eqc NUL)) (Lit "x03")))
            (Look true (seqs [
               AtLeast 2 nl;
               Look true (Chr non_space);
               Look false (seqs [    (* no other term follows *)
                 sp03;
                 LazyPlus (seqs [Chr non_space; Star (Chr dot); nl; sp]);
                 Opt nl;
                 def_mark]);
               Look false def_mark   (* no other definition follows *)
             ])))])].

(** [dt], flags [mg]. *)
Definition dt : re :=
  seqs [Grp 1 (Alt (Seq (Chr (eqc STX)) (Opt nl)) (Seq nl (Plus nl)));
        Grp 2 (seqs [
          sp03;
          Look false (Alt (Seq colon sp) sp);
          LazyPlus (seqs [Chr non_space; Star (Chr dot); nl])]);
        Look true (seqs [Opt nl; sp03; colon; sp])].

(** [dd], flags [mg]: 1 is [leading_line], 2 is [marker_space], 3 is [def]. *)
Definition dd : re :=
  seqs [nl; Opt (Grp 1 (Plus nl));
        Grp 2 (seqs [sp03; colon; Plus sp]);
        Grp 3 (LazyPlus (Chr any));
        Look true (seqs [
          Star nl;
          alts [seqs [nl; sp03; colon; sp];
                Lit "<dt>";
                Chr (eqc ETX)]])].

(** The pattern that is meant to trim trailing blank lines.  The source
    writes a doubled backslash inside a regular-expression literal, so the
    look-ahead asks for a backslash and the letters x03. *)
Definition re_trailing_blank : re :=
  Seq (AtLeast 2 nl) (Look true (Seq (Chr (eqc "\")) (Lit "x03"))).

(** [/\n{2,}/] *)
Definition re_blank_gap : re := AtLeast 2 nl.

(** The replacer of [dt]. *)
Definition dt_item (e : Extra) (termsStr : str) : str :=
  let terms := split_chr LF (trim termsStr) in
  concat (map (fun term =>
                 let term := convertSpans (trim term) (converter e) in
                 [LF] ++ lit "<dt>" ++ term ++ lit "</dt>") terms)
  ++ [LF].

(** The replacer of [dd].  [leading_line] is truthy when the group took
    part in the match with a non-empty text. *)
Definition truthy (v : option str) : bool :=
  match v with
  | Some (_ :: _) => true
  | _ => false
  end.

Definition dd_item (e : Extra) (leading_line : option str)
    (marker_space def : str) : str :=
  let def :=
    if truthy leading_line || test re_blank_gap def then
      (* replace marker with the appropriate whitespace indentation *)
      let def := repeat SP (length marker_space) ++ def in
      let def := outdent def ++ [LF; LF] in
      [LF] ++ makeHtml (converter e) def ++ [LF]
    else
      let def := rtrim def in
      convertSpans (outdent def) (converter e) in
  [LF] ++ lit "<dd>" ++ def ++ lit "</dd>" ++ [LF].

Definition processDefListItems (e : Extra) (listStr : str) : str :=
  let listStr := addAnchors listStr in
  let listStr := sub_first re_trailing_blank (const_str [LF]) listStr in
  let listStr := gsub dt (fun _ g => dt_item e (cap 2 g)) listStr in
  let listStr :=
    gsub dd (fun _ g => dd_item e (get_cap 1 g) (cap 2 g) (cap 3 g)) listStr in
  removeAnchors listStr.

Definition definitionLists (text : str) (e : Extra) : str * Extra :=
  let text := addAnchors text in
  let (text, e) :=
    gsubS wholeList
          (fun _ g e =>
             let result := trim (processDefListItems e (cap 2 g)) in
             let result := lit "<dl>" ++ [LF] ++ result ++ [LF] ++ lit "</dl>" in
             let (ph, e) := hashExtraBlock result e in
             (cap 1 g ++ ph ++ [LF; LF], e))
          text e in
  (removeAnchors text, e).

(** ** The two hooks *)

(** The names [init] pushes on [transformations]. *)
Inductive transformation : Type :=
| T_all
| T_tables
| T_fencedCodeBlocks
| T_definitionLists.

(** [this[name](text)] *)
Definition run (t : transformation) (text : str) (e : Extra) : str * Extra :=
  match t with
  | T_all => all text e
  | T_tables => tables text e
  | T_fencedCodeBlocks => fencedCodeBlocks text e
  | T_definitionLists => definitionLists text e
  end.

Fixpoint run_all (ts : list transformation) (text : str) (e : Extra) : str * Extra :=
  match ts with
  | [] => (text, e)
  | t :: ts' => let (text, e) := run t text e in run_all ts' text e
  end.

Definition doConversion (transformations : list transformation) (text : str)
    (e : Extra) : str * Extra :=
  let e := set_hashBlocks e [] in
  let text := processEscapes text in
  let (text, e) := run_all transformations text e in
  (text ++ [LF], e).

(** ** [Markdown.Extra.init] *)

(** [contains] on an array: [indexOf] compares with [===]. *)
Definition contains (arr : list str) (name : str) : bool :=
  existsb (str_eqb name) arr.

(** The options object.  A field is [None] when the key is absent.
    [extensions] is an array of names; [sanitize] is read for its
    truthiness only. *)
Record Options : Type := {
  o_extensions : option (list str);
  o_highlighter : option str;
  o_table_class : option str;
  o_sanitize : option bool
}.

(** [options || {}] *)
Definition no_options : Options :=
  {| o_extensions := None; o_highlighter := None;
     o_table_class := None; o_sanitize := None |}.

(** The names pushed on [transformations], given the array
    [options.extensions || ["all"]]. *)
Definition init_transformations (extensions : list str) : list transformation :=
  if contains extensions (lit "all") then [T_all]
  else
    (if contains extensions (lit "tables") then [T_tables] else [])
    ++ (if contains extensions (lit "fenced_code_gfm") then [T_fencedCodeBlocks] else [])
    ++ (if contains extensions (lit "def_list") then [T_definitionLists] else []).

Definition set_tableClass (e : Extra) (c : str) : Extra :=
  {| converter := converter e; hashBlocks := hashBlocks e;
     googleCodePrettify := googleCodePrettify e; highlightJs := highlightJs e;
     tableClass := c; tabWidth := tabWidth e |}.

(** [init] returns the new [Markdown.Extra]; the list it builds lives on
    in the hook it chains, so the model returns both.  The two converters
    of the host are [Markdown.getSanitizingConverter()] and
    [new Markdown.Converter()]. *)
Definition init (sanitizing plain_converter : Converter) (options : option Options)
  : Extra * list transformation :=
  let options := match options with Some o => o | None => no_options end in
  let extensions :=
    match o_extensions options with Some l => l | None => [lit "all"] end in
  let transformations := init_transformations extensions in
  let extra :=
    new_Extra (match o_sanitize options with
               | None | Some true => sanitizing
               | Some false => plain_converter
               end) in
  let extra :=
    match o_highlighter options with
    | Some h => set_highlighter extra h
    | None => extra
    end in
  let extra :=
    match o_table_class options with
    | Some c => set_tableClass extra c
    | None => extra
    end in
  (extra, transformations).

(** The two hooks [init] chains on the host converter. *)
Definition preBlockGamut (session : Extra * list transformation) (text : str)
  : str * Extra :=
  doConversion (snd session) text (fst session).

Definition postConversion (e : Extra) (text : str) : str * Extra :=
  finishConversion text e.

(** * Definitions used to state the properties *)
(** ** Readers and static checks for the matcher *)

(** The longest prefix of [s] in the class [p], and what follows it. *)
Fixpoint span (p : ascii -> bool) (s : str) : str * str :=
  match s with
  | ch :: t => if p ch then let (a, b) := span p t in (ch :: a, b) else ([], s)
  | [] => ([], [])
  end.

(** [s] without the prefix [l], when it starts with [l]. *)
Fixpoint strip (l s : str) : option str :=
  match l with
  | [] => Some s
  | a :: l' =>
    match s with
    | ch :: t => if Ascii.eqb ch a then strip l' t else None
    | [] => None
    end
  end.

(** The character before the position reached after reading [u]. *)
Definition prev_after (pv : option ascii) (u : str) : option ascii :=
  match u with
  | [] => pv
  | _ => Some (last u NUL)
  end.

(** What a greedy unbounded repetition of one character class does:
    the longest run first, then shorter ones down to [mn]. *)
Fixpoint greedy_chr (p : ascii -> bool) (mn : nat) (pv : option ascii) (s : str)
    (g : list (nat * str)) (c : cont) : option mstate :=
  let stop := if mn =? 0 then c (MState pv s g) else None in
  match s with
  | ch :: t =>
    if p ch then
      match greedy_chr p (pred mn) (Some ch) t g c with
      | Some z => Some z
      | None => stop
      end
    else stop
  | [] => stop
  end.

(** The characters of the 8-bit range. *)
Definition all_ascii : list ascii := map ascii_of_nat (seq 0 256).

(** [must P r]: every match of [r] reads a character of the class [P]. *)
Fixpoint must (P : ascii -> bool) (r : re) : bool :=
  match r with
  | Chr q => forallb (fun ch => implb (q ch) (P ch)) all_ascii
  | Eps => false
  | Seq a b => must P a || must P b
  | Alt a b => must P a && must P b
  | Rep _ mn mx a =>
    (0 <? mn) && must P a && match mx with Some 0 => false | _ => true end
  | Grp _ a => must P a
  | Look _ _ => false
  | Bol _ => false
  | Eol _ => false
  end.

(** [a] is what is left of [b] after some prefix. *)
Definition is_suffix (a b : str) : Prop := exists p, b = p ++ a.

Create HintDb sfx.

(** The continuation [c] refuses every position whose next character is
    in the class [p]. *)
Definition refuses (p : ascii -> bool) (c : cont) : Prop :=
  forall pv ch t g, p ch = true -> c (MState pv (ch :: t) g) = None.

(** One left-to-right pass that replaces the two-character text [a b]. *)
Fixpoint replace2 (a b : ascii) (by_ : str) (s : str) : str :=
  match s with
  | [] => []
  | c :: t =>
    match t with
    | d :: t' =>
      if Ascii.eqb c a && Ascii.eqb d b then by_ ++ replace2 a b by_ t'
      else c :: replace2 a b by_ t
    | [] => [c]
    end
  end.

(** One pass that rewrites both escapes: backslash-pipe and
    backslash-colon become their entities, anything else is copied. *)
Fixpoint escapes (s : str) : str :=
  match s with
  | [] => []
  | c :: t =>
    match t with
    | d :: t' =>
      if Ascii.eqb c "\" && Ascii.eqb d "|" then lit "&#124;" ++ escapes t'
      else if Ascii.eqb c "\" && Ascii.eqb d ":" then lit "&#58;" ++ escapes t'
      else c :: escapes t
    | [] => [c]
    end
  end.

(** What the placeholder pattern does at one position: the digits it
    captures and the text after the match. *)
Definition match_placeholder (s : str) : option (str * str) :=
  match strip (lit "<p>~X") s with
  | Some s1 =>
    let (ds, s2) := span is_digit s1 in
    match ds with
    | [] => None
    | _ =>
      match strip (lit "X</p>") s2 with
      | Some s3 => Some (ds, s3)
      | None => None
      end
    end
  | None => None
  end.

(** A session: the blocks are stored one after the other. *)
Fixpoint store_all (blocks : list str) (e : Extra) : list str * Extra :=
  match blocks with
  | [] => ([], e)
  | b :: bs =>
    let (ph, e1) := hashExtraBlock b e in
    let (phs, e2) := store_all bs e1 in
    (ph :: phs, e2)
  end.

(** A text in which the placeholders [k1, k2, ...] are embedded: each is
    preceded by some surrounding text, and [tl] follows the last one. *)
Fixpoint embed (l : list (str * nat)) (tl : str) : str :=
  match l with
  | [] => tl
  | (s, k) :: l' => s ++ placeholder k ++ embed l' tl
  end.

(** The same text once [restore] has rewritten the surrounding text and
    every placeholder is replaced by [item k]. *)
Fixpoint embedded (restore : str -> str) (item : nat -> str)
    (l : list (str * nat)) (tl : str) : str :=
  match l with
  | [] => restore tl
  | (s, k) :: l' => restore s ++ item k ++ embedded restore item l' tl
  end.

(** A stand-in for the host in closed examples: it wraps its input in
    one paragraph. *)
Definition para_host : Converter :=
  {| makeHtml := fun text => lit "<p>" ++ text ++ lit "</p>" |}.

(** The text has no tilde in it, so nothing in it reads as a placeholder. *)
Definition no_tilde (s : str) : bool := forallb (nec "~") s.

(** What the tag pattern finds at one position: the tag, from [<]
    through the next [>] or to the end of the text, and what follows. *)
Definition tag_at (s : str) : option (str * str) :=
  match s with
  | ch :: t =>
    if Ascii.eqb ch "<" then
      let (body, r) := span (nec ">") t in
      match r with
      | c :: r' => Some (ch :: body ++ [c], r')
      | [] => Some (ch :: body, [])
      end
    else None
  | [] => None
  end.

Definition is_some {A : Type} (o : option A) : bool :=
  match o with Some _ => true | None => false end.

(** Whether [c] accepts a position depends on the text that is left
    only, as computed by [K]. *)
Definition decides (c : cont) (K : str -> bool) : Prop :=
  forall y, is_some (c y) = K (rest y).

(** [K] is false on every text that starts in the class [p]. *)
Definition stops_on (p : ascii -> bool) (K : str -> bool) : Prop :=
  forall ch t, p ch = true -> K (ch :: t) = false.

(** Direct readers for the pieces of the alignment patterns. *)
Definition class_star (p : ascii -> bool) (K : str -> bool) (t : str) : bool :=
  K (snd (span p t)).
Definition class_plus (p : ascii -> bool) (K : str -> bool) (t : str) : bool :=
  (1 <=? length (fst (span p t))) && K (snd (span p t)).
Definition one_chr (p : ascii -> bool) (K : str -> bool) (t : str) : bool :=
  match t with
  | c :: t' => p c && K t'
  | [] => false
  end.
Definition line_end (t : str) : bool :=
  match t with
  | [] => true
  | c :: _ => is_line_terminator c
  end.

Definition right_b : str -> bool :=
  class_star (eqc SP) (class_plus (eqc "-") (one_chr (eqc ":")
    (class_star (eqc SP) line_end))).
Definition center_b : str -> bool :=
  class_star (eqc SP) (one_chr (eqc ":") (class_plus (eqc "-") (one_chr (eqc ":")
    (class_star (eqc SP) line_end)))).
Definition left_b : str -> bool :=
  class_star (eqc SP) (one_chr (eqc ":") (class_plus (eqc "-")
    (class_star (eqc SP) line_end))).

(** The three shapes of a separator token that ask for an alignment, as
    the specification writes them, between optional spaces. *)
Definition shape_right (t : str) : Prop :=
  exists a n b, t = repeat SP a ++ repeat "-"%char (S n) ++ ":"%char :: repeat SP b.
Definition shape_center (t : str) : Prop :=
  exists a n b,
    t = repeat SP a ++ ":"%char :: repeat "-"%char (S n) ++ ":"%char :: repeat SP b.
Definition shape_left (t : str) : Prop :=
  exists a n b, t = repeat SP a ++ ":"%char :: repeat "-"%char (S n) ++ repeat SP b.

Definition is_nil (t : str) : bool :=
  match t with [] => true | _ :: _ => false end.

(** The capture groups of a pattern. *)
Fixpoint groups (r : re) : list nat :=
  match r with
  | Chr _ | Eps | Bol _ | Eol _ => []
  | Seq a b | Alt a b => groups a ++ groups b
  | Rep _ _ _ a | Look _ a => groups a
  | Grp i a => i :: groups a
  end.







(** The entity of one character of a code block. *)
Definition encode_char (c : ascii) : str :=
  if Ascii.eqb c "&" then lit "&amp;"
  else if Ascii.eqb c "<" then lit "&lt;"
  else if Ascii.eqb c ">" then lit "&gt;"
  else [c].

Definition class_attr (name : str) : str := lit " class=" ++ [DQ] ++ name ++ [DQ].

(** The text starts with the sentinel STX; the text ends with ETX. *)
Definition starts_with_STX (text : str) : bool :=
  match text with
  | c :: _ => Ascii.eqb c STX
  | [] => false
  end.
Definition ends_with_ETX (text : str) : bool :=
  match text with
  | [] => false
  | _ => Ascii.eqb (last text NUL) ETX
  end.

(** A text in which none of the characters of the extension syntax
    occurs: no pipe, backtick, colon or backslash, and no sentinel. *)
Definition syntax_char : ascii -> bool :=
  one_of ["|"; "`"; ":"; "\"; STX; ETX]%char.
Definition plain (text : str) : bool :=
  forallb (fun c => negb (syntax_char c)) text.

(** A text that neither starts nor ends with white space; a text that
    does not end with white space. *)
Definition tight (core : str) : bool :=
  match core with
  | [] => true
  | c :: _ => non_space c && non_space (last core NUL)
  end.
Definition ends_tight (core : str) : bool :=
  match core with
  | [] => true
  | _ :: _ => non_space (last core NUL)
  end.

(** The longest prefix of [s] in the class [p] that has at most [k]
    characters, and what follows it. *)
Fixpoint span_n (p : ascii -> bool) (k : nat) (s : str) : str * str :=
  match k with
  | 0 => ([], s)
  | S k' =>
    match s with
    | ch :: t => if p ch then let (a, b) := span_n p k' t in (ch :: a, b) else ([], s)
    | [] => ([], [])
    end
  end.

(** One line without one level of indentation: a tab, or up to four
    spaces. *)
Definition outdent_line (l : str) : str :=
  match l with
  | c :: t => if Ascii.eqb c TAB then t else snd (span_n (eqc SP) 4 l)
  | [] => []
  end.

(** The number of characters [outdent] removes at the start of a line. *)
Definition indent_len (l : str) : nat :=
  match l with
  | c :: _ => if Ascii.eqb c TAB then 1 else length (fst (span_n (eqc SP) 4 l))
  | [] => 0
  end.

(** The position is at the start of a line: what [^] asks for with the
    flag [m]. *)
Definition bol (pv : option ascii) : bool :=
  match pv with
  | None => true
  | Some c => is_line_terminator c
  end.

(** Two texts that differ in letter case only. *)
Definition same_ci (a b : str) : Prop := map to_upper a = map to_upper b.

(** The two-character text [a b] occurs in [s]. *)
Fixpoint has2 (a b : ascii) (s : str) : bool :=
  match s with
  | [] => false
  | c :: t =>
    match t with
    | d :: _ => (Ascii.eqb c a && Ascii.eqb d b) || has2 a b t
    | [] => false
    end
  end.

(** The text has no angle bracket in it. *)
Definition no_angle (s : str) : bool :=
  forallb (fun c => negb (Ascii.eqb c "<" || Ascii.eqb c ">")) s.

(** [e'] is [e] with more blocks stored after those of [e]; nothing
    else differs. *)
Definition extends (e e' : Extra) : Prop :=
  exists new, e' = set_hashBlocks e (hashBlocks e ++ new).

(** How many times the character [c] occurs in [s]. *)
Definition count_chr (c : ascii) (s : str) : nat := length (filter (eqc c) s).

(** What a lazy unbounded repetition of one character class does: the
    shortest run first, then longer ones. *)
Fixpoint lazy_chr (p : ascii -> bool) (pv : option ascii) (s : str)
    (g : list (nat * str)) (c : cont) : option mstate :=
  match c (MState pv s g) with
  | Some z => Some z
  | None =>
    match s with
    | ch :: t => if p ch then lazy_chr p (Some ch) t g c else None
    | [] => None
    end
  end.

(** A line of three backticks, with the newline before it. *)
Definition fence : str := LF :: lit "```".

(** The text has a newline followed by three backticks somewhere. *)
Fixpoint has_fence (s : str) : bool :=
  match s with
  | [] => false
  | _ :: t => is_some (strip fence s) || has_fence t
  end.

(** Two newlines followed by a character that is not white space occur
    in the text: a blank line with text after it. *)
Fixpoint par_break (s : str) : bool :=
  match s with
  | [] => false
  | c1 :: t =>
    match t with
    | c2 :: c3 :: _ => Ascii.eqb c1 LF && Ascii.eqb c2 LF && non_space c3
    | _ => false
    end || par_break t
  end.

(** The last part of [wholeList]: what has to follow a definition list. *)
Definition list_end : re :=
  Alt
    (Look true (Seq (Chr (eqc NUL)) (Lit "x03")))
    (Look true (seqs [
       AtLeast 2 nl;
       Look true (Chr non_space);
       Look false (seqs [
         sp03;
         LazyPlus (seqs [Chr non_space; Star (Chr dot); nl; sp]);
         Opt nl;
         def_mark]);
       Look false def_mark
     ])).

(** The text without the pipe it starts with, spaces before the pipe
    included, when it starts so. *)
Definition drop_pipe (s : str) : str :=
  match snd (span (eqc SP) s) with
  | c :: r => if Ascii.eqb c "|" then r else s
  | [] => s
  end.

(** Lines joined with newlines. *)
Definition join_lines (ls : list str) : str :=
  match ls with
  | [] => []
  | l :: ls' => l ++ flat_map (fun x => LF :: x) ls'
  end.

(** A line of terms: not empty, no white space at its ends, no newline
    in it. *)
Definition term_line (t : str) : Prop :=
  t <> [] /\ tight t = true /\ forallb (nec LF) t = true.

(** The match ended with the text [r] left and the captures [g]. *)
Definition ends (o : option mstate) (r : str) (g : list (nat * str)) : Prop :=
  exists pv, o = Some (MState pv r g).

(** One row of a table that starts with a pipe, possibly after spaces,
    and has no line terminator in it. *)
Definition is_row (l : str) : bool :=
  match snd (span (eqc SP) l) with
  | c :: r => Ascii.eqb c "|" && forallb dot r
  | [] => false
  end.

(** The lines of a table body, each followed by a newline. *)
Definition rows_text (lines : list str) : str :=
  flat_map (fun l => l ++ [LF]) lines.

(** A separator line after its first pipe: only dashes, colons, pipes
    and spaces, and a dash or a colon first after the spaces. *)
Definition sep_ok (sep : str) : bool :=
  forallb is_sep_char sep &&
  match snd (span (eqc SP) sep) with
  | c :: _ => one_of ["-"; ":"]%char c
  | [] => false
  end.

(** One row of the body in [leadingPipe]. *)
Definition pipe_row : re := seqs [Star sp; pipe; Star (Chr dot); Opt nl].

(** One line of a table without its outer pipes: the pipe it starts
    with, spaces before it included, and the pipe it ends with, spaces
    after it included. *)
Definition strip_line (l : str) : str := rev (drop_pipe (rev (drop_pipe l))).










(** * Properties *)

#[local] Arguments Nat.sub : simpl never.

(** ** The matcher *)

Lemma mstate_eta (x : mstate) : MState (prev x) (rest x) (caps x) = x.
Proof. destruct x; reflexivity. Qed.

Lemma m_seqs_cons (a : re) (l : list re) (x : mstate) (c : cont) :
  m (seqs (a :: l)) x c = m a x (fun y => m (seqs l) y c).
Proof. destruct l; reflexivity. Qed.

(** *** What the continuation is given *)

Lemma is_suffix_refl (a : str) : is_suffix a a.
Proof. exists []; reflexivity. Qed.

Lemma is_suffix_trans (a b c : str) :
  is_suffix a b -> is_suffix b c -> is_suffix a c.
Proof.
  intros [p ->] [q ->]. exists (q ++ p). now rewrite app_assoc.
Qed.

Lemma is_suffix_cons (ch : ascii) (t : str) : is_suffix t (ch :: t).
Proof. exists [ch]; reflexivity. Qed.

Lemma is_suffix_length (a b : str) : is_suffix a b -> length a <= length b.
Proof. intros [p ->]. rewrite length_app. lia. Qed.

#[local] Hint Resolve is_suffix_refl is_suffix_cons : sfx.

(** A continuation that refuses every position at or after [x] makes the
    whole match fail: the matcher only hands over such positions. *)
Lemma rep_none (ma : mstate -> cont -> option mstate) :
  (forall x c, (forall y, is_suffix (rest y) (rest x) -> c y = None) -> ma x c = None) ->
  forall fuel g mn mx x c,
    (forall y, is_suffix (rest y) (rest x) -> c y = None) ->
    rep ma g fuel mn mx x c = None.
Proof.
  intros Hma fuel. induction fuel as [|fuel IH]; intros g mn mx x c Hc.
  - simpl. destruct mx as [[|k]|]; apply Hc; auto with sfx.
  - assert (Hd : ma x (fun y =>
        if (mn =? 0) && (length (rest y) =? length (rest x)) then None
        else rep ma g fuel (pred mn) (option_map pred mx) y c) = None).
    { apply Hma. intros y Hy.
      destruct ((mn =? 0) && (length (rest y) =? length (rest x))); [reflexivity|].
      apply IH. intros z Hz. apply Hc. eapply is_suffix_trans; eauto. }
    simpl. destruct mx as [[|k]|].
    + apply Hc; auto with sfx.
    + destruct (0 <? mn); [exact Hd|].
      destruct g; rewrite Hd, Hc; auto with sfx.
    + destruct (0 <? mn); [exact Hd|].
      destruct g; rewrite Hd, Hc; auto with sfx.
Qed.

Lemma m_none (r : re) :
  forall x c, (forall y, is_suffix (rest y) (rest x) -> c y = None) -> m r x c = None.
Proof.
  induction r as [p| |a IHa b IHb|a IHa b IHb|g mn mx a IHa|i a IHa|pos a IHa|ml|ml];
    intros x c Hc; simpl.
  - destruct (rest x) as [|ch t] eqn:E; [reflexivity|].
    destruct (p ch); [|reflexivity].
    apply Hc. simpl. auto with sfx.
  - apply Hc; auto with sfx.
  - apply IHa. intros y Hy. apply IHb. intros z Hz. apply Hc.
    eapply is_suffix_trans; eauto.
  - rewrite IHa by assumption. now apply IHb.
  - apply rep_none; assumption.
  - apply IHa. intros y Hy. apply Hc. exact Hy.
  - destruct (m a x Some); destruct pos; try reflexivity; apply Hc; simpl; auto with sfx.
  - destruct (at_bol ml x); [apply Hc; auto with sfx|reflexivity].
  - destruct (at_eol ml x); [apply Hc; auto with sfx|reflexivity].
Qed.

(** *** Patterns that must read a character that is not there *)

Lemma in_all_ascii (ch : ascii) : In ch all_ascii.
Proof.
  unfold all_ascii. rewrite <- (ascii_nat_embedding ch).
  apply in_map. apply in_seq. pose proof (nat_ascii_bounded ch). lia.
Qed.

Lemma must_none (P : ascii -> bool) (r : re) :
  must P r = true ->
  forall x c, (forall ch, In ch (rest x) -> P ch = false) -> m r x c = None.
Proof.
  induction r as [p| |a IHa b IHb|a IHa b IHb|g mn mx a IHa|i a IHa|pos a IHa|ml|ml];
    cbn [must m]; intros Hm x c Hx; try discriminate.
  - destruct (rest x) as [|ch t] eqn:E; [reflexivity|].
    destruct (p ch) eqn:Ep; [|reflexivity].
    rewrite forallb_forall in Hm. specialize (Hm ch (in_all_ascii ch)).
    rewrite Ep in Hm. simpl in Hm.
    rewrite (Hx ch) in Hm; [discriminate|]. left; reflexivity.
  - apply orb_true_iff in Hm. destruct Hm as [Hm|Hm].
    + now apply IHa.
    + apply m_none. intros y [p Hy]. apply IHb; [assumption|].
      intros ch Hin. apply Hx. rewrite Hy. apply in_or_app. now right.
  - apply andb_true_iff in Hm. destruct Hm as [Ha Hb].
    rewrite IHa by assumption. now apply IHb.
  - apply andb_true_iff in Hm. destruct Hm as [Hm Hmx].
    apply andb_true_iff in Hm. destruct Hm as [Hmn Ha].
    apply Nat.ltb_lt in Hmn.
    destruct mn as [|mn]; [lia|].
    simpl. destruct mx as [[|k]|]; try discriminate; now apply IHa.
  - now apply IHa.
Qed.

Lemma must_exec (P : ascii -> bool) (r : re) (pv : option ascii) (s : str) :
  must P r = true -> forallb (fun ch => negb (P ch)) s = true ->
  exec_at r pv s = None.
Proof.
  intros Hm Hs. unfold exec_at. rewrite (must_none P r Hm); [reflexivity|].
  simpl. intros ch Hin. rewrite forallb_forall in Hs.
  apply Hs in Hin. now apply negb_true_iff in Hin.
Qed.

Lemma must_search (P : ascii -> bool) (r : re) (s : str) :
  must P r = true -> forallb (fun ch => negb (P ch)) s = true ->
  forall pv, search r pv s = None.
Proof.
  intros Hm. induction s as [|ch t IH]; intros Hs pv; simpl.
  - now rewrite (must_exec P r pv [] Hm Hs).
  - rewrite (must_exec P r pv (ch :: t) Hm Hs).
    simpl in Hs. apply andb_true_iff in Hs. destruct Hs as [_ Hs].
    now rewrite IH.
Qed.

(** *** The counter of the repetition is never what stops a match *)

Lemma rep_ext_suffix (ma : mstate -> cont -> option mstate) :
  (forall x c c', (forall y, is_suffix (rest y) (rest x) -> c y = c' y) ->
                  ma x c = ma x c') ->
  forall fuel g mn mx x c c',
    (forall y, is_suffix (rest y) (rest x) -> c y = c' y) ->
    rep ma g fuel mn mx x c = rep ma g fuel mn mx x c'.
Proof.
  intros Hma fuel. induction fuel as [|fuel IH]; intros g mn mx x c c' H.
  - simpl. destruct mx as [[|k]|]; apply H; auto with sfx.
  - assert (Hd : ma x (fun y =>
        if (mn =? 0) && (length (rest y) =? length (rest x)) then None
        else rep ma g fuel (pred mn) (option_map pred mx) y c) =
      ma x (fun y =>
        if (mn =? 0) && (length (rest y) =? length (rest x)) then None
        else rep ma g fuel (pred mn) (option_map pred mx) y c')).
    { apply Hma. intros y Hy. destruct (_ && _); [reflexivity|].
      apply IH. intros z Hz. apply H. eapply is_suffix_trans; eauto. }
    simpl. destruct mx as [[|k]|]; [apply H; auto with sfx| |];
      (destruct (0 <? mn); [exact Hd|]);
      destruct g; rewrite Hd, H; auto with sfx.
Qed.

(** The result depends on the continuation only at the positions at or
    after the start. *)
Lemma m_ext_suffix (r : re) :
  forall x c c', (forall y, is_suffix (rest y) (rest x) -> c y = c' y) ->
                 m r x c = m r x c'.
Proof.
  induction r as [p| |a IHa b IHb|a IHa b IHb|g mn mx a IHa|j a IHa|pos a IHa|ml|ml];
    intros x c c' H; cbn [m].
  - destruct (rest x) as [|ch t] eqn:E; [reflexivity|].
    rewrite H; [reflexivity|]. cbn [rest]. auto with sfx.
  - apply H; auto with sfx.
  - apply IHa. intros y Hy. apply IHb. intros z Hz. apply H.
    eapply is_suffix_trans; eauto.
  - now rewrite (IHa x c c' H), (IHb x c c' H).
  - now apply rep_ext_suffix.
  - apply IHa. intros y Hy. apply H. exact Hy.
  - destruct (m a x Some); destruct pos; try reflexivity; apply H; cbn [rest];
      auto with sfx.
  - rewrite H; auto with sfx.
  - rewrite H; auto with sfx.
Qed.

Lemma is_suffix_same_length (a b : str) :
  is_suffix a b -> length a = length b -> a = b.
Proof.
  intros [p ->] H. rewrite length_app in H.
  destruct p; [reflexivity|simpl in H; lia].
Qed.

(** Any counter at or above [min + length (rest x)], where [m] starts
    it, gives the same result. *)
Lemma rep_fuel_enough (a : re) (g : bool) (c : cont) :
  forall fuel fuel' mn mx x,
    mn + length (rest x) <= fuel -> mn + length (rest x) <= fuel' ->
    rep (m a) g fuel mn mx x c = rep (m a) g fuel' mn mx x c.
Proof.
  assert (Hzero : forall fuel mx x, length (rest x) = 0 ->
            rep (m a) g fuel 0 mx x c = c x).
  { intros fuel mx x Hx. destruct fuel as [|fuel]; destruct mx as [[|k]|]; try reflexivity;
      cbn [rep Nat.ltb Nat.leb Nat.eqb andb];
      (rewrite (m_none a); [destruct g; [reflexivity|now destruct (c x)]|]);
      intros y Hy; apply is_suffix_length in Hy;
      (replace (length (rest y) =? length (rest x)) with true
         by (symmetry; apply Nat.eqb_eq; lia)); reflexivity. }
  induction fuel as [|fuel IH]; intros fuel' mn mx x H H'.
  - assert (mn = 0) by lia. subst mn. rewrite !Hzero by lia. reflexivity.
  - destruct fuel' as [|fuel'].
    + assert (mn = 0) by lia. subst mn. rewrite !Hzero by lia. reflexivity.
    + assert (Hd : m a x (fun y =>
          if (mn =? 0) && (length (rest y) =? length (rest x)) then None
          else rep (m a) g fuel (pred mn) (option_map pred mx) y c) =
        m a x (fun y =>
          if (mn =? 0) && (length (rest y) =? length (rest x)) then None
          else rep (m a) g fuel' (pred mn) (option_map pred mx) y c)).
      { apply m_ext_suffix. intros y Hy.
        destruct ((mn =? 0) && (length (rest y) =? length (rest x))) eqn:E;
          [reflexivity|].
        pose proof (is_suffix_length _ _ Hy) as Hl.
        apply andb_false_iff in E.
        assert (pred mn + length (rest y) < mn + length (rest x)).
        { destruct E as [E|E].
          - apply Nat.eqb_neq in E. lia.
          - apply Nat.eqb_neq in E. lia. }
        apply IH; lia. }
      simpl. destruct mx as [[|k]|]; [reflexivity| |];
        (destruct (0 <? mn); [exact Hd|]); destruct g; now rewrite Hd.
Qed.

(** *** Global replacement *)

Lemma scan_skip (r : re) (u : str) :
  forall pv s, scan r pv (u ++ s) (length u) = scan r (prev_after pv u) s 0.
Proof.
  induction u as [|ch u IH]; intros pv s.
  - destruct s; reflexivity.
  - simpl. rewrite IH. destruct u; reflexivity.
Qed.

(** One step of the scan at a position where the pattern matches. *)
Lemma scan_match (r : re) (pv : option ascii) (s : str) (n : nat) (g : list (nat * str)) :
  exec_at r pv s = Some (n, g) -> 0 < n -> n <= length s ->
  scan r pv s 0 =
  TMatch (firstn n s) g :: scan r (prev_after pv (firstn n s)) (skipn n s) 0.
Proof.
  intros He Hn Hl. destruct s as [|ch t]; [simpl in Hl; lia|].
  simpl scan. rewrite He. destruct n as [|k]; [lia|]. f_equal.
  simpl in Hl.
  assert (E : scan r (Some ch) t k =
              scan r (Some ch) (firstn k t ++ skipn k t) (length (firstn k t))).
  { rewrite firstn_skipn, length_firstn, Nat.min_l by lia. reflexivity. }
  rewrite E, scan_skip. simpl. destruct (firstn k t); reflexivity.
Qed.

Lemma scan_nomatch (r : re) (pv : option ascii) (ch : ascii) (t : str) :
  exec_at r pv (ch :: t) = None ->
  scan r pv (ch :: t) 0 = TLit ch :: scan r (Some ch) t 0.
Proof. intros He. simpl. now rewrite He. Qed.

(** Where the pattern matches nowhere the scan finds only characters. *)
Lemma scan_search_none (r : re) (s : str) :
  forall pv, search r pv s = None -> scan r pv s 0 = map TLit s.
Proof.
  induction s as [|ch t IH]; intros pv H; simpl in *.
  - destruct (exec_at r pv []) as [[n g]|]; [discriminate|reflexivity].
  - destruct (exec_at r pv (ch :: t)) as [[n g]|]; [discriminate|].
    destruct (search r (Some ch) t) eqn:E; [discriminate|].
    now rewrite IH.
Qed.

Lemma flat_map_subst_lit (f : str -> list (nat * str) -> str) (s : str) :
  flat_map (subst f) (map TLit s) = s.
Proof. induction s as [|ch t IH]; simpl; [reflexivity|now rewrite IH]. Qed.

Lemma substS_lit (S : Type) (f : str -> list (nat * str) -> S -> str * S) (s : str) (st : S) :
  substS f (map TLit s) st = (s, st).
Proof. induction s as [|ch t IH]; simpl; [reflexivity|now rewrite IH]. Qed.

Lemma gsub_no_match (r : re) (f : str -> list (nat * str) -> str) (s : str) :
  test r s = false -> gsub r f s = s.
Proof.
  unfold test, gsub. intros H.
  destruct (search r None s) eqn:E; [discriminate|].
  rewrite (scan_search_none _ _ _ E). apply flat_map_subst_lit.
Qed.

Lemma gsubS_no_match (S : Type) (r : re) (f : str -> list (nat * str) -> S -> str * S)
    (s : str) (st : S) :
  test r s = false -> gsubS r f s st = (s, st).
Proof.
  unfold test, gsubS. intros H.
  destruct (search r None s) eqn:E; [discriminate|].
  rewrite (scan_search_none _ _ _ E). apply substS_lit.
Qed.

Lemma sub_first_no_match (r : re) (f : str -> list (nat * str) -> str) (s : str) :
  test r s = false -> sub_first r f s = s.
Proof.
  unfold test, sub_first. destruct (search r None s); [discriminate|reflexivity].
Qed.

(** *** Repetition of one character class *)

Lemma rep_chr (p : ascii -> bool) (c : cont) :
  forall fuel mn pv s g,
    mn + length s <= fuel ->
    rep (m (Chr p)) true fuel mn None (MState pv s g) c = greedy_chr p mn pv s g c.
Proof.
  induction fuel as [|fuel IH]; intros mn pv s g Hf.
  - assert (mn = 0) by lia. assert (s = []) by (destruct s; simpl in *; [reflexivity|lia]).
    subst. reflexivity.
  - destruct s as [|ch t].
    + destruct mn; reflexivity.
    + simpl in Hf. cbn [rep m rest caps prev greedy_chr].
      destruct (p ch) eqn:Ep.
      * replace (length t =? length (ch :: t)) with false
          by (symmetry; apply Nat.eqb_neq; simpl; lia).
        rewrite andb_false_r.
        rewrite IH by (destruct mn; simpl; lia).
        destruct mn; simpl; [reflexivity|].
        destruct (greedy_chr p mn (Some ch) t g c); reflexivity.
      * destruct mn; reflexivity.
Qed.

Lemma m_rep_chr (p : ascii -> bool) (mn : nat) (x : mstate) (c : cont) :
  m (Rep true mn None (Chr p)) x c = greedy_chr p mn (prev x) (rest x) (caps x) c.
Proof.
  destruct x as [pv s g]. cbn [m rest prev caps]. now apply rep_chr.
Qed.

Lemma span_app (p : ascii -> bool) (s : str) :
  fst (span p s) ++ snd (span p s) = s.
Proof.
  induction s as [|ch t IH]; simpl; [reflexivity|].
  destruct (p ch); [|reflexivity].
  destruct (span p t); simpl in *. now rewrite IH.
Qed.

Lemma span_all (p : ascii -> bool) (s : str) : forallb p (fst (span p s)) = true.
Proof.
  induction s as [|ch t IH]; simpl; [reflexivity|].
  destruct (p ch) eqn:E; [|reflexivity].
  destruct (span p t); simpl in *. now rewrite E.
Qed.

Lemma span_stop (p : ascii -> bool) (s : str) :
  match snd (span p s) with ch :: _ => p ch = false | [] => True end.
Proof.
  induction s as [|ch t IH]; simpl; [exact I|].
  destruct (p ch) eqn:E; [|exact E].
  destruct (span p t); simpl in *. exact IH.
Qed.

(** A run of [p], then something that does not start in [p]. *)
Lemma span_run (p : ascii -> bool) (a b : str) :
  forallb p a = true ->
  match b with ch :: _ => p ch = false | [] => True end ->
  span p (a ++ b) = (a, b).
Proof.
  intros Ha Hb. induction a as [|ch a IH]; simpl in *.
  - destruct b as [|ch b]; [reflexivity|]. simpl. now rewrite Hb.
  - apply andb_true_iff in Ha. destruct Ha as [E Ha]. rewrite E.
    now rewrite IH.
Qed.

Lemma prev_after_cons (pv : option ascii) (ch : ascii) (a : str) :
  prev_after pv (ch :: a) = prev_after (Some ch) a.
Proof. destruct a; reflexivity. Qed.

Lemma prev_after_app (pv : option ascii) (a b : str) :
  prev_after pv (a ++ b) = prev_after (prev_after pv a) b.
Proof.
  revert pv. induction a as [|ch a IH]; intros pv; [reflexivity|].
  rewrite <- app_comm_cons, !prev_after_cons. apply IH.
Qed.

(** When the continuation accepts the position after the longest run,
    that is the answer. *)
Lemma greedy_chr_longest (p : ascii -> bool) (c : cont) (g : list (nat * str)) (z : mstate) :
  forall s mn pv,
    mn <= length (fst (span p s)) ->
    c (MState (prev_after pv (fst (span p s))) (snd (span p s)) g) = Some z ->
    greedy_chr p mn pv s g c = Some z.
Proof.
  induction s as [|ch t IH]; intros mn pv Hmn Hc; simpl in *.
  - assert (mn = 0) by lia. subst. exact Hc.
  - destruct (p ch) eqn:Ep.
    + destruct (span p t) as [a b] eqn:Es. cbn [fst snd] in *.
      rewrite prev_after_cons in Hc.
      rewrite (IH (pred mn) (Some ch)); [reflexivity|simpl in Hmn; lia|exact Hc].
    + simpl in *. assert (mn = 0) by lia. subst. exact Hc.
Qed.

(** When the continuation refuses every position that still starts in the
    class, only the longest run is a candidate. *)
Lemma greedy_chr_only (p : ascii -> bool) (c : cont) (g : list (nat * str)) :
  refuses p c ->
  forall s mn pv,
    greedy_chr p mn pv s g c =
    if mn <=? length (fst (span p s))
    then c (MState (prev_after pv (fst (span p s))) (snd (span p s)) g)
    else None.
Proof.
  intros Hr. induction s as [|ch t IH]; intros mn pv; cbn [greedy_chr span].
  - destruct mn; reflexivity.
  - destruct (p ch) eqn:Ep.
    + rewrite IH, (Hr pv ch t g Ep). destruct (span p t) as [a b] eqn:Es.
      cbn [fst snd length]. rewrite prev_after_cons.
      destruct mn as [|mn]; cbn [pred Nat.eqb Nat.leb].
      * destruct (c _); reflexivity.
      * destruct (mn <=? length a); [destruct (c _)|]; reflexivity.
    + cbn [fst snd length]. destruct mn; reflexivity.
Qed.

(** ** The escape normalizer *)

Lemma str_ind2 (P : str -> Prop) :
  P [] -> (forall c, P [c]) ->
  (forall c d t, P t -> P (d :: t) -> P (c :: d :: t)) ->
  forall s, P s.
Proof.
  intros H0 H1 H2 s.
  assert (H : P s /\ forall c, P (c :: s)); [|tauto].
  induction s as [|d t [IHt IHdt]]; split; auto.
Qed.

Lemma exec_lit2 (a b : ascii) (pv : option ascii) (s : str) :
  exec_at (Seq (Chr (eqc a)) (Chr (eqc b))) pv s =
  match s with
  | c :: d :: _ => if Ascii.eqb c a && Ascii.eqb d b then Some (2, []) else None
  | _ => None
  end.
Proof.
  unfold exec_at, eqc. cbn [m rest prev caps].
  destruct s as [|c [|d t]]; try reflexivity.
  - now destruct (Ascii.eqb c a).
  - destruct (Ascii.eqb c a); cbn [andb]; [|reflexivity].
    destruct (Ascii.eqb d b); [|reflexivity].
    cbn [rest caps]. do 2 f_equal. simpl length. lia.
Qed.

Lemma gsub_lit2 (a b : ascii) (by_ : str) (s : str) :
  gsub (Seq (Chr (eqc a)) (Chr (eqc b))) (const_str by_) s = replace2 a b by_ s.
Proof.
  unfold gsub. generalize (@None ascii).
  induction s as [|c|c d t IHt IHdt] using str_ind2; intros pv.
  - cbn [scan]. now rewrite exec_lit2.
  - cbn [scan]. now rewrite !exec_lit2.
  - destruct (Ascii.eqb c a && Ascii.eqb d b) eqn:E.
    + rewrite (scan_match _ pv (c :: d :: t) 2 []);
        [|rewrite exec_lit2, E; reflexivity|lia|simpl; lia].
      simpl. rewrite E, IHt. reflexivity.
    + rewrite scan_nomatch by (rewrite exec_lit2, E; reflexivity).
      cbn [flat_map subst app]. rewrite IHdt.
      cbn [replace2]. rewrite E. reflexivity.
Qed.

Lemma replace2_cons_ne (a b : ascii) (by_ : str) (c : ascii) (t : str) :
  Ascii.eqb c a = false ->
  replace2 a b by_ (c :: t) = c :: replace2 a b by_ t.
Proof. intros E. destruct t; simpl; [reflexivity|]. now rewrite E. Qed.

Lemma replace2_free_prefix (a b : ascii) (by_ : str) (u t : str) :
  forallb (nec a) u = true ->
  replace2 a b by_ (u ++ t) = u ++ replace2 a b by_ t.
Proof.
  induction u as [|c u IH]; intros H; [reflexivity|].
  simpl in H. apply andb_true_iff in H. destruct H as [H1 H2].
  rewrite <- app_comm_cons, replace2_cons_ne, IH; auto.
  now apply negb_true_iff in H1.
Qed.

Lemma escapes_cons_ne (c : ascii) (t : str) :
  Ascii.eqb c "\" = false -> escapes (c :: t) = c :: escapes t.
Proof. intros E. destruct t; simpl; [reflexivity|]. now rewrite E. Qed.

(** The head of a replaced text is the old head or the head of [by_]. *)
Lemma replace2_head (a b : ascii) (by_ : str) (d : ascii) (t : str) :
  replace2 a b by_ (d :: t) = d :: replace2 a b by_ t \/
  exists t', replace2 a b by_ (d :: t) = by_ ++ t'.
Proof.
  destruct t as [|d' t]; simpl; [now left|].
  destruct (Ascii.eqb d a && Ascii.eqb d' b); [right; eauto|now left].
Qed.

Lemma replace2_cons2 (a b : ascii) (by_ : str) (c d : ascii) (t : str) :
  replace2 a b by_ (c :: d :: t) =
  if Ascii.eqb c a && Ascii.eqb d b then by_ ++ replace2 a b by_ t
  else c :: replace2 a b by_ (d :: t).
Proof. reflexivity. Qed.

Lemma escapes_cons2 (c d : ascii) (t : str) :
  escapes (c :: d :: t) =
  if Ascii.eqb c "\" && Ascii.eqb d "|" then lit "&#124;" ++ escapes t
  else if Ascii.eqb c "\" && Ascii.eqb d ":" then lit "&#58;" ++ escapes t
  else c :: escapes (d :: t).
Proof. reflexivity. Qed.

Lemma replace2_bs_other (b : ascii) (by_ : str) (h : ascii) (t : str) :
  Ascii.eqb h b = false ->
  replace2 "\" b by_ ("\"%char :: h :: t) = "\"%char :: replace2 "\" b by_ (h :: t).
Proof. intros E. rewrite replace2_cons2, E, andb_false_r. reflexivity. Qed.

Lemma pipe_then_colon (s : str) :
  replace2 "\" ":" (lit "&#58;") (replace2 "\" "|" (lit "&#124;") s) = escapes s.
Proof.
  induction s as [|c|c d t IHt IHdt] using str_ind2; [reflexivity|reflexivity|].
  rewrite replace2_cons2, escapes_cons2.
  destruct (Ascii.eqb_spec c "\") as [->|Hc]; cbn [andb].
  - destruct (Ascii.eqb_spec d "|") as [->|Hp].
    + rewrite replace2_free_prefix by reflexivity. now rewrite IHt.
    + destruct (Ascii.eqb_spec d ":") as [->|Hq].
      * rewrite (replace2_cons_ne _ _ _ ":"%char) by reflexivity.
        rewrite replace2_cons2. cbn [Ascii.eqb Bool.eqb andb]. now rewrite IHt.
      * apply Ascii.eqb_neq in Hq.
        destruct (replace2_head "\" "|" (lit "&#124;") d t) as [E|[t' E]].
        -- rewrite E, replace2_bs_other by assumption. now rewrite <- E, IHdt.
        -- rewrite E.
           change (lit "&#124;" ++ t') with ("&"%char :: lit "#124;" ++ t').
           rewrite replace2_bs_other by reflexivity.
           change ("&"%char :: lit "#124;" ++ t') with (lit "&#124;" ++ t').
           now rewrite <- E, IHdt.
  - apply Ascii.eqb_neq in Hc.
    rewrite replace2_cons_ne by assumption. now rewrite IHdt.
Qed.

Lemma colon_then_pipe (s : str) :
  replace2 "\" "|" (lit "&#124;") (replace2 "\" ":" (lit "&#58;") s) = escapes s.
Proof.
  induction s as [|c|c d t IHt IHdt] using str_ind2; [reflexivity|reflexivity|].
  rewrite replace2_cons2, escapes_cons2.
  destruct (Ascii.eqb_spec c "\") as [->|Hc]; cbn [andb].
  - destruct (Ascii.eqb_spec d ":") as [->|Hq].
    + cbn [Ascii.eqb Bool.eqb andb].
      rewrite replace2_free_prefix by reflexivity. now rewrite IHt.
    + destruct (Ascii.eqb_spec d "|") as [->|Hp].
      * rewrite (replace2_cons_ne _ _ _ "|"%char) by reflexivity.
        rewrite replace2_cons2. cbn [Ascii.eqb Bool.eqb andb]. now rewrite IHt.
      * apply Ascii.eqb_neq in Hp.
        destruct (replace2_head "\" ":" (lit "&#58;") d t) as [E|[t' E]].
        -- rewrite E, replace2_bs_other by assumption. now rewrite <- E, IHdt.
        -- rewrite E.
           change (lit "&#58;" ++ t') with ("&"%char :: lit "#58;" ++ t').
           rewrite replace2_bs_other by reflexivity.
           change ("&"%char :: lit "#58;" ++ t') with (lit "&#58;" ++ t').
           now rewrite <- E, IHdt.
  - apply Ascii.eqb_neq in Hc.
    rewrite replace2_cons_ne by assumption. now rewrite IHdt.
Qed.

(** C7.  The escape normalizer is one pass that turns backslash-pipe into
    the entity of the pipe and backslash-colon into the entity of the
    colon and copies every other character; doing the two replacements
    in the other order gives the same text. *)
Theorem processEscapes_spec (text : str) :
  processEscapes text = escapes text /\
  gsub re_esc_pipe (const_str (lit "&#124;"))
       (gsub re_esc_colon (const_str (lit "&#58;")) text) = escapes text.
Proof.
  unfold processEscapes, re_esc_pipe, re_esc_colon.
  rewrite !gsub_lit2. split; [apply pipe_then_colon|apply colon_then_pipe].
Qed.

(** *** Literal text *)

Lemma m_lit (l : str) :
  forall x c,
    m (seqs (map (fun a => Chr (eqc a)) l)) x c =
    match strip l (rest x) with
    | Some r => c (MState (prev_after (prev x) l) r (caps x))
    | None => None
    end.
Proof.
  induction l as [|a l IH]; intros x c.
  - simpl. now rewrite mstate_eta.
  - cbn [map]. rewrite m_seqs_cons. cbn [m strip].
    destruct (rest x) as [|ch t]; [reflexivity|]. unfold eqc at 1.
    destruct (Ascii.eqb_spec ch a) as [->|Hne]; [|reflexivity].
    rewrite IH. cbn [rest prev caps]. now rewrite prev_after_cons.
Qed.

Lemma strip_length (l s r : str) : strip l s = Some r -> s = l ++ r.
Proof.
  revert s. induction l as [|a l IH]; intros s H; simpl in *.
  - now injection H as ->.
  - destruct s as [|ch t]; [discriminate|].
    destruct (Ascii.eqb_spec ch a) as [->|]; [|discriminate].
    now rewrite (IH t H).
Qed.

Lemma strip_app (l r : str) : strip l (l ++ r) = Some r.
Proof.
  induction l as [|a l IH]; simpl; [reflexivity|]. now rewrite Ascii.eqb_refl.
Qed.

(** Text appended after a non-empty [u] does not change whether [u]
    starts with [l], as long as no proper tail of [l] starts that text. *)
Lemma strip_app_stable (w : str) :
  forall l, (forall k, 0 < k < length l -> strip (skipn k l) w = None) ->
  forall u, u <> [] ->
  strip l (u ++ w) = option_map (fun r => r ++ w) (strip l u).
Proof.
  induction l as [|a l IH]; intros H u Hu.
  - reflexivity.
  - destruct u as [|c u]; [contradiction|]. simpl.
    destruct (Ascii.eqb c a); [|reflexivity].
    destruct u as [|c' u].
    + destruct l as [|a' l]; [reflexivity|].
      apply (H 1). simpl. lia.
    + apply IH; [|discriminate].
      intros k Hk. apply (H (S k)). simpl. lia.
Qed.

Lemma span_app_stop (p : ascii -> bool) (w : str) :
  match w with ch :: _ => p ch = false | [] => True end ->
  forall r, span p (r ++ w) = (fst (span p r), snd (span p r) ++ w).
Proof.
  intros Hw. induction r as [|ch r IH]; simpl.
  - destruct w as [|c w]; [reflexivity|]. simpl. now rewrite Hw.
  - destruct (p ch); [|reflexivity].
    rewrite IH. destruct (span p r); reflexivity.
Qed.

(** *** The placeholder pattern *)

Lemma digit_not_X (ch : ascii) : is_digit ch = true -> Ascii.eqb ch "X" = false.
Proof.
  intros H. destruct (Ascii.eqb_spec ch "X") as [->|]; [discriminate|reflexivity].
Qed.

Lemma X_not_digit : is_digit "X" = false.
Proof. reflexivity. Qed.

Lemma m_Lit (s : string) (x : mstate) (c : cont) :
  m (Lit s) x c =
  match strip (lit s) (rest x) with
  | Some r => c (MState (prev_after (prev x) (lit s)) r (caps x))
  | None => None
  end.
Proof. unfold Lit. apply m_lit. Qed.

Lemma exec_placeholder (pv : option ascii) (s : str) :
  exec_at re_placeholder pv s =
  match match_placeholder s with
  | Some (ds, r) => Some (length s - length r, [(1, ds)])
  | None => None
  end.
Proof.
  unfold exec_at, re_placeholder, match_placeholder.
  rewrite m_seqs_cons, m_Lit. cbn [rest prev caps].
  destruct (strip (lit "<p>~X") s) as [s1|]; [|reflexivity].
  rewrite m_seqs_cons. cbn [m]. unfold Plus. rewrite m_rep_chr. cbn [rest prev caps].
  rewrite greedy_chr_only.
  2:{ intros pv' ch t g Hd. cbn [seqs]. rewrite m_Lit. cbn [set_cap rest strip lit list_ascii_of_string].
      now rewrite (digit_not_X _ Hd). }
  pose proof (span_app is_digit s1) as Happ.
  destruct (span is_digit s1) as [ds s2]. cbn [fst snd] in *.
  destruct ds as [|d ds]; [reflexivity|].
  cbn [length Nat.leb]. cbn [seqs]. rewrite m_Lit. cbn [set_cap rest prev caps].
  destruct (strip (lit "X</p>") s2) as [s3|]; [|reflexivity].
  cbn [rest caps]. do 3 f_equal.
  rewrite <- Happ. rewrite length_app.
  replace (length (d :: ds) + length s2 - length s2) with (length (d :: ds)) by lia.
  now rewrite firstn_app, Nat.sub_diag, firstn_all, firstn_O, app_nil_r.
Qed.

Lemma match_placeholder_shape (s ds r : str) :
  match_placeholder s = Some (ds, r) ->
  s = lit "<p>~X" ++ ds ++ lit "X</p>" ++ r /\ ds <> [] /\ forallb is_digit ds = true.
Proof.
  unfold match_placeholder.
  destruct (strip (lit "<p>~X") s) as [s1|] eqn:E1; [|discriminate].
  pose proof (span_app is_digit s1) as Happ.
  pose proof (span_all is_digit s1) as Hall.
  destruct (span is_digit s1) as [ds' s2]. cbn [fst snd] in *.
  destruct ds' as [|d ds']; [discriminate|].
  destruct (strip (lit "X</p>") s2) as [s3|] eqn:E2; [|discriminate].
  intros [= <- <-].
  apply strip_length in E1, E2. subst s2. subst s1.
  split; [rewrite E1; reflexivity|]. split; [discriminate|assumption].
Qed.

Lemma match_placeholder_intro (ds r : str) :
  ds <> [] -> forallb is_digit ds = true ->
  match_placeholder (lit "<p>~X" ++ ds ++ lit "X</p>" ++ r) = Some (ds, r).
Proof.
  intros Hne Hd. unfold match_placeholder. rewrite strip_app.
  rewrite span_run; [|assumption|exact X_not_digit].
  destruct ds; [contradiction|]. now rewrite strip_app.
Qed.

(** A placeholder that follows does not change what the pattern finds
    at an earlier position. *)
Lemma match_placeholder_stable (u w : str) :
  u <> [] ->
  match_placeholder (u ++ lit "<p>~X" ++ w) =
  option_map (fun dr => (fst dr, snd dr ++ lit "<p>~X" ++ w)) (match_placeholder u).
Proof.
  intros Hu. unfold match_placeholder.
  rewrite strip_app_stable; [| |assumption].
  2:{ intros k Hk. simpl in Hk.
      destruct k as [|[|[|[|[|k]]]]]; try lia; reflexivity. }
  destruct (strip (lit "<p>~X") u) as [s1|]; [|reflexivity]. cbn [option_map].
  rewrite span_app_stop by reflexivity.
  destruct (span is_digit s1) as [ds s2]. cbn [fst snd].
  destruct ds as [|d ds]; [reflexivity|].
  destruct s2 as [|c s2]; [reflexivity|].
  rewrite strip_app_stable; [| |discriminate].
  2:{ intros k Hk. simpl in Hk.
      destruct k as [|[|[|[|[|k]]]]]; try lia; reflexivity. }
  destruct (strip (lit "X</p>") (c :: s2)); reflexivity.
Qed.

Lemma exec_placeholder_stable (pv : option ascii) (u w : str) :
  u <> [] ->
  exec_at re_placeholder pv (u ++ lit "<p>~X" ++ w) = exec_at re_placeholder pv u.
Proof.
  intros Hu. rewrite !exec_placeholder, match_placeholder_stable by assumption.
  destruct (match_placeholder u) as [[ds r]|] eqn:E; [|reflexivity].
  cbn [option_map fst snd]. do 2 f_equal.
  rewrite !length_app. lia.
Qed.

Lemma exec_placeholder_bounds (pv : option ascii) (u : str) (n : nat) (g : list (nat * str)) :
  exec_at re_placeholder pv u = Some (n, g) -> 0 < n <= length u.
Proof.
  rewrite exec_placeholder.
  destruct (match_placeholder u) as [[ds r]|] eqn:E; [|discriminate].
  intros H. injection H as Hn _.
  apply match_placeholder_shape in E. destruct E as [Es _].
  assert (length u = 10 + length ds + length r).
  { rewrite Es, !length_app. simpl. lia. }
  lia.
Qed.

Lemma exec_placeholder_pv (pv pv' : option ascii) (s : str) :
  exec_at re_placeholder pv s = exec_at re_placeholder pv' s.
Proof. now rewrite !exec_placeholder. Qed.

(** *** Scanning a text that is followed by another *)

Section ScanApp.
Variable r : re.
Variable w : str.
Hypothesis stable : forall pv u, u <> [] -> exec_at r pv (u ++ w) = exec_at r pv u.
Hypothesis bounds : forall pv u n g, exec_at r pv u = Some (n, g) -> 0 < n <= length u.

Lemma exec_nil_none (pv : option ascii) : exec_at r pv [] = None.
Proof.
  destruct (exec_at r pv []) as [[n g]|] eqn:E; [|reflexivity].
  apply bounds in E. simpl in E. lia.
Qed.

Lemma scan_app_stable_aux (n : nat) :
  forall t0 pv, length t0 <= n ->
    scan r pv (t0 ++ w) 0 = scan r pv t0 0 ++ scan r (prev_after pv t0) w 0.
Proof.
  induction n as [|n IH]; intros t0 pv Hn.
  - destruct t0; [|simpl in Hn; lia]. cbn [scan app prev_after].
    now rewrite exec_nil_none.
  - destruct t0 as [|ch t]; [cbn [scan app prev_after]; now rewrite exec_nil_none|].
    destruct (exec_at r pv (ch :: t)) as [[k g]|] eqn:E.
    + pose proof (bounds _ _ _ _ E) as Hk.
      rewrite (scan_match r pv ((ch :: t) ++ w) k g);
        [|rewrite stable by discriminate; exact E|lia|rewrite length_app; lia].
      rewrite (scan_match r pv (ch :: t) k g) by (assumption || lia).
      rewrite firstn_app, skipn_app.
      replace (k - length (ch :: t)) with 0 by lia.
      rewrite firstn_O, skipn_O, app_nil_r.
      rewrite IH by (rewrite length_skipn; simpl in *; lia).
      rewrite <- prev_after_app, firstn_skipn. reflexivity.
    + rewrite <- app_comm_cons.
      rewrite scan_nomatch
        by (rewrite app_comm_cons, stable by discriminate; exact E).
      rewrite scan_nomatch by exact E.
      rewrite IH by (simpl in Hn; lia).
      now rewrite prev_after_cons.
Qed.

Lemma scan_app_stable (t0 : str) (pv : option ascii) :
  scan r pv (t0 ++ w) 0 = scan r pv t0 0 ++ scan r (prev_after pv t0) w 0.
Proof. now apply (scan_app_stable_aux (length t0)). Qed.
End ScanApp.

(** A pattern that does not look behind scans the same after any character. *)
Lemma scan_pv (r : re) :
  (forall pv pv' s, exec_at r pv s = exec_at r pv' s) ->
  forall s pv pv' k, scan r pv s k = scan r pv' s k.
Proof.
  intros H. induction s as [|ch t IH]; intros pv pv' k.
  - simpl. destruct k; [|reflexivity]. now rewrite (H pv pv').
  - simpl. destruct k; [|reflexivity]. now rewrite (H pv pv').
Qed.

(** *** Numbers and their digits *)

Lemma to_uint_nonnil (n : nat) : Nat.to_uint n <> Nil.
Proof.
  rewrite <- (Unsigned.of_to n) at 1. rewrite Unsigned.to_of. apply unorm_nonnil.
Qed.

Lemma parseInt_toString (n : nat) : parseInt (toString n) = Some n.
Proof.
  unfold parseInt, toString, lit. rewrite string_of_list_ascii_of_string.
  rewrite NilZero.usu by apply to_uint_nonnil.
  simpl. now rewrite Unsigned.of_to.
Qed.

Lemma digits_of_uint (d : uint) :
  forallb is_digit (lit (NilEmpty.string_of_uint d)) = true.
Proof. induction d; simpl; auto. Qed.

Lemma toString_digits (n : nat) :
  toString n <> [] /\ forallb is_digit (toString n) = true.
Proof.
  unfold toString. pose proof (to_uint_nonnil n) as H.
  destruct (Nat.to_uint n) eqn:E; try contradiction;
    (split; [discriminate|]); apply (digits_of_uint (_ u)).
Qed.

(** *** Restoring the blocks *)

Lemma scan_placeholder (pv : option ascii) (ds t1 : str) :
  ds <> [] -> forallb is_digit ds = true ->
  scan re_placeholder pv (lit "<p>~X" ++ ds ++ lit "X</p>" ++ t1) 0 =
  TMatch (lit "<p>~X" ++ ds ++ lit "X</p>") [(1, ds)] :: scan re_placeholder None t1 0.
Proof.
  intros Hne Hd.
  pose proof (match_placeholder_intro ds t1 Hne Hd) as E.
  set (ph := lit "<p>~X" ++ ds ++ lit "X</p>").
  assert (Eph : lit "<p>~X" ++ ds ++ lit "X</p>" ++ t1 = ph ++ t1).
  { unfold ph. now rewrite <- !app_assoc. }
  rewrite Eph in *.
  rewrite (scan_match _ pv _ (length ph) [(1, ds)]).
  - rewrite firstn_app, Nat.sub_diag, firstn_all, firstn_O, app_nil_r.
    rewrite skipn_app, Nat.sub_diag, skipn_all, skipn_O. cbn [app]. f_equal.
    apply scan_pv. apply exec_placeholder_pv.
  - rewrite exec_placeholder, E. do 2 f_equal. rewrite length_app. lia.
  - unfold ph. rewrite length_app. simpl. lia.
  - rewrite length_app. lia.
Qed.

(** The law of restoration: a placeholder embedded anywhere is replaced
    by what the store holds at its index, and the text on either side is
    restored on its own. *)
Lemma unHash_embed_digits (e : Extra) (t0 ds t1 : str) :
  ds <> [] -> forallb is_digit ds = true ->
  unHashExtraBlocks e (t0 ++ lit "<p>~X" ++ ds ++ lit "X</p>" ++ t1) =
  unHashExtraBlocks e t0 ++ block_at (hashBlocks e) (parseInt ds)
  ++ unHashExtraBlocks e t1.
Proof.
  intros Hne Hd. unfold unHashExtraBlocks, gsub.
  rewrite (scan_app_stable re_placeholder (lit "<p>~X" ++ ds ++ lit "X</p>" ++ t1)).
  - rewrite flat_map_app. f_equal.
    rewrite scan_placeholder by assumption. reflexivity.
  - intros pv u Hu. now apply exec_placeholder_stable.
  - apply exec_placeholder_bounds.
Qed.

Lemma unHash_embed (e : Extra) (t0 : str) (k : nat) (t1 : str) :
  unHashExtraBlocks e (t0 ++ placeholder k ++ t1) =
  unHashExtraBlocks e t0 ++ block_at (hashBlocks e) (Some k) ++ unHashExtraBlocks e t1.
Proof.
  destruct (toString_digits k) as [Hne Hd].
  unfold placeholder. rewrite <- !app_assoc.
  rewrite unHash_embed_digits by assumption. now rewrite parseInt_toString.
Qed.

Lemma unHash_no_placeholder (e : Extra) (text : str) :
  test re_placeholder text = false -> unHashExtraBlocks e text = text.
Proof. apply gsub_no_match. Qed.

(** ** The hash-block store *)

Lemma set_hashBlocks_idem (e : Extra) (a b : list str) :
  set_hashBlocks (set_hashBlocks e a) b = set_hashBlocks e b.
Proof. reflexivity. Qed.

Lemma store_all_spec (blocks : list str) :
  forall e,
    store_all blocks e =
    (map placeholder (seq (length (hashBlocks e)) (length blocks)),
     set_hashBlocks e (hashBlocks e ++ blocks)).
Proof.
  induction blocks as [|b bs IH]; intros e.
  - simpl. rewrite app_nil_r. now destruct e.
  - cbn [store_all hashExtraBlock]. rewrite IH.
    cbn [set_hashBlocks hashBlocks length seq map].
    rewrite length_app. cbn [length].
    replace (length (hashBlocks e) + 1 - 1) with (length (hashBlocks e)) by lia.
    replace (length (hashBlocks e) + 1) with (S (length (hashBlocks e))) by lia.
    now rewrite <- app_assoc.
Qed.

Lemma block_at_in_range (bs : list str) (k : nat) :
  k < length bs -> block_at bs (Some k) = nth k bs [].
Proof.
  intros H. unfold block_at.
  destruct (nth_error bs k) as [b|] eqn:E.
  - symmetry. now apply nth_error_nth.
  - apply nth_error_None in E. lia.
Qed.

Lemma block_at_out_of_range (bs : list str) (k : nat) :
  length bs <= k -> block_at bs (Some k) = lit "undefined".
Proof.
  intros H. unfold block_at.
  now rewrite (proj2 (nth_error_None bs k) H).
Qed.

Lemma unHash_embedded (e : Extra) (l : list (str * nat)) (tl : str) :
  Forall (fun sk => snd sk < length (hashBlocks e)) l ->
  unHashExtraBlocks e (embed l tl) =
  embedded (unHashExtraBlocks e) (fun k => nth k (hashBlocks e) []) l tl.
Proof.
  induction 1 as [|[s k] l Hk Hl IH]; [reflexivity|].
  cbn [embed embedded]. rewrite unHash_embed, IH.
  now rewrite block_at_in_range.
Qed.

Lemma placeholder_must_tilde : must (eqc "~") re_placeholder = true.
Proof. vm_compute. reflexivity. Qed.

Lemma unHash_no_tilde (e : Extra) (s : str) :
  no_tilde s = true -> unHashExtraBlocks e s = s.
Proof.
  intros H. apply unHash_no_placeholder. unfold test.
  now rewrite (must_search (eqc "~") re_placeholder s placeholder_must_tilde H).
Qed.

Lemma embedded_no_tilde (e : Extra) (blocks : list str) (l : list (str * nat)) (tl : str) :
  Forall (fun sk => no_tilde (fst sk) = true) l -> no_tilde tl = true ->
  Forall (fun b => no_tilde b = true) blocks ->
  no_tilde (embedded (unHashExtraBlocks e) (fun k => nth k blocks []) l tl) = true.
Proof.
  intros Hl Htl Hb. induction Hl as [|[s k] l Hs Hl IH]; cbn [embedded].
  - now rewrite unHash_no_tilde.
  - cbn [fst] in Hs. rewrite unHash_no_tilde by assumption.
    unfold no_tilde in *. rewrite !forallb_app, Hs, IH. cbn [andb].
    rewrite andb_true_r.
    destruct (nth_in_or_default k blocks []) as [Hin|E].
    + rewrite Forall_forall in Hb. now apply Hb.
    + now rewrite E.
Qed.

(** C1, as the code has it.  In one session the [k]-th call of
    [hashExtraBlock] returns the placeholder of index [k] and the store
    then holds the blocks in order.  Whatever text surrounds the
    placeholders, [unHashExtraBlocks] puts the stored block in the place
    of each of them, verbatim, and restores the surrounding text on its
    own.  A text without placeholder is left as it is, so restoring twice
    is the same as restoring once whenever the restored text has no
    placeholder left in it, as when neither the blocks nor the
    surrounding text have a tilde in them.  [finishConversion] leaves the
    store empty. *)
Theorem restore_round_trip (e : Extra) (blocks : list str) :
  let session := store_all blocks (set_hashBlocks e []) in
  let e1 := snd session in
  fst session = map placeholder (seq 0 (length blocks)) /\
  hashBlocks e1 = blocks /\
  (forall l tl,
     Forall (fun sk => snd sk < length blocks) l ->
     unHashExtraBlocks e1 (embed l tl) =
     embedded (unHashExtraBlocks e1) (fun k => nth k blocks []) l tl) /\
  (forall text, test re_placeholder text = false ->
                unHashExtraBlocks e1 text = text) /\
  (forall text,
     test re_placeholder (unHashExtraBlocks e1 text) = false ->
     unHashExtraBlocks e1 (unHashExtraBlocks e1 text) = unHashExtraBlocks e1 text) /\
  (forall l tl,
     Forall (fun sk => snd sk < length blocks) l ->
     Forall (fun sk => no_tilde (fst sk) = true) l -> no_tilde tl = true ->
     Forall (fun b => no_tilde b = true) blocks ->
     unHashExtraBlocks e1 (embed l tl) =
       embedded (fun s => s) (fun k => nth k blocks []) l tl /\
     unHashExtraBlocks e1 (unHashExtraBlocks e1 (embed l tl)) =
       unHashExtraBlocks e1 (embed l tl)) /\
  (forall text, hashBlocks (snd (finishConversion text e1)) = []).
Proof.
  cbv zeta. rewrite store_all_spec. cbn [fst snd set_hashBlocks hashBlocks length app].
  split; [reflexivity|]. split; [reflexivity|].
  split; [|split; [|split; [|split]]].
  - intros l tl Hl. now rewrite unHash_embedded.
  - intros text. apply unHash_no_placeholder.
  - intros text. apply unHash_no_placeholder.
  - intros l tl Hr Hs Htl Hb. rewrite unHash_embedded by assumption. split.
    + clear Hr. induction Hs as [|[s k] l Hs Hl IH]; cbn [embedded].
      * now apply unHash_no_tilde.
      * cbn [fst] in Hs. rewrite unHash_no_tilde by assumption. now rewrite IH.
    + apply unHash_no_tilde. now apply embedded_no_tilde.
  - reflexivity.
Qed.

Lemma restore_round_trip_witness :
  let e1 := snd (store_all [lit "<b>x</b>"; lit "<i>y</i>"]
                           (set_hashBlocks (new_Extra para_host) [])) in
  unHashExtraBlocks e1 (embed [(lit "a ", 1); (lit " b ", 0)] (lit " c")) =
  lit "a <i>y</i> b <b>x</b> c"
  /\ unHashExtraBlocks e1 (lit "no placeholder") = lit "no placeholder"
  /\ unHashExtraBlocks e1 (unHashExtraBlocks e1 (placeholder 1)) =
     unHashExtraBlocks e1 (placeholder 1)
  /\ unHashExtraBlocks e1
       (unHashExtraBlocks e1 (embed [(lit "a ", 1); (lit " b ", 0)] (lit " c"))) =
     unHashExtraBlocks e1 (embed [(lit "a ", 1); (lit " b ", 0)] (lit " c")).
Proof.
  pose proof (restore_round_trip (new_Extra para_host) [lit "<b>x</b>"; lit "<i>y</i>"])
    as (_ & _ & H1 & H2 & H3 & H4 & _).
  cbv zeta in *. split; [|split; [|split]].
  - rewrite H1.
    + cbn [embedded]. rewrite !H2 by reflexivity. reflexivity.
    + repeat constructor.
  - apply H2. reflexivity.
  - apply H3. reflexivity.
  - apply H4; repeat constructor.
Defined.

(** Restoring twice is not always restoring once: a stored block may
    itself read as a placeholder. *)
Lemma restore_not_idempotent :
  let e1 := snd (store_all [lit "<p>~X1X</p>"; lit "z"]
                           (set_hashBlocks (new_Extra para_host) [])) in
  unHashExtraBlocks e1 (placeholder 0) = lit "<p>~X1X</p>" /\
  unHashExtraBlocks e1 (unHashExtraBlocks e1 (placeholder 0)) = lit "z" /\
  unHashExtraBlocks e1 (unHashExtraBlocks e1 (placeholder 0)) <>
  unHashExtraBlocks e1 (placeholder 0).
Proof. vm_compute. repeat split. discriminate. Qed.

(** C5, as the code has it.  A placeholder whose index has no element in
    the store is not left in the text: it becomes the text [undefined],
    and the rest of the text is restored as usual. *)
Theorem restore_out_of_range (e : Extra) (t0 ds t1 : str) :
  ds <> [] -> forallb is_digit ds = true ->
  (forall k, parseInt ds = Some k -> length (hashBlocks e) <= k) ->
  unHashExtraBlocks e (t0 ++ lit "<p>~X" ++ ds ++ lit "X</p>" ++ t1) =
  unHashExtraBlocks e t0 ++ lit "undefined" ++ unHashExtraBlocks e t1.
Proof.
  intros Hne Hd Hk. rewrite unHash_embed_digits by assumption.
  do 2 f_equal. destruct (parseInt ds) as [k|]; [|reflexivity].
  apply block_at_out_of_range. now apply Hk.
Qed.

Lemma restore_out_of_range_witness :
  unHashExtraBlocks (set_hashBlocks (new_Extra para_host) [lit "<b>x</b>"])
                    (lit "a " ++ lit "<p>~X" ++ lit "7" ++ lit "X</p>" ++ lit " b") =
  unHashExtraBlocks (set_hashBlocks (new_Extra para_host) [lit "<b>x</b>"]) (lit "a ")
  ++ lit "undefined"
  ++ unHashExtraBlocks (set_hashBlocks (new_Extra para_host) [lit "<b>x</b>"]) (lit " b").
Proof.
  apply restore_out_of_range.
  - discriminate.
  - reflexivity.
  - intros k H. vm_compute in H. injection H as <-. simpl. lia.
Defined.

(** With an empty store the placeholder of index 0 is not kept. *)
Lemma restore_out_of_range_not_literal :
  unHashExtraBlocks (new_Extra para_host) (lit "<p>~X0X</p>") = lit "undefined" /\
  unHashExtraBlocks (new_Extra para_host) (lit "<p>~X0X</p>") <> lit "<p>~X0X</p>".
Proof. vm_compute. split; [reflexivity|discriminate]. Qed.

(** ** The span renderer's filter *)

Lemma m_opt_chr (p : ascii -> bool) (x : mstate) :
  m (Opt (Chr p)) x Some =
  match rest x with
  | c :: t => if p c then Some (MState (Some c) t (caps x)) else Some x
  | [] => Some x
  end.
Proof.
  destruct x as [pv s g]. unfold Opt. cbn [m rest prev caps Nat.add].
  destruct s as [|c t]; [reflexivity|].
  cbn [length rep m rest prev caps Nat.ltb Nat.leb Nat.eqb andb option_map pred].
  destruct (p c); [|reflexivity].
  replace (length t =? S (length t)) with false
    by (symmetry; apply Nat.eqb_neq; lia).
  destruct (length t); reflexivity.
Qed.

Lemma nec_false (a ch : ascii) : nec a ch = false -> ch = a.
Proof.
  unfold nec. intros H. apply negb_false_iff in H. now apply Ascii.eqb_eq.
Qed.

Lemma exec_tag (pv : option ascii) (s : str) :
  exec_at re_tag pv s =
  match tag_at s with
  | Some (tag, r) => Some (length tag, [])
  | None => None
  end.
Proof.
  unfold exec_at, re_tag, tag_at. rewrite m_seqs_cons. cbn [m rest prev caps].
  destruct s as [|ch t]; [reflexivity|]. unfold eqc at 1.
  destruct (Ascii.eqb ch "<"); [|reflexivity].
  rewrite m_seqs_cons. unfold Star. rewrite m_rep_chr. cbn [rest prev caps seqs].
  pose proof (span_app (nec ">") t) as Happ.
  pose proof (span_stop (nec ">") t) as Hstop.
  destruct (span (nec ">") t) as [body r] eqn:Es. cbn [fst snd] in *.
  destruct r as [|c r'].
  - rewrite (greedy_chr_longest _ _ _ (MState (prev_after (Some ch) body) [] []));
      [|lia|rewrite Es; cbn [fst snd]; now rewrite m_opt_chr].
    cbn [rest caps length]. do 2 f_equal.
    rewrite app_nil_r in Happ. subst body. lia.
  - apply nec_false in Hstop. subst c.
    rewrite (greedy_chr_longest _ _ _ (MState (Some ">"%char) r' []));
      [|lia|rewrite Es; cbn [fst snd]; now rewrite m_opt_chr].
    cbn [rest caps length]. do 2 f_equal. rewrite <- Happ.
    rewrite !length_app. cbn [length]. lia.
Qed.

Lemma exec_tag_pv (pv pv' : option ascii) (s : str) :
  exec_at re_tag pv s = exec_at re_tag pv' s.
Proof. now rewrite !exec_tag. Qed.

(** Characters at which the pattern cannot start are copied. *)
Lemma scan_lits (r : re) (pre : str) :
  (forall ch t pv, In ch pre -> exec_at r pv (ch :: t) = None) ->
  forall pv s, scan r pv (pre ++ s) 0 = map TLit pre ++ scan r (prev_after pv pre) s 0.
Proof.
  induction pre as [|ch pre IH]; intros H pv s; [reflexivity|].
  rewrite <- app_comm_cons, scan_nomatch by (apply H; now left).
  rewrite IH by (intros; apply H; now right).
  now rewrite prev_after_cons.
Qed.

Lemma exec_tag_not_lt (pv : option ascii) (ch : ascii) (t : str) :
  nec "<" ch = true -> exec_at re_tag pv (ch :: t) = None.
Proof.
  intros H. rewrite exec_tag. unfold tag_at.
  unfold nec in H. apply negb_true_iff in H. now rewrite H.
Qed.

Lemma tag_at_closed (body rest : str) :
  forallb (nec ">") body = true ->
  tag_at (lit "<" ++ body ++ lit ">" ++ rest) = Some (lit "<" ++ body ++ lit ">", rest).
Proof.
  intros H. cbn [lit list_ascii_of_string app tag_at].
  cbn [Ascii.eqb Bool.eqb]. cbn iota.
  now rewrite span_run by (assumption || reflexivity).
Qed.

Lemma tag_at_open (body : str) :
  forallb (nec ">") body = true ->
  tag_at (lit "<" ++ body) = Some (lit "<" ++ body, []).
Proof.
  intros H. cbn [lit list_ascii_of_string app tag_at].
  cbn [Ascii.eqb Bool.eqb]. cbn iota.
  rewrite <- (app_nil_r body) at 1.
  now rewrite span_run by (assumption || exact I).
Qed.

Lemma scan_tag (pv : option ascii) (s tag r : str) :
  tag_at s = Some (tag, r) -> s = tag ++ r -> tag <> [] ->
  scan re_tag pv s 0 = TMatch tag [] :: scan re_tag None r 0.
Proof.
  intros Ht -> Hne.
  rewrite (scan_match _ pv _ (length tag) []).
  - rewrite firstn_app, Nat.sub_diag, firstn_all, firstn_O, app_nil_r.
    rewrite skipn_app, Nat.sub_diag, skipn_all, skipn_O. cbn [app]. f_equal.
    apply scan_pv. apply exec_tag_pv.
  - now rewrite exec_tag, Ht.
  - destruct tag; [contradiction|simpl; lia].
  - rewrite length_app. lia.
Qed.

Lemma inlineTags_must_close : must (eqc ">") inlineTags = true.
Proof. vm_compute. reflexivity. Qed.

(** A tag that is not closed is never on the whitelist. *)
Lemma inlineTags_open (body : str) :
  forallb (nec ">") body = true -> test inlineTags (lit "<" ++ body) = false.
Proof.
  intros H. unfold test.
  rewrite (must_search (eqc ">") inlineTags _ inlineTags_must_close); [reflexivity|].
  cbn [lit list_ascii_of_string app forallb]. exact H.
Qed.

Lemma sanitizeHtml_open (whitelist : re) (pre body : str) :
  forallb (nec "<") pre = true ->
  forallb (nec ">") body = true ->
  sanitizeHtml (pre ++ lit "<" ++ body) whitelist =
  pre ++ (if test whitelist (lit "<" ++ body) then lit "<" ++ body else []).
Proof.
  intros Hpre Hbody.
  unfold sanitizeHtml, gsub. rewrite scan_lits.
  2:{ intros ch t pv Hin. apply exec_tag_not_lt.
      rewrite forallb_forall in Hpre. now apply Hpre. }
  rewrite flat_map_app, flat_map_subst_lit. f_equal.
  rewrite (scan_tag _ _ (lit "<" ++ body) []);
    [|now apply tag_at_open|now rewrite app_nil_r|discriminate].
  cbn [scan flat_map subst]. rewrite exec_tag. cbn [tag_at].
  now rewrite !app_nil_r.
Qed.

Lemma sanitizeHtml_closed (whitelist : re) (pre body rest : str) :
  forallb (nec "<") pre = true ->
  forallb (nec ">") body = true ->
  sanitizeHtml (pre ++ lit "<" ++ body ++ lit ">" ++ rest) whitelist =
  pre
  ++ (if test whitelist (lit "<" ++ body ++ lit ">")
      then lit "<" ++ body ++ lit ">" else [])
  ++ sanitizeHtml rest whitelist.
Proof.
  intros Hpre Hbody.
  unfold sanitizeHtml, gsub. rewrite scan_lits.
  2:{ intros ch t pv Hin. apply exec_tag_not_lt.
      rewrite forallb_forall in Hpre. now apply Hpre. }
  rewrite flat_map_app, flat_map_subst_lit. f_equal.
  rewrite (scan_tag _ _ (lit "<" ++ body ++ lit ">") rest);
    [|now apply tag_at_closed|now rewrite <- !app_assoc|discriminate].
  reflexivity.
Qed.

(** C10.  The filter reads every [<] as the start of a tag that runs
    through the next [>].  Before the first [<] the text is copied; the
    tag is kept when it is on the whitelist and deleted otherwise, and
    the filter goes on after it.  A [<] with no [>] after it takes the
    rest of the text with it, and with [inlineTags] as whitelist all of
    that is deleted. *)
Theorem sanitizeHtml_tags (whitelist : re) (pre body rest : str) :
  forallb (nec "<") pre = true ->
  forallb (nec ">") body = true ->
  sanitizeHtml (pre ++ lit "<" ++ body ++ lit ">" ++ rest) whitelist =
    pre
    ++ (if test whitelist (lit "<" ++ body ++ lit ">")
        then lit "<" ++ body ++ lit ">" else [])
    ++ sanitizeHtml rest whitelist
  /\ sanitizeHtml (pre ++ lit "<" ++ body) whitelist =
    pre ++ (if test whitelist (lit "<" ++ body) then lit "<" ++ body else [])
  /\ sanitizeHtml (pre ++ lit "<" ++ body) inlineTags = pre.
Proof.
  intros Hpre Hbody. split; [|split].
  - now apply sanitizeHtml_closed.
  - now apply sanitizeHtml_open.
  - rewrite sanitizeHtml_open, inlineTags_open by assumption. apply app_nil_r.
Qed.

Lemma sanitizeHtml_tags_witness :
  sanitizeHtml (lit "a " ++ lit "<" ++ lit "div class=x" ++ lit ">" ++ lit "b<em>c</em>")
               inlineTags =
    lit "a " ++ sanitizeHtml (lit "b<em>c</em>") inlineTags
  /\ sanitizeHtml (lit "1 " ++ lit "<" ++ lit " 2 and more") inlineTags = lit "1 ".
Proof.
  destruct (sanitizeHtml_tags inlineTags (lit "a ") (lit "div class=x") (lit "b<em>c</em>"))
    as (H1 & _ & _); [reflexivity|reflexivity|].
  destruct (sanitizeHtml_tags inlineTags (lit "1 ") (lit " 2 and more") [])
    as (_ & _ & H3); [reflexivity|reflexivity|].
  split; [|exact H3].
  rewrite H1. reflexivity.
Defined.

(** ** Column alignment *)

Lemma decides_refuses (p : ascii -> bool) (c : cont) (K : str -> bool) :
  decides c K -> stops_on p K -> refuses p c.
Proof.
  intros Hd Hs pv ch t g Hp.
  specialize (Hd (MState pv (ch :: t) g)). cbn [rest] in Hd.
  rewrite (Hs ch t Hp) in Hd. now destruct (c _).
Qed.

Lemma decides_star (p : ascii -> bool) (c : cont) (K : str -> bool) :
  decides c K -> stops_on p K ->
  decides (fun y => m (Star (Chr p)) y c) (class_star p K).
Proof.
  intros Hd Hs y. unfold Star. rewrite m_rep_chr.
  rewrite greedy_chr_only by (eapply decides_refuses; eauto).
  cbn [Nat.leb]. rewrite Hd. reflexivity.
Qed.

Lemma decides_plus (p : ascii -> bool) (c : cont) (K : str -> bool) :
  decides c K -> stops_on p K ->
  decides (fun y => m (Plus (Chr p)) y c) (class_plus p K).
Proof.
  intros Hd Hs y. unfold Plus. rewrite m_rep_chr.
  rewrite greedy_chr_only by (eapply decides_refuses; eauto).
  unfold class_plus. destruct (1 <=? _); [|reflexivity].
  rewrite Hd. reflexivity.
Qed.

Lemma decides_chr (p : ascii -> bool) (c : cont) (K : str -> bool) :
  decides c K -> decides (fun y => m (Chr p) y c) (one_chr p K).
Proof.
  intros Hd y. cbn [m]. unfold one_chr.
  destruct (rest y) as [|ch t]; [reflexivity|].
  destruct (p ch); [|reflexivity]. now rewrite Hd.
Qed.

Lemma decides_eol : decides (fun y => m (Eol true) y Some) line_end.
Proof.
  intros y. cbn [m]. unfold at_eol, line_end.
  destruct (rest y) as [|ch t]; [reflexivity|].
  cbn [andb]. now destruct (is_line_terminator ch).
Qed.

Lemma decides_seq (a b : re) (c : cont) (K : str -> bool) :
  decides (fun y => m a y (fun z => m b z c)) K ->
  decides (fun y => m (Seq a b) y c) K.
Proof. intros H y. exact (H y). Qed.

Lemma stops_star (p q : ascii -> bool) (K : str -> bool) :
  (forall ch, p ch = true -> q ch = false) -> stops_on p K ->
  stops_on p (class_star q K).
Proof.
  intros Hpq Hs ch t Hp. unfold class_star. cbn [span].
  rewrite (Hpq ch Hp). cbn [snd]. now apply Hs.
Qed.

Lemma stops_plus (p q : ascii -> bool) (K : str -> bool) :
  (forall ch, p ch = true -> q ch = false) -> stops_on p (class_plus q K).
Proof.
  intros Hpq ch t Hp. unfold class_plus. cbn [span].
  now rewrite (Hpq ch Hp).
Qed.

Lemma stops_chr (p q : ascii -> bool) (K : str -> bool) :
  (forall ch, p ch = true -> q ch = false) -> stops_on p (one_chr q K).
Proof.
  intros Hpq ch t Hp. unfold one_chr. now rewrite (Hpq ch Hp).
Qed.

Lemma stops_line_end (p : ascii -> bool) :
  (forall ch, p ch = true -> is_line_terminator ch = false) -> stops_on p line_end.
Proof. intros H ch t Hp. now apply H. Qed.

Lemma eqc_disjoint (a b : ascii) :
  a <> b -> forall ch, eqc a ch = true -> eqc b ch = false.
Proof.
  intros Hab ch H. unfold eqc in *. apply Ascii.eqb_eq in H. subst ch.
  now apply Ascii.eqb_neq.
Qed.

Lemma eqc_not_lt (a : ascii) :
  is_line_terminator a = false ->
  forall ch, eqc a ch = true -> is_line_terminator ch = false.
Proof.
  intros Ha ch H. unfold eqc in H. apply Ascii.eqb_eq in H. now subst ch.
Qed.

Ltac decide_pattern :=
  repeat
    lazymatch goal with
    | |- decides (fun y => m (Seq _ _) y _) _ => apply decides_seq
    | |- decides (fun y => m (Star _) y _) _ => apply decides_star
    | |- decides (fun y => m (Plus _) y _) _ => apply decides_plus
    | |- decides (fun y => m (Chr _) y _) _ => apply decides_chr
    | |- decides (fun y => m (Eol _) y _) _ => apply decides_eol
    | |- stops_on _ (class_star _ _) => apply stops_star
    | |- stops_on _ (class_plus _ _) => apply stops_plus
    | |- stops_on _ (one_chr _ _) => apply stops_chr
    | |- stops_on _ line_end => apply stops_line_end
    | |- forall ch, eqc _ ch = true -> eqc _ ch = false =>
      apply eqc_disjoint; discriminate
    | |- forall ch, eqc _ ch = true -> is_line_terminator ch = false =>
      apply eqc_not_lt; reflexivity
    end.

Lemma decides_right :
  decides (fun y => m (seqs [Star sp; Plus dash; colon; Star sp; Eol true]) y Some) right_b.
Proof. unfold right_b, sp, dash, colon. cbn [seqs]. decide_pattern. Qed.

Lemma decides_center :
  decides (fun y => m (seqs [Star sp; colon; Plus dash; colon; Star sp; Eol true]) y Some)
          center_b.
Proof. unfold center_b, sp, dash, colon. cbn [seqs]. decide_pattern. Qed.

Lemma decides_left :
  decides (fun y => m (seqs [Star sp; colon; Plus dash; Star sp; Eol true]) y Some) left_b.
Proof. unfold left_b, sp, dash, colon. cbn [seqs]. decide_pattern. Qed.

(** With the [m] flag and no line terminator in the text, a pattern that
    starts with [^] can only match at the start. *)
Lemma search_after_char (r : re) (s : str) :
  forall ch, dot ch = true -> forallb dot s = true ->
  search (Seq (Bol true) r) (Some ch) s = None.
Proof.
  induction s as [|c s IH]; intros ch Hch Hs.
  - cbn [search]. unfold exec_at. cbn [m at_bol prev andb].
    unfold dot in Hch. apply negb_true_iff in Hch. now rewrite Hch.
  - cbn [search]. unfold exec_at. cbn [m at_bol prev andb].
    unfold dot in Hch. apply negb_true_iff in Hch. rewrite Hch.
    simpl in Hs. apply andb_true_iff in Hs. destruct Hs as [Hc Hs].
    now rewrite IH.
Qed.

Lemma test_line (r : re) (K : str -> bool) :
  decides (fun y => m r y Some) K ->
  forall t, forallb dot t = true -> test (Seq (Bol true) r) t = K t.
Proof.
  intros Hd t Ht. unfold test.
  pose proof (Hd (MState None t [])) as H0. cbn [rest] in H0.
  destruct t as [|c t].
  - cbn [search]. unfold exec_at. cbn [m at_bol prev].
    destruct (m r _ Some); cbn [is_some] in H0; now rewrite <- H0.
  - cbn [search]. unfold exec_at. cbn [m at_bol prev].
    destruct (m r _ Some); cbn [is_some] in H0; rewrite <- H0; [reflexivity|].
    simpl in Ht. apply andb_true_iff in Ht. destruct Ht as [Hc Ht].
    now rewrite search_after_char.
Qed.

Lemma test_line_true (r : re) (K : str -> bool) :
  decides (fun y => m r y Some) K ->
  forall t, K t = true -> test (Seq (Bol true) r) t = true.
Proof.
  intros Hd t Ht. unfold test.
  pose proof (Hd (MState None t [])) as H0. cbn [rest] in H0.
  rewrite Ht in H0.
  destruct t as [|c t]; cbn [search]; unfold exec_at; cbn [m at_bol prev];
    destruct (m r _ Some); try discriminate; reflexivity.
Qed.

(** *** The direct readers and the shapes *)

Lemma forallb_eqc_repeat (c : ascii) (a : str) :
  forallb (eqc c) a = true -> a = repeat c (length a).
Proof.
  induction a as [|ch a IH]; intros H; [reflexivity|].
  simpl in H. apply andb_true_iff in H. destruct H as [H1 H2].
  unfold eqc in H1. apply Ascii.eqb_eq in H1. subst ch.
  simpl. now rewrite <- IH.
Qed.

Lemma forallb_eqc_of_repeat (c : ascii) (n : nat) :
  forallb (eqc c) (repeat c n) = true.
Proof.
  induction n as [|n IH]; [reflexivity|].
  simpl. unfold eqc at 1. now rewrite Ascii.eqb_refl.
Qed.

Lemma class_star_run (p : ascii -> bool) (K : str -> bool) (a u : str) :
  forallb p a = true ->
  match u with ch :: _ => p ch = false | [] => True end ->
  class_star p K (a ++ u) = K u.
Proof. intros Ha Hu. unfold class_star. now rewrite span_run. Qed.

Lemma class_plus_run (p : ascii -> bool) (K : str -> bool) (a u : str) :
  forallb p a = true -> a <> [] ->
  match u with ch :: _ => p ch = false | [] => True end ->
  class_plus p K (a ++ u) = K u.
Proof.
  intros Ha Hne Hu. unfold class_plus. rewrite span_run by assumption.
  destruct a; [contradiction|reflexivity].
Qed.

Lemma class_star_inv (p : ascii -> bool) (K : str -> bool) (t : str) :
  class_star p K t = true ->
  exists a u, t = a ++ u /\ forallb p a = true /\ K u = true.
Proof.
  intros H. exists (fst (span p t)), (snd (span p t)).
  split; [symmetry; apply span_app|]. split; [apply span_all|exact H].
Qed.

Lemma class_plus_inv (p : ascii -> bool) (K : str -> bool) (t : str) :
  class_plus p K t = true ->
  exists a u, t = a ++ u /\ forallb p a = true /\ a <> [] /\ K u = true.
Proof.
  intros H. unfold class_plus in H. apply andb_true_iff in H. destruct H as [H1 H2].
  exists (fst (span p t)), (snd (span p t)).
  split; [symmetry; apply span_app|]. split; [apply span_all|]. split; [|exact H2].
  destruct (fst (span p t)); [discriminate|discriminate].
Qed.

Lemma one_chr_inv (c : ascii) (K : str -> bool) (t : str) :
  one_chr (eqc c) K t = true -> exists u, t = c :: u /\ K u = true.
Proof.
  destruct t as [|ch t]; [discriminate|]. cbn [one_chr]. intros H.
  apply andb_true_iff in H. destruct H as [H1 H2].
  unfold eqc in H1. apply Ascii.eqb_eq in H1. subst ch. eauto.
Qed.

Lemma line_end_inv (t : str) :
  line_end t = true -> forallb dot t = true -> t = [].
Proof.
  destruct t as [|c t]; [reflexivity|]. cbn [line_end forallb]. intros H1 H2.
  apply andb_true_iff in H2. destruct H2 as [H2 _].
  unfold dot in H2. rewrite H1 in H2. discriminate.
Qed.

Lemma forallb_dot_app (a b : str) :
  forallb dot (a ++ b) = true -> forallb dot a = true /\ forallb dot b = true.
Proof. rewrite forallb_app. apply andb_true_iff. Qed.

Lemma repeat_nonempty (c : ascii) (a : str) :
  a <> [] -> exists n, repeat c (length a) = repeat c (S n).
Proof. destruct a as [|ch a]; [contradiction|]. intros _. now exists (length a). Qed.

Lemma trailing_spaces (t : str) :
  forallb dot t = true -> class_star (eqc SP) line_end t = true ->
  t = repeat SP (length t).
Proof.
  intros Hdot H. apply class_star_inv in H. destruct H as (b & u & -> & Hb & Hu).
  apply forallb_dot_app in Hdot. destruct Hdot as [_ Hdot].
  apply line_end_inv in Hu; [|assumption]. subst u.
  rewrite app_nil_r. now apply forallb_eqc_repeat.
Qed.

Lemma trailing_spaces_ok (b : nat) : class_star (eqc SP) line_end (repeat SP b) = true.
Proof.
  rewrite <- (app_nil_r (repeat SP b)).
  rewrite class_star_run; [reflexivity|apply forallb_eqc_of_repeat|exact I].
Qed.

Lemma right_b_shape (t : str) :
  forallb dot t = true -> right_b t = true -> shape_right t.
Proof.
  intros Hdot H. unfold right_b in H.
  apply class_star_inv in H. destruct H as (a & u1 & -> & Ha & H).
  apply class_plus_inv in H. destruct H as (d & u2 & -> & Hd & Hne & H).
  apply one_chr_inv in H. destruct H as (u3 & -> & H).
  apply forallb_dot_app in Hdot. destruct Hdot as [_ Hdot].
  apply forallb_dot_app in Hdot. destruct Hdot as [_ Hdot].
  simpl in Hdot. apply trailing_spaces in H; [|assumption].
  destruct (repeat_nonempty "-" d Hne) as [n Hn].
  exists (length a), n, (length u3).
  rewrite <- Hn, <- H. now rewrite <- (forallb_eqc_repeat SP a), <- (forallb_eqc_repeat "-" d).
Qed.

Lemma shape_right_b (t : str) : shape_right t -> right_b t = true.
Proof.
  intros (a & n & b & ->). unfold right_b.
  rewrite class_star_run; [|apply forallb_eqc_of_repeat|reflexivity].
  rewrite class_plus_run; [|apply forallb_eqc_of_repeat|discriminate|reflexivity].
  cbn [one_chr eqc Ascii.eqb Bool.eqb andb]. apply trailing_spaces_ok.
Qed.

Lemma center_b_shape (t : str) :
  forallb dot t = true -> center_b t = true -> shape_center t.
Proof.
  intros Hdot H. unfold center_b in H.
  apply class_star_inv in H. destruct H as (a & u1 & -> & Ha & H).
  apply one_chr_inv in H. destruct H as (u2 & -> & H).
  apply class_plus_inv in H. destruct H as (d & u3 & -> & Hd & Hne & H).
  apply one_chr_inv in H. destruct H as (u4 & -> & H).
  apply forallb_dot_app in Hdot. destruct Hdot as [_ Hdot].
  simpl in Hdot. apply forallb_dot_app in Hdot. destruct Hdot as [_ Hdot].
  simpl in Hdot. apply trailing_spaces in H; [|assumption].
  destruct (repeat_nonempty "-" d Hne) as [n Hn].
  exists (length a), n, (length u4).
  rewrite <- Hn, <- H. now rewrite <- (forallb_eqc_repeat SP a), <- (forallb_eqc_repeat "-" d).
Qed.

Lemma shape_center_b (t : str) : shape_center t -> center_b t = true.
Proof.
  intros (a & n & b & ->). unfold center_b.
  rewrite class_star_run; [|apply forallb_eqc_of_repeat|reflexivity].
  cbn [one_chr eqc Ascii.eqb Bool.eqb andb].
  rewrite class_plus_run; [|apply forallb_eqc_of_repeat|discriminate|reflexivity].
  cbn [one_chr eqc Ascii.eqb Bool.eqb andb]. apply trailing_spaces_ok.
Qed.

Lemma left_b_shape (t : str) :
  forallb dot t = true -> left_b t = true -> shape_left t.
Proof.
  intros Hdot H. unfold left_b in H.
  apply class_star_inv in H. destruct H as (a & u1 & -> & Ha & H).
  apply one_chr_inv in H. destruct H as (u2 & -> & H).
  apply class_plus_inv in H. destruct H as (d & u3 & -> & Hd & Hne & H).
  apply forallb_dot_app in Hdot. destruct Hdot as [_ Hdot].
  simpl in Hdot. apply forallb_dot_app in Hdot. destruct Hdot as [_ Hdot].
  apply trailing_spaces in H; [|assumption].
  destruct (repeat_nonempty "-" d Hne) as [n Hn].
  exists (length a), n, (length u3).
  rewrite <- Hn, <- H. now rewrite <- (forallb_eqc_repeat SP a), <- (forallb_eqc_repeat "-" d).
Qed.

Lemma shape_left_b (t : str) : shape_left t -> left_b t = true.
Proof.
  intros (a & n & b & ->). unfold left_b.
  rewrite class_star_run; [|apply forallb_eqc_of_repeat|reflexivity].
  cbn [one_chr eqc Ascii.eqb Bool.eqb andb].
  rewrite class_plus_run; [apply trailing_spaces_ok|apply forallb_eqc_of_repeat|discriminate|].
  destruct b; [exact I|reflexivity].
Qed.

Lemma forallb_repeat (p : ascii -> bool) (c : ascii) (n : nat) :
  p c = true -> forallb p (repeat c n) = true.
Proof. intros H. induction n as [|n IH]; simpl; [reflexivity|]. now rewrite H. Qed.

Ltac one_line :=
  repeat first
    [ rewrite forallb_app | rewrite forallb_repeat by reflexivity
    | progress cbn [forallb andb] ];
  try reflexivity.

Lemma shape_right_line (t : str) : shape_right t -> forallb dot t = true.
Proof. intros (a & n & b & ->). one_line. Qed.

Lemma shape_center_line (t : str) : shape_center t -> forallb dot t = true.
Proof. intros (a & n & b & ->). one_line. Qed.

Lemma shape_left_line (t : str) : shape_left t -> forallb dot t = true.
Proof. intros (a & n & b & ->). one_line. Qed.

Lemma class_plus_head (c : ascii) (K : str -> bool) (u : str) :
  class_plus (eqc c) K u = true -> exists u', u = c :: u'.
Proof.
  intros H. apply class_plus_inv in H. destruct H as (a & v & -> & Ha & Hne & _).
  destruct a as [|ch a]; [contradiction|].
  simpl in Ha. apply andb_true_iff in Ha. destruct Ha as [Ha _].
  unfold eqc in Ha. apply Ascii.eqb_eq in Ha. subst ch. simpl. eauto.
Qed.

Lemma right_not_center (t : str) : right_b t = true -> center_b t = false.
Proof.
  unfold right_b, center_b, class_star. intros H.
  apply class_plus_head in H. destruct H as [u' ->]. reflexivity.
Qed.

Lemma right_not_left (t : str) : right_b t = true -> left_b t = false.
Proof.
  unfold right_b, left_b, class_star. intros H.
  apply class_plus_head in H. destruct H as [u' ->]. reflexivity.
Qed.

Lemma center_not_left (t : str) : center_b t = true -> left_b t = false.
Proof.
  unfold center_b, left_b, class_star at 1 3. intros H.
  destruct (snd (span (eqc SP) t)) as [|c u]; [discriminate|].
  cbn [one_chr] in *. destruct (eqc ":" c); [|reflexivity]. cbn [andb] in *.
  unfold class_plus in *. destruct (1 <=? _); [|reflexivity]. cbn [andb] in *.
  apply one_chr_inv in H. destruct H as (v & -> & _). reflexivity.
Qed.

Lemma test_right (t : str) : forallb dot t = true -> test re_right t = right_b t.
Proof. apply (test_line _ _ decides_right). Qed.

Lemma test_center (t : str) : forallb dot t = true -> test re_center t = center_b t.
Proof. apply (test_line _ _ decides_center). Qed.

Lemma test_left (t : str) : forallb dot t = true -> test re_left t = left_b t.
Proof. apply (test_line _ _ decides_left). Qed.

(** [align_of], read off the three direct readers. *)
Lemma align_of_line (t : str) :
  forallb dot t = true ->
  align_of t =
  if right_b t then style "right"
  else if center_b t then style "center"
  else if left_b t then style "left"
  else [].
Proof.
  intros H. unfold align_of. now rewrite test_right, test_center, test_left.
Qed.

Lemma not_true_false (b : bool) : b <> true -> b = false.
Proof. now destruct b. Qed.

(** *** The tokens of a separator *)

Lemma search_parts (r : re) (s : str) :
  forall pv f, search r pv s = Some f -> s = f_pre f ++ f_whole f ++ f_post f.
Proof.
  induction s as [|ch t IH]; intros pv f H; cbn [search] in H.
  - destruct (exec_at r pv []) as [[n g]|]; [|discriminate].
    injection H as <-. cbn [f_pre f_whole f_post app].
    now rewrite firstn_skipn.
  - destruct (exec_at r pv (ch :: t)) as [[n g]|].
    + injection H as <-. cbn [f_pre f_whole f_post app].
      now rewrite firstn_skipn.
    + destruct (search r (Some ch) t) as [f'|] eqn:E; [|discriminate].
      injection H as <-. cbn [f_pre f_whole f_post].
      rewrite (IH _ _ E) at 1. reflexivity.
Qed.

Lemma sub_first_chars (r : re) (s : str) (ch : ascii) :
  In ch (sub_first r (const_str []) s) -> In ch s.
Proof.
  unfold sub_first. destruct (search r None s) as [f|] eqn:E; [|trivial].
  rewrite (search_parts _ _ _ _ E). unfold const_str. cbn [app].
  rewrite !in_app_iff. tauto.
Qed.

Lemma split_go_chars (r : re) (s : str) :
  forall pv skip piece t ch,
    In t (split_go r pv s skip piece) -> In ch t -> In ch piece \/ In ch s.
Proof.
  induction s as [|c s IH]; intros pv skip piece t ch Ht Hch; cbn [split_go] in Ht.
  - destruct Ht as [<-|[]]. left. now apply in_rev.
  - destruct skip as [|k].
    + destruct (exec_at r pv (c :: s)) as [[[|n] g]|].
      * destruct piece as [|p piece].
        -- destruct (IH _ _ _ _ _ Ht Hch) as [[<-|[]]|H]; right; [now left|now right].
        -- destruct Ht as [<-|Ht]; [left; now apply in_rev|].
           destruct (IH _ _ _ _ _ Ht Hch) as [[<-|[]]|H]; right; [now left|now right].
      * destruct Ht as [<-|Ht]; [left; now apply in_rev|].
        destruct (IH _ _ _ _ _ Ht Hch) as [[]|H]. right. now right.
      * destruct (IH _ _ _ _ _ Ht Hch) as [[<-|H]|H]; [right; now left|now left|].
        right. now right.
    + destruct (IH _ _ _ _ _ Ht Hch) as [H|H]; [now left|right; now right].
Qed.

Lemma split_re_chars (r : re) (s t : str) (ch : ascii) :
  In t (split_re r s) -> In ch t -> In ch s.
Proof.
  unfold split_re. destruct s as [|c s].
  - destruct (exec_at r None []); [intros []|]. intros [<-|[]] [].
  - intros Ht Hch. destruct (split_go_chars _ _ _ _ _ _ _ Ht Hch) as [[]|H]. exact H.
Qed.

(** The tokens [doTable] classifies are pieces of the separator, which
    the table grammars make of dashes, colons, pipes and spaces. *)
Lemma separator_tokens (separator t : str) :
  forallb is_sep_char separator = true ->
  In t (split_re re_cell_sep (strip_header separator)) ->
  forallb dot t = true.
Proof.
  intros Hs Ht. rewrite forallb_forall in *. intros ch Hch.
  assert (Hin : In ch separator).
  { apply (sub_first_chars re_lead_pipe), (sub_first_chars re_trail_pipe).
    exact (split_re_chars _ _ _ _ Ht Hch). }
  specialize (Hs ch Hin). unfold is_sep_char, one_of in Hs. cbn [existsb] in Hs.
  repeat (apply orb_true_iff in Hs; destruct Hs as [Hs|Hs];
          [apply Ascii.eqb_eq in Hs; subst ch; reflexivity|]).
  discriminate Hs.
Qed.

(** The four results of the classification, as [align_of] writes them. *)
Lemma align_of_cases (t : str) :
  align_of t = style "right" \/ align_of t = style "center" \/
  align_of t = style "left" \/ align_of t = [].
Proof.
  unfold align_of.
  destruct (test re_right t); [now left|].
  destruct (test re_center t); [right; now left|].
  destruct (test re_left t); [right; right; now left|].
  now repeat right.
Qed.

(** C4.  The classification is a function of the token alone and always
    gives one of four results: the attribute text
    [ style="text-align:right;"], the same with [center], the same with
    [left], or the empty text; the four are different texts.  A token of
    dashes followed by a colon gets the first, one of dashes between two
    colons the second, one of a colon followed by dashes the third,
    spaces around the token allowed; no token has two of these shapes,
    and a token of a separator (any token of one line) with none of
    them, such as plain dashes, gets the empty text.  On a token of one
    line the result tells the shape: each attribute is given to the
    tokens of its shape only. *)
Theorem align_of_spec (t : str) :
  let right := lit " style=" ++ DQ :: lit "text-align:right;" ++ [DQ] in
  let center := lit " style=" ++ DQ :: lit "text-align:center;" ++ [DQ] in
  let left := lit " style=" ++ DQ :: lit "text-align:left;" ++ [DQ] in
  (shape_right t -> align_of t = right) /\
  (shape_center t -> align_of t = center) /\
  (shape_left t -> align_of t = left) /\
  (forallb dot t = true ->
   ~ shape_right t -> ~ shape_center t -> ~ shape_left t -> align_of t = []) /\
  (forall separator,
     forallb is_sep_char separator = true ->
     In t (split_re re_cell_sep (strip_header separator)) ->
     ~ shape_right t -> ~ shape_center t -> ~ shape_left t -> align_of t = []) /\
  (forall n, t = repeat "-"%char (S n) -> align_of t = []) /\
  ~ (shape_right t /\ shape_center t) /\
  ~ (shape_right t /\ shape_left t) /\
  ~ (shape_center t /\ shape_left t) /\
  (align_of t = right \/ align_of t = center \/ align_of t = left \/ align_of t = []) /\
  (right <> center /\ right <> left /\ center <> left /\
   right <> [] /\ center <> [] /\ left <> []) /\
  (forallb dot t = true ->
   (align_of t = right <-> shape_right t) /\
   (align_of t = center <-> shape_center t) /\
   (align_of t = left <-> shape_left t) /\
   (align_of t = [] <-> ~ shape_right t /\ ~ shape_center t /\ ~ shape_left t)).
Proof.
  intros right center left.
  assert (Er : style "right" = right) by reflexivity.
  assert (Ec : style "center" = center) by reflexivity.
  assert (El : style "left" = left) by reflexivity.
  assert (Hnone : forallb dot t = true ->
                  ~ shape_right t -> ~ shape_center t -> ~ shape_left t ->
                  align_of t = []).
  { intros Hl Hr Hc Hf. rewrite align_of_line by assumption.
    rewrite (not_true_false (right_b t)) by (intro; apply Hr; now apply right_b_shape).
    rewrite (not_true_false (center_b t)) by (intro; apply Hc; now apply center_b_shape).
    rewrite (not_true_false (left_b t)) by (intro; apply Hf; now apply left_b_shape).
    reflexivity. }
  assert (Hright : shape_right t -> align_of t = right).
  { intros H. rewrite align_of_line by now apply shape_right_line.
    now rewrite (shape_right_b t H). }
  assert (Hcenter : shape_center t -> align_of t = center).
  { intros H. rewrite align_of_line by now apply shape_center_line.
    pose proof (shape_center_b t H) as Hc. rewrite Hc.
    destruct (right_b t) eqn:Hr; [|exact Ec].
    apply right_not_center in Hr. congruence. }
  assert (Hleft : shape_left t -> align_of t = left).
  { intros H. rewrite align_of_line by now apply shape_left_line.
    pose proof (shape_left_b t H) as Hf. rewrite Hf.
    destruct (right_b t) eqn:Hr; [apply right_not_left in Hr; congruence|].
    destruct (center_b t) eqn:Hc; [apply center_not_left in Hc; congruence|].
    exact El. }
  assert (Hrc : ~ (shape_right t /\ shape_center t)).
  { intros [Hr Hc]. apply shape_right_b in Hr. apply shape_center_b in Hc.
    apply right_not_center in Hr. congruence. }
  assert (Hrl : ~ (shape_right t /\ shape_left t)).
  { intros [Hr Hf]. apply shape_right_b in Hr. apply shape_left_b in Hf.
    apply right_not_left in Hr. congruence. }
  assert (Hcl : ~ (shape_center t /\ shape_left t)).
  { intros [Hc Hf]. apply shape_center_b in Hc. apply shape_left_b in Hf.
    apply center_not_left in Hc. congruence. }
  assert (Hd : right <> center /\ right <> left /\ center <> left /\
               right <> [] /\ center <> [] /\ left <> [])
    by (repeat split; discriminate).
  destruct Hd as (Drc & Drl & Dcl & Dr & Dc & Dl).
  repeat match goal with |- _ /\ _ => split end;
    try assumption.
  - intros separator Hs Ht. apply Hnone. exact (separator_tokens _ _ Hs Ht).
  - intros n ->. rewrite align_of_line by now apply forallb_repeat.
    assert (E : snd (span (eqc SP) (repeat "-"%char (S n))) = repeat "-"%char (S n))
      by reflexivity.
    assert (Erb : right_b (repeat "-"%char (S n)) = false).
    { unfold right_b, class_star. rewrite E. unfold class_plus.
      rewrite <- (app_nil_r (repeat "-"%char (S n))).
      rewrite span_run by (apply forallb_eqc_of_repeat || exact I).
      cbn [fst snd one_chr]. apply andb_false_r. }
    rewrite Erb. unfold center_b, left_b, class_star. rewrite E. reflexivity.
  - rewrite <- Er, <- Ec, <- El. apply align_of_cases.
  - intros Hl.
    assert (Hsh : shape_right t \/ shape_center t \/ shape_left t \/
                  (~ shape_right t /\ ~ shape_center t /\ ~ shape_left t)).
    { destruct (right_b t) eqn:Hr; [left; now apply right_b_shape|].
      destruct (center_b t) eqn:Hc; [right; left; now apply center_b_shape|].
      destruct (left_b t) eqn:Hf; [right; right; left; now apply left_b_shape|].
      repeat right. repeat split; intros H;
        [apply shape_right_b in H|apply shape_center_b in H|apply shape_left_b in H];
        congruence. }
    repeat split; try assumption.
    + intros H. destruct Hsh as [Hs|[Hs|[Hs|(N1 & N2 & N3)]]]; [assumption| | |];
        [rewrite (Hcenter Hs) in H|rewrite (Hleft Hs) in H
        |rewrite (Hnone Hl N1 N2 N3) in H]; congruence.
    + intros H. destruct Hsh as [Hs|[Hs|[Hs|(N1 & N2 & N3)]]]; [|assumption| |];
        [rewrite (Hright Hs) in H|rewrite (Hleft Hs) in H
        |rewrite (Hnone Hl N1 N2 N3) in H]; congruence.
    + intros H. destruct Hsh as [Hs|[Hs|[Hs|(N1 & N2 & N3)]]]; [| |assumption|];
        [rewrite (Hright Hs) in H|rewrite (Hcenter Hs) in H
        |rewrite (Hnone Hl N1 N2 N3) in H]; congruence.
    + intros Hs. rewrite (Hright Hs) in H. congruence.
    + intros Hs. rewrite (Hcenter Hs) in H. congruence.
    + intros Hs. rewrite (Hleft Hs) in H. congruence.
    + intros (N1 & N2 & N3). now apply Hnone.
Qed.

Lemma align_of_spec_witness :
  align_of (lit " ---: ") = lit " style=" ++ DQ :: lit "text-align:right;" ++ [DQ] /\
  align_of (lit ":-:") = lit " style=" ++ DQ :: lit "text-align:center;" ++ [DQ] /\
  align_of (lit ":--") = lit " style=" ++ DQ :: lit "text-align:left;" ++ [DQ] /\
  align_of (lit "- -") = [] /\
  align_of (lit "---") = [] /\
  shape_left (lit " :- ").
Proof.
  split; [|split; [|split; [|split; [|split]]]].
  - pose proof (align_of_spec (lit " ---: ")) as H. cbv zeta in H.
    destruct H as (H & _). apply H. now exists 1, 2, 1.
  - pose proof (align_of_spec (lit ":-:")) as H. cbv zeta in H.
    destruct H as (_ & H & _). apply H. now exists 0, 0, 0.
  - pose proof (align_of_spec (lit ":--")) as H. cbv zeta in H.
    destruct H as (_ & _ & H & _). apply H. now exists 0, 1, 0.
  - pose proof (align_of_spec (lit "- -")) as H. cbv zeta in H.
    destruct H as (_ & _ & _ & H & _). apply H; [reflexivity| | |].
    + intros (a & n & b & E).
      destruct a as [|a]; [destruct n as [|n]|]; simpl in E; discriminate E.
    + intros (a & n & b & E). destruct a as [|a]; simpl in E; discriminate E.
    + intros (a & n & b & E). destruct a as [|a]; simpl in E; discriminate E.
  - pose proof (align_of_spec (lit "---")) as H. cbv zeta in H.
    destruct H as (_ & _ & _ & _ & _ & H & _). now apply (H 2).
  - pose proof (align_of_spec (lit " :- ")) as H. cbv zeta in H.
    destruct H as (_ & _ & _ & _ & _ & _ & _ & _ & _ & _ & _ & H).
    apply (H eq_refl). reflexivity.
Defined.

(** ** Tables *)

Lemma length_split_go (r : re) (s : str) :
  forall pv skip piece, 1 <= length (split_go r pv s skip piece).
Proof.
  induction s as [|ch t IH]; intros pv skip piece; cbn [split_go].
  - simpl. lia.
  - destruct skip as [|k]; [|apply IH].
    destruct (exec_at r pv (ch :: t)) as [[[|n] g]|].
    + destruct piece; [apply IH|simpl; lia].
    + simpl. lia.
    + apply IH.
Qed.

Lemma cell_sep_must_pipe : must (eqc "|") re_cell_sep = true.
Proof. vm_compute. reflexivity. Qed.

Lemma length_split_cells (s : str) : 1 <= length (split_re re_cell_sep s).
Proof.
  unfold split_re. destruct s as [|ch t].
  - rewrite (must_exec (eqc "|") _ None [] cell_sep_must_pipe) by reflexivity.
    simpl. lia.
  - apply length_split_go.
Qed.

(** A text without pipe is one cell. *)
Lemma split_go_no_sep (r : re) (P : ascii -> bool) (s : str) :
  must P r = true -> forallb (fun ch => negb (P ch)) s = true ->
  forall pv piece, split_go r pv s 0 piece = [rev piece ++ s].
Proof.
  intros Hm. induction s as [|ch t IH]; intros Hs pv piece; cbn [split_go].
  - now rewrite app_nil_r.
  - rewrite (must_exec P r pv (ch :: t) Hm Hs).
    simpl in Hs. apply andb_true_iff in Hs. destruct Hs as [_ Hs].
    rewrite IH by assumption. simpl. now rewrite <- app_assoc.
Qed.

Lemma split_cells_no_pipe (s : str) :
  forallb (nec "|") s = true -> split_re re_cell_sep s = [s].
Proof.
  intros H. unfold split_re. destruct s as [|ch t].
  - now rewrite (must_exec (eqc "|") _ None [] cell_sep_must_pipe).
  - now rewrite (split_go_no_sep _ (eqc "|") _ cell_sep_must_pipe).
Qed.

Lemma row_cells_spec (N : nat) (row : str) :
  row_cells N row =
  firstn N (split_re re_cell_sep row
            ++ repeat [] (N - length (split_re re_cell_sep row))).
Proof.
  unfold row_cells.
  set (cells := split_re re_cell_sep row ++ repeat [] (N - length (split_re re_cell_sep row))).
  assert (Hlen : N <= length cells).
  { unfold cells. rewrite length_app, repeat_length. lia. }
  clearbody cells. revert cells Hlen.
  induction N as [|N IH]; intros cells Hlen; [reflexivity|].
  destruct cells as [|c cells]; [simpl in Hlen; lia|].
  cbn [seq map nth firstn]. f_equal.
  rewrite <- seq_shift, map_map. cbn [nth].
  apply IH. simpl in Hlen. lia.
Qed.

Lemma length_row_cells (N : nat) (row : str) : length (row_cells N row) = N.
Proof. unfold row_cells. now rewrite length_map, length_seq. Qed.

Lemma length_td_cells (e : Extra) (align : list str) (N : nat) (row : str) :
  length (td_cells e align N row) = N.
Proof.
  unfold td_cells. rewrite length_map, length_combine, length_seq, length_row_cells.
  apply Nat.min_id.
Qed.

Lemma length_th_cells (e : Extra) (align headers : list str) :
  length (th_cells e align headers) = length headers.
Proof.
  unfold th_cells. rewrite length_map, length_combine, length_seq.
  apply Nat.min_id.
Qed.

Lemma nth_map_in (A B : Type) (f : A -> B) (l : list A) (j : nat) (d : A) (d' : B) :
  j < length l -> nth j (map f l) d' = f (nth j l d).
Proof.
  intros H. rewrite (nth_indep _ d' (f d)) by now rewrite length_map.
  apply map_nth.
Qed.

Lemma nth_map_combine_seq (f : nat -> str -> str) (l : list str) :
  forall j start, j < length l ->
    nth j (map (fun jc => f (fst jc) (snd jc)) (combine (seq start (length l)) l)) [] =
    f (start + j) (nth j l []).
Proof.
  induction l as [|c l IH]; intros j start H; [simpl in H; lia|].
  destruct j as [|j]; cbn [length seq combine map nth fst snd].
  - now rewrite Nat.add_0_r.
  - rewrite IH by (simpl in H; lia). f_equal. lia.
Qed.

Lemma nth_row_cells (N : nat) (row : str) (j : nat) :
  j < N -> nth j (row_cells N row) [] = nth j (split_re re_cell_sep row) [].
Proof.
  intros H. unfold row_cells.
  rewrite (nth_map_in _ _ _ _ _ 0) by now rewrite length_seq.
  rewrite seq_nth by assumption. cbn [Nat.add].
  destruct (Nat.lt_ge_cases j (length (split_re re_cell_sep row))) as [Hj|Hj].
  - now rewrite app_nth1.
  - rewrite app_nth2 by assumption.
    rewrite (nth_overflow (split_re _ _)) by assumption.
    apply nth_repeat.
Qed.

Lemma nth_td_cells (e : Extra) (align : list str) (N : nat) (row : str) (j : nat) :
  j < N ->
  nth j (td_cells e align N row) [] =
  td_cell e align j (nth j (split_re re_cell_sep row) []).
Proof.
  intros H. unfold td_cells.
  pose proof (nth_map_combine_seq (td_cell e align) (row_cells N row) j 0) as E.
  rewrite length_row_cells in E. rewrite E by assumption.
  now rewrite nth_row_cells.
Qed.

Lemma nth_th_cells (e : Extra) (align headers : list str) (i : nat) :
  i < length headers ->
  nth i (th_cells e align headers) [] = th_cell e align i (nth i headers []).
Proof.
  intros H. unfold th_cells.
  now rewrite (nth_map_combine_seq (th_cell e align) headers i 0).
Qed.

(** *** Blank rows *)

Lemma decides_eot : decides (fun y => m (Eol false) y Some) is_nil.
Proof.
  intros y. cbn [m]. unfold at_eol, is_nil.
  destruct (rest y); reflexivity.
Qed.

Lemma search_after_start (r : re) (s : str) :
  forall ch, search (Seq (Bol false) r) (Some ch) s = None.
Proof.
  induction s as [|c s IH]; intros ch; cbn [search]; unfold exec_at;
    cbn [m at_bol prev andb]; [reflexivity|apply IH || now rewrite IH].
Qed.

Lemma test_whole (r : re) (K : str -> bool) :
  decides (fun y => m r y Some) K ->
  forall t, test (Seq (Bol false) r) t = K t.
Proof.
  intros Hd t. unfold test.
  pose proof (Hd (MState None t [])) as H0. cbn [rest] in H0.
  destruct t as [|c t]; cbn [search]; unfold exec_at; cbn [m at_bol prev];
    destruct (m r _ Some); cbn [is_some] in H0; rewrite <- H0; try reflexivity.
  now rewrite search_after_start.
Qed.

Lemma class_star_all (p : ascii -> bool) (t : str) :
  class_star p is_nil t = forallb p t.
Proof.
  unfold class_star. induction t as [|c t IH]; [reflexivity|].
  cbn [span forallb]. destruct (p c); [|reflexivity].
  destruct (span p t). exact IH.
Qed.

(** A row is blank when all of it is white space. *)
Lemma test_blank (row : str) : test re_blank row = forallb is_space row.
Proof.
  rewrite <- class_star_all. unfold re_blank. cbn [seqs].
  apply test_whole. apply decides_seq. apply decides_star; [apply decides_eot|].
  intros ch t _. reflexivity.
Qed.

Lemma body_rows_spec (body : str) :
  body_rows body = filter (fun row => negb (forallb is_space row)) (split_chr LF body).
Proof.
  unfold body_rows. apply filter_ext. intros row. now rewrite test_blank.
Qed.

(** The first scenario of the specification. *)
Lemma tables_example :
  let (text, e) := tables (lit "A|B" ++ [LF] ++ lit "-|-" ++ [LF] ++ lit "1|2" ++ [LF])
                          (new_Extra para_host) in
  text = placeholder 0 /\
  hashBlocks e =
  [lit "<table>" ++ [LF] ++ lit "<thead>" ++ [LF] ++ lit "<tr>" ++ [LF]
   ++ lit "  <th>A</th>" ++ [LF] ++ lit "  <th>B</th>" ++ [LF]
   ++ lit "</tr>" ++ [LF] ++ lit "</thead>" ++ [LF]
   ++ lit "<tr>" ++ [LF] ++ lit "  <td>1</td>" ++ [LF] ++ lit "  <td>2</td>" ++ [LF]
   ++ lit "</tr>" ++ [LF] ++ lit "</table>" ++ [LF]].
Proof. vm_compute. split; reflexivity. Qed.

(** ** Definition lists *)

(** *** What a match leaves of the captures *)



(** *** A gap of blank lines inside a definition *)

Lemma greedy_chr_short (p : ascii -> bool) (c : cont) (g : list (nat * str)) :
  forall s mn pv,
    length (fst (span p s)) < mn -> greedy_chr p mn pv s g c = None.
Proof.
  induction s as [|ch t IH]; intros mn pv H; cbn [greedy_chr span] in *.
  - destruct mn; [simpl in H; lia|reflexivity].
  - destruct (p ch).
    + destruct (span p t) as [a b] eqn:E. cbn [fst length] in *.
      destruct mn as [|mn]; [lia|].
      rewrite IH by (cbn [pred]; lia). reflexivity.
    + destruct mn; [simpl in H; lia|reflexivity].
Qed.






(** *** The optional group of leading newlines *)

Lemma rep_max0 (ma : mstate -> cont -> option mstate) (g : bool) (fuel mn : nat)
    (x : mstate) (c : cont) :
  rep ma g fuel mn (Some 0) x c = c x.
Proof. destruct fuel; reflexivity. Qed.

(** [a?]: one [a] that reads something, or nothing. *)
Lemma m_opt (a : re) (x : mstate) (c : cont) :
  m (Opt a) x c =
  match rest x with
  | [] => c x
  | _ :: _ =>
    match m a x (fun y => if length (rest y) =? length (rest x) then None else c y) with
    | Some z => Some z
    | None => c x
    end
  end.
Proof.
  unfold Opt. cbn [m Nat.add]. destruct (rest x) as [|ch t] eqn:E; [reflexivity|].
  cbn [length rep Nat.ltb Nat.leb Nat.eqb andb pred option_map].
  rewrite (m_ext_suffix a x _
             (fun y => if length (rest y) =? length (rest x) then None else c y)).
  - now rewrite E.
  - intros y _. rewrite E. cbn [length]. destruct (_ =? _); [reflexivity|].
    apply rep_max0.
Qed.


Lemma span_cons_true (p : ascii -> bool) (ch : ascii) (t : str) :
  p ch = true -> span p (ch :: t) = (ch :: fst (span p t), snd (span p t)).
Proof. intros H. cbn [span]. rewrite H. now destruct (span p t). Qed.

Lemma m_rep (g : bool) (mn : nat) (mx : option nat) (a : re) (x : mstate) (c : cont) :
  m (Rep g mn mx a) x c = rep (m a) g (mn + length (rest x)) mn mx x c.
Proof. reflexivity. Qed.

Lemma m_grp (i : nat) (a : re) (x : mstate) (c : cont) :
  m (Grp i a) x c = m a x (fun y => c (set_cap i x y)).
Proof. reflexivity. Qed.






(** The third and fourth scenarios of the specification, on the text of
    one list. *)
Lemma processDefListItems_tight_example :
  processDefListItems (new_Extra para_host)
    (lit "Term" ++ [LF] ++ lit ":   Definition text") =
  [LF] ++ lit "<dt>Term</dt>" ++ [LF] ++ lit "<dd>Definition text</dd>" ++ [LF].
Proof. vm_compute. reflexivity. Qed.

Lemma processDefListItems_loose_example :
  processDefListItems (new_Extra para_host)
    (lit "Term" ++ [LF; LF] ++ lit ":   Para one." ++ [LF; LF] ++ lit "    Para two.") =
  [LF] ++ lit "<dt>Term</dt>" ++ [LF] ++ lit "<dd>" ++ [LF]
  ++ lit "<p>Para one." ++ [LF; LF] ++ lit "Para two." ++ [LF; LF] ++ lit "</p>" ++ [LF]
  ++ lit "</dd>" ++ [LF].
Proof. vm_compute. reflexivity. Qed.

(** The whole recognizer on the text of the third scenario, between the
    blank lines the host puts around a document. *)
Lemma definitionLists_example :
  let (text, e) :=
    definitionLists ([LF; LF] ++ lit "Term" ++ [LF] ++ lit ":   Definition text"
                     ++ [LF; LF; LF])
                    (new_Extra para_host) in
  text = [LF; LF] ++ placeholder 0 ++ [LF; LF; LF; LF; LF] /\
  hashBlocks e =
  [lit "<dl>" ++ [LF] ++ lit "<dt>Term</dt>" ++ [LF]
   ++ lit "<dd>Definition text</dd>" ++ [LF] ++ lit "</dl>"].
Proof. vm_compute. split; reflexivity. Qed.

(** ** Fenced code blocks *)

Lemma exec_chr (p : ascii -> bool) (pv : option ascii) (s : str) :
  exec_at (Chr p) pv s =
  match s with
  | c :: _ => if p c then Some (1, []) else None
  | [] => None
  end.
Proof.
  unfold exec_at. cbn [m rest caps]. destruct s as [|c t]; [reflexivity|].
  destruct (p c); [|reflexivity]. cbn [rest caps length]. do 2 f_equal. lia.
Qed.

Lemma gsub_chr (p : ascii -> bool) (by_ : str) (s : str) :
  gsub (Chr p) (const_str by_) s = flat_map (fun c => if p c then by_ else [c]) s.
Proof.
  unfold gsub. generalize (@None ascii).
  induction s as [|c t IH]; intros pv; cbn [scan].
  - now rewrite exec_chr.
  - rewrite exec_chr. destruct (p c) eqn:E; cbn [flat_map subst firstn];
      rewrite IH, E; reflexivity.
Qed.

Lemma flat_map_flat_map (A B C : Type) (f : A -> list B) (g : B -> list C) (l : list A) :
  flat_map g (flat_map f l) = flat_map (fun x => flat_map g (f x)) l.
Proof.
  induction l as [|x l IH]; [reflexivity|].
  cbn [flat_map]. now rewrite flat_map_app, IH.
Qed.

(** The three replacements, in the order of the source, amount to one
    pass that rewrites each character once. *)
Lemma encodeCode_chars (code : str) : encodeCode code = flat_map encode_char code.
Proof.
  unfold encodeCode. rewrite !gsub_chr, !flat_map_flat_map.
  apply flat_map_ext. intros c. unfold encode_char, eqc.
  destruct (Ascii.eqb_spec c "&") as [->|Ha]; [reflexivity|].
  destruct (Ascii.eqb_spec c "<") as [->|Hl]; [reflexivity|].
  destruct (Ascii.eqb_spec c ">") as [->|Hg]; [reflexivity|].
  apply Ascii.eqb_neq in Hl, Hg.
  cbn [flat_map app]. rewrite Hl. cbn [flat_map app]. now rewrite Hg.
Qed.

(** C6.  For the text of the second scenario and the highlighter option
    [highlight], the recognizer replaces the block by the placeholder of
    index 0, stores exactly the expected fragment, and restoration emits
    it.  In general the [code] element gets the class [language-] plus
    the language in either highlighter mode, the language itself
    otherwise, and none when there is no language; the [pre] element gets
    [prettyprint] in prettify mode only; and each character of the body
    is escaped once, [&] as [&amp;], [<] as [&lt;], [>] as [&gt;]. *)
Theorem fencedCodeBlocks_spec :
  (let input := lit "```js" ++ [LF] ++ lit "var x = 1 < 2;" ++ [LF] ++ lit "```" in
   let fragment := lit "<pre><code class=" ++ [DQ] ++ lit "language-js" ++ [DQ]
                   ++ lit ">var x = 1 &lt; 2;</code></pre>" in
   let e0 := set_highlighter (new_Extra para_host) (lit "highlight") in
   fencedCodeBlocks input e0 = (placeholder 0, set_hashBlocks e0 [fragment]) /\
   finishConversion (placeholder 0) (set_hashBlocks e0 [fragment]) = (fragment, e0)) /\
  (forall e language codeblock,
     code_html e language codeblock =
     lit "<pre"
     ++ (if googleCodePrettify e then class_attr (lit "prettyprint") else [])
     ++ lit "><code"
     ++ match language with
        | [] => []
        | _ => if googleCodePrettify e || highlightJs e
               then class_attr (lit "language-" ++ language)
               else class_attr language
        end
     ++ lit ">" ++ flat_map encode_char codeblock ++ lit "</code></pre>").
Proof.
  split.
  - split; vm_compute; reflexivity.
  - intros e language codeblock. unfold code_html, class_attr.
    rewrite encodeCode_chars.
    destruct language; destruct (googleCodePrettify e); destruct (highlightJs e);
      cbn [orb]; rewrite <- ?app_assoc; reflexivity.
Qed.

(** ** The recognizers where nothing matches *)

Lemma last_app_one (s : str) (c d : ascii) : last (s ++ [c]) d = c.
Proof. apply last_last. Qed.

Lemma addAnchors_plain (text : str) :
  starts_with_STX text = false -> ends_with_ETX text = false ->
  addAnchors text = STX :: text ++ [ETX].
Proof.
  intros H1 H2. unfold addAnchors.
  assert (E : match text with
              | c :: _ => if Ascii.eqb c STX then text else STX :: text
              | [] => STX :: text
              end = STX :: text).
  { destruct text as [|c t]; [reflexivity|]. cbn in H1. now rewrite H1. }
  rewrite E.
  destruct text as [|c t]; [reflexivity|].
  cbn [ends_with_ETX] in H2.
  change (last (STX :: c :: t) NUL) with (last (c :: t) NUL).
  now rewrite H2.
Qed.

Lemma removeAnchors_anchored (text : str) :
  removeAnchors (STX :: text ++ [ETX]) = text.
Proof.
  unfold removeAnchors. cbn [Ascii.eqb Bool.eqb STX]. cbn iota.
  destruct (text ++ [ETX]) eqn:E; [now destruct text|].
  rewrite <- E, last_app_one. cbn [Ascii.eqb Bool.eqb ETX]. cbn iota.
  apply removelast_last.
Qed.

Lemma tables_no_match (text : str) (e : Extra) :
  test leadingPipe text = false -> test noLeadingPipe text = false ->
  tables text e = (text, e).
Proof.
  intros H1 H2. unfold tables.
  rewrite gsubS_no_match by assumption. now apply gsubS_no_match.
Qed.

Lemma fencedCodeBlocks_no_match (text : str) (e : Extra) :
  test re_fence text = false -> fencedCodeBlocks text e = (text, e).
Proof. intros H. unfold fencedCodeBlocks. now apply gsubS_no_match. Qed.

Lemma definitionLists_no_match (text : str) (e : Extra) :
  test wholeList (addAnchors text) = false ->
  definitionLists text e = (removeAnchors (addAnchors text), e).
Proof. intros H. unfold definitionLists. now rewrite gsubS_no_match. Qed.

Lemma definitionLists_unanchored (text : str) (e : Extra) :
  test wholeList (addAnchors text) = false ->
  starts_with_STX text = false -> ends_with_ETX text = false ->
  definitionLists text e = (text, e).
Proof.
  intros H H1 H2. rewrite definitionLists_no_match by assumption.
  now rewrite addAnchors_plain, removeAnchors_anchored.
Qed.

(** C8, as the code has it.  Where its grammar matches nowhere, the table
    recognizer and the fenced-code recognizer return the text and the
    store as they are; so does the definition-list recognizer when the
    text does not start with the sentinel STX and does not end with the
    sentinel ETX.  Every recognizer is a total function to a text. *)
Theorem recognizers_no_match (text : str) (e : Extra) :
  (test leadingPipe text = false -> test noLeadingPipe text = false ->
   tables text e = (text, e)) /\
  (test re_fence text = false -> fencedCodeBlocks text e = (text, e)) /\
  (test wholeList (addAnchors text) = false ->
   starts_with_STX text = false -> ends_with_ETX text = false ->
   definitionLists text e = (text, e)).
Proof.
  split; [|split].
  - apply tables_no_match.
  - apply fencedCodeBlocks_no_match.
  - apply definitionLists_unanchored.
Qed.

Lemma recognizers_no_match_witness :
  tables (lit "a < b") (new_Extra para_host) = (lit "a < b", new_Extra para_host) /\
  fencedCodeBlocks (lit "a | b") (new_Extra para_host) = (lit "a | b", new_Extra para_host) /\
  definitionLists (lit "a: b") (new_Extra para_host) = (lit "a: b", new_Extra para_host).
Proof.
  split; [|split].
  - apply recognizers_no_match; reflexivity.
  - apply recognizers_no_match; reflexivity.
  - apply recognizers_no_match; reflexivity.
Defined.

(** A text that starts with STX, in which the definition-list grammar
    matches nowhere, does not come back unchanged. *)
Lemma definitionLists_drops_sentinel :
  test wholeList (addAnchors (STX :: lit "abc")) = false /\
  fst (definitionLists (STX :: lit "abc") (new_Extra para_host)) = lit "abc" /\
  fst (definitionLists (STX :: lit "abc") (new_Extra para_host)) <> STX :: lit "abc".
Proof. vm_compute. repeat split. discriminate. Qed.

(** ** The pre-conversion hook *)

Lemma leadingPipe_must : must (eqc "|") leadingPipe = true.
Proof. vm_compute. reflexivity. Qed.

Lemma noLeadingPipe_must : must (eqc "|") noLeadingPipe = true.
Proof. vm_compute. reflexivity. Qed.

Lemma re_fence_must : must (eqc "`") re_fence = true.
Proof. vm_compute. reflexivity. Qed.

Lemma wholeList_must : must (eqc ":") wholeList = true.
Proof. vm_compute. reflexivity. Qed.

Lemma esc_must : must (eqc "\") re_esc_pipe = true /\ must (eqc "\") re_esc_colon = true.
Proof. vm_compute. split; reflexivity. Qed.

Lemma plain_without (a : ascii) (text : str) :
  syntax_char a = true -> plain text = true ->
  forallb (fun ch => negb (eqc a ch)) text = true.
Proof.
  intros Ha H. unfold plain in H. rewrite forallb_forall in *.
  intros ch Hin. specialize (H ch Hin).
  unfold eqc. destruct (Ascii.eqb_spec ch a) as [->|]; [|reflexivity].
  now rewrite Ha in H.
Qed.

Lemma test_must (P : ascii -> bool) (r : re) (s : str) :
  must P r = true -> forallb (fun ch => negb (P ch)) s = true -> test r s = false.
Proof. intros Hm Hs. unfold test. now rewrite (must_search P r s Hm Hs). Qed.

Lemma plain_anchors (text : str) :
  plain text = true -> starts_with_STX text = false /\ ends_with_ETX text = false.
Proof.
  intros H. unfold plain in H. rewrite forallb_forall in H. split.
  - destruct text as [|c t]; [reflexivity|]. cbn [starts_with_STX].
    destruct (Ascii.eqb_spec c STX) as [->|]; [|reflexivity].
    specialize (H STX (or_introl eq_refl)). discriminate H.
  - destruct text as [|c t]; [reflexivity|]. cbn [ends_with_ETX].
    destruct (Ascii.eqb_spec (last (c :: t) NUL) ETX) as [E|]; [|reflexivity].
    assert (Hin : In (last (c :: t) NUL) (c :: t)).
    { destruct (exists_last (l := c :: t)) as (l' & a & El); [discriminate|].
      rewrite El, last_last. apply in_or_app. right. now left. }
    rewrite E in Hin. specialize (H ETX Hin). discriminate H.
Qed.

Lemma run_plain (t : transformation) (text : str) (e : Extra) :
  plain text = true -> run t text e = (text, e).
Proof.
  intros H.
  assert (Ht : tables text e = (text, e)).
  { apply tables_no_match.
    - apply (test_must _ _ _ leadingPipe_must). now apply plain_without.
    - apply (test_must _ _ _ noLeadingPipe_must). now apply plain_without. }
  assert (Hf : fencedCodeBlocks text e = (text, e)).
  { apply fencedCodeBlocks_no_match.
    apply (test_must _ _ _ re_fence_must). now apply plain_without. }
  destruct t; cbn [run].
  - unfold all. now rewrite Ht.
  - exact Ht.
  - exact Hf.
  - destruct (plain_anchors text H) as [H1 H2].
    apply definitionLists_unanchored; try assumption.
    apply (test_must _ _ _ wholeList_must).
    rewrite addAnchors_plain by assumption.
    cbn [forallb]. rewrite forallb_app. cbn [forallb andb].
    rewrite (plain_without ":" text) by (reflexivity || assumption). reflexivity.
Qed.

Lemma run_all_plain (ts : list transformation) (text : str) (e : Extra) :
  plain text = true -> run_all ts text e = (text, e).
Proof.
  intros H. induction ts as [|t ts IH]; [reflexivity|].
  cbn [run_all]. now rewrite run_plain.
Qed.

Lemma processEscapes_plain (text : str) :
  plain text = true -> processEscapes text = text.
Proof.
  intros H. unfold processEscapes. destruct esc_must as [Hp Hc].
  rewrite (gsub_no_match re_esc_pipe)
    by (apply (test_must _ _ _ Hp); now apply plain_without).
  apply gsub_no_match. apply (test_must _ _ _ Hc). now apply plain_without.
Qed.

(** C9.  Whatever the list of transformations, [doConversion] returns
    the text that the escape normalizer and the transformations produce,
    followed by one newline.  In particular a text with no character of
    the extension syntax in it comes back followed by one newline, not
    byte for byte. *)
Theorem doConversion_newline (transformations : list transformation) (text : str)
    (e : Extra) :
  fst (doConversion transformations text e) =
    fst (run_all transformations (processEscapes text) (set_hashBlocks e [])) ++ [LF]
  /\ (plain text = true ->
      fst (doConversion transformations text e) = text ++ [LF] /\
      fst (doConversion transformations text e) <> text).
Proof.
  split.
  - unfold doConversion. now destruct (run_all _ _ _).
  - intros H. unfold doConversion.
    rewrite processEscapes_plain, run_all_plain by assumption. cbn [fst].
    split; [reflexivity|].
    intro E. apply (f_equal (@length ascii)) in E. rewrite length_app in E.
    simpl in E. lia.
Qed.

Lemma doConversion_newline_witness :
  fst (doConversion [T_all; T_definitionLists] (lit "just text") (new_Extra para_host)) =
  lit "just text" ++ [LF].
Proof.
  apply (doConversion_newline [T_all; T_definitionLists] (lit "just text")
                              (new_Extra para_host)).
  reflexivity.
Defined.

(** ** The sentinels, once more *)

Lemma addAnchors_starts (text : str) : starts_with_STX (addAnchors text) = true.
Proof.
  unfold addAnchors.
  set (t1 := match text with
             | [] => STX :: text
             | c :: _ => if Ascii.eqb c STX then text else STX :: text
             end).
  assert (H1 : starts_with_STX t1 = true).
  { subst t1. destruct text as [|c t]; [reflexivity|].
    destruct (Ascii.eqb c STX) eqn:E; [|reflexivity]. simpl. exact E. }
  destruct (Ascii.eqb (last t1 NUL) ETX); [exact H1|].
  destruct t1; [discriminate|exact H1].
Qed.

Lemma addAnchors_ends (text : str) : ends_with_ETX (addAnchors text) = true.
Proof.
  unfold addAnchors.
  set (t1 := match text with
             | [] => STX :: text
             | c :: _ => if Ascii.eqb c STX then text else STX :: text
             end).
  assert (H1 : t1 <> []).
  { subst t1. destruct text as [|c t]; [discriminate|].
    destruct (Ascii.eqb c STX); discriminate. }
  destruct (Ascii.eqb (last t1 NUL) ETX) eqn:E.
  - destruct t1; [contradiction|]. exact E.
  - unfold ends_with_ETX. destruct (t1 ++ [ETX]) eqn:E2.
    + destruct t1; discriminate.
    + rewrite <- E2, last_app_one. reflexivity.
Qed.

Lemma addAnchors_fixed (text : str) :
  starts_with_STX text = true -> ends_with_ETX text = true -> addAnchors text = text.
Proof.
  intros H1 H2. destruct text as [|c t]; [discriminate|].
  unfold addAnchors. simpl in H1. rewrite H1.
  unfold ends_with_ETX in H2. now rewrite H2.
Qed.

(** X1.  [addAnchors] always returns a text that starts with STX and
    ends with ETX, and adding the sentinels twice is the same as adding
    them once. *)
Theorem addAnchors_idempotent (text : str) :
  starts_with_STX (addAnchors text) = true /\
  ends_with_ETX (addAnchors text) = true /\
  addAnchors (addAnchors text) = addAnchors text.
Proof.
  split; [apply addAnchors_starts|]. split; [apply addAnchors_ends|].
  apply addAnchors_fixed; [apply addAnchors_starts|apply addAnchors_ends].
Qed.

Lemma removeAnchors_after_add (text : str) :
  removeAnchors (addAnchors text) = removeAnchors text.
Proof.
  destruct text as [|c t]; [reflexivity|].
  unfold addAnchors.
  destruct (Ascii.eqb c STX) eqn:Ec.
  - destruct (Ascii.eqb (last (c :: t) NUL) ETX) eqn:El; [reflexivity|].
    unfold removeAnchors. cbn [app]. rewrite Ec.
    destruct t as [|d t']; [reflexivity|].
    change (last (c :: d :: t') NUL) with (last (d :: t') NUL) in El.
    rewrite El, last_app_one.
    destruct ((d :: t') ++ [ETX]) eqn:E2; [discriminate|].
    rewrite <- E2. cbn [Ascii.eqb]. rewrite Ascii.eqb_refl. apply removelast_last.
  - change (last (STX :: c :: t) NUL) with (last (c :: t) NUL).
    destruct (Ascii.eqb (last (c :: t) NUL) ETX) eqn:El.
    + unfold removeAnchors. rewrite Ascii.eqb_refl, Ec, El. reflexivity.
    + change (STX :: c :: t) with (STX :: (c :: t)).
      rewrite <- app_comm_cons, removeAnchors_anchored.
      unfold removeAnchors. now rewrite Ec, El.
Qed.

(** X2.  Removing the sentinels after adding them gives what removing
    them from the text itself gives: a sentinel the text already had at
    its start or end is lost, anything else comes back unchanged. *)
Theorem removeAnchors_addAnchors (text : str) :
  removeAnchors (addAnchors text) = removeAnchors text /\
  (starts_with_STX text = false -> ends_with_ETX text = false ->
   removeAnchors (addAnchors text) = text).
Proof.
  split; [apply removeAnchors_after_add|].
  intros H1 H2. rewrite addAnchors_plain by assumption. apply removeAnchors_anchored.
Qed.

Lemma removeAnchors_addAnchors_witness :
  removeAnchors (addAnchors (lit "a" ++ [ETX; LF])) = lit "a" ++ [ETX; LF].
Proof. apply (removeAnchors_addAnchors (lit "a" ++ [ETX; LF])); reflexivity. Defined.

(** ** [trim] and [rtrim] *)

Lemma length_span (p : ascii -> bool) (s : str) :
  length s = length (fst (span p s)) + length (snd (span p s)).
Proof. rewrite <- (span_app p s) at 1. apply length_app. Qed.

Lemma eot_refuses (p : ascii -> bool) :
  refuses p (fun y => m (Eol false) y Some).
Proof. intros pv ch t g _. reflexivity. Qed.

Lemma exec_rtrim (pv : option ascii) (s : str) :
  exec_at re_rtrim pv s =
  match fst (span is_space s), snd (span is_space s) with
  | _ :: _, [] => Some (length (fst (span is_space s)), [])
  | _, _ => None
  end.
Proof.
  unfold exec_at, re_rtrim. cbn [m]. fold (Plus (Chr is_space)).
  unfold Plus. rewrite m_rep_chr. cbn [prev rest caps].
  rewrite (greedy_chr_only is_space _ [] (eot_refuses is_space)).
  pose proof (length_span is_space s) as HL.
  destruct (fst (span is_space s)) as [|a w] eqn:Ew.
  - reflexivity.
  - cbn [length Nat.leb]. cbn [m]. unfold at_eol. cbn [rest].
    destruct (snd (span is_space s)) as [|b r] eqn:Er.
    + cbn [rest caps]. f_equal. f_equal. simpl in HL. simpl. lia.
    + reflexivity.
Qed.

Lemma m_alt (a b : re) (x : mstate) (c : cont) :
  m (Alt a b) x c = match m a x c with Some z => Some z | None => m b x c end.
Proof. reflexivity. Qed.

Lemma exec_trim (pv : option ascii) (s : str) :
  exec_at re_trim pv s =
  match fst (span is_space s) with
  | [] => None
  | _ :: _ =>
    match pv, snd (span is_space s) with
    | Some _, _ :: _ => None
    | _, _ => Some (length (fst (span is_space s)), [])
    end
  end.
Proof.
  pose proof (exec_rtrim pv s) as HR.
  unfold exec_at, re_rtrim in HR. unfold exec_at, re_trim.
  rewrite m_alt.
  pose proof (length_span is_space s) as HL.
  destruct pv as [c|].
  - (* not at the start: only the second alternative can match *)
    assert (E : m (Seq (Bol false) (Plus (Chr is_space))) (MState (Some c) s []) Some
                = None) by reflexivity.
    rewrite E, HR.
    destruct (fst (span is_space s)); [reflexivity|].
    destruct (snd (span is_space s)); reflexivity.
  - assert (E : m (Seq (Bol false) (Plus (Chr is_space))) (MState None s []) Some
                = m (Rep true 1 None (Chr is_space)) (MState None s []) Some)
      by reflexivity.
    rewrite E, m_rep_chr. cbn [prev rest caps].
    destruct (fst (span is_space s)) as [|a w] eqn:Ew.
    + rewrite greedy_chr_short by (rewrite Ew; simpl; lia).
      rewrite HR. reflexivity.
    + rewrite (greedy_chr_longest is_space Some []
                 (MState (prev_after None (a :: w)) (snd (span is_space s)) []))
        by (rewrite Ew; simpl; (lia || reflexivity)).
      cbn [rest caps]. f_equal. f_equal.
      simpl in HL. simpl.
      destruct (snd (span is_space s)); simpl in *; lia.
Qed.

Lemma span_keeps (p : ascii -> bool) (s : str) (ch : ascii) :
  In ch s -> p ch = false -> snd (span p s) <> [].
Proof.
  induction s as [|c t IH]; intros Hin Hp; [contradiction|].
  simpl. destruct (p c) eqn:Ec.
  - destruct (span p t) as [a b] eqn:E. simpl in *.
    destruct Hin as [->|Hin]; [congruence|]. now apply IH.
  - discriminate.
Qed.

Lemma span_all_true (p : ascii -> bool) (s : str) :
  forallb p s = true -> span p s = (s, []).
Proof.
  intros H. rewrite <- (app_nil_r s) at 1. now apply span_run.
Qed.

Lemma last_in (s : str) (d : ascii) : s <> [] -> In (last s d) s.
Proof.
  induction s as [|c t IH]; [contradiction|]. intros _.
  destruct t as [|c' t']; [now left|]. right. apply IH. discriminate.
Qed.

Lemma flat_map_app_tokens (f : str -> list (nat * str) -> str) (a b : list token) :
  flat_map (subst f) (a ++ b) = flat_map (subst f) a ++ flat_map (subst f) b.
Proof. apply flat_map_app. Qed.

Section TrimScan.
Variable r : re.
Hypothesis at_end : forall pv, exec_at r pv [] = None.
Hypothesis inside : forall ch s,
  snd (span is_space s) <> [] -> exec_at r (Some ch) s = None.
Hypothesis trailing : forall pv s,
  forallb is_space s = true -> s <> [] -> exec_at r pv s = Some (length s, []).

(** White space up to the end of the text is one match. *)
Lemma scan_trailing (pv : option ascii) (b : str) :
  forallb is_space b = true ->
  flat_map (subst (const_str [])) (scan r pv b 0) = [].
Proof.
  intros Hb. destruct b as [|c t].
  - cbn [scan]. now rewrite at_end.
  - rewrite (scan_match r pv (c :: t) (length (c :: t)) [])
      by (try apply trailing; try discriminate; simpl; (assumption || lia)).
    rewrite skipn_all. cbn [scan]. now rewrite at_end.
Qed.

(** Nothing matches inside a text whose last character is not white
    space, except possibly at its first position. *)
Lemma scan_core (b : str) :
  forall core pv,
    core <> [] -> non_space (last core NUL) = true ->
    exec_at r pv (core ++ b) = None ->
    scan r pv (core ++ b) 0 = map TLit core ++ scan r (Some (last core NUL)) b 0.
Proof.
  induction core as [|c t IH]; intros pv Hne Hlast H0; [contradiction|].
  rewrite <- app_comm_cons. rewrite scan_nomatch by exact H0.
  destruct t as [|d t'].
  - reflexivity.
  - change (last (c :: d :: t') NUL) with (last (d :: t') NUL) in *.
    cbn [map app]. f_equal. apply IH; [discriminate|exact Hlast|].
    apply inside.
    apply (span_keeps is_space _ (last (d :: t') NUL)).
    + apply in_or_app. left. apply last_in. discriminate.
    + unfold non_space in Hlast. now destruct (is_space (last (d :: t') NUL)).
Qed.

Lemma gsub_core (b core : str) (pv : option ascii) :
  core <> [] -> non_space (last core NUL) = true ->
  forallb is_space b = true ->
  exec_at r pv (core ++ b) = None ->
  flat_map (subst (const_str [])) (scan r pv (core ++ b) 0) = core.
Proof.
  intros Hne Hlast Hb H0.
  rewrite scan_core by assumption.
  rewrite flat_map_app_tokens, flat_map_subst_lit, scan_trailing by exact Hb.
  apply app_nil_r.
Qed.
End TrimScan.

Lemma span_head_false (p : ascii -> bool) (c : ascii) (t : str) :
  p c = false -> span p (c :: t) = ([], c :: t).
Proof. intros H. simpl. now rewrite H. Qed.

Lemma rtrim_inside (ch : ascii) (s : str) :
  snd (span is_space s) <> [] -> exec_at re_rtrim (Some ch) s = None.
Proof.
  intros H. rewrite exec_rtrim.
  destruct (fst (span is_space s)); [reflexivity|].
  destruct (snd (span is_space s)); [contradiction|reflexivity].
Qed.

Lemma rtrim_trailing (pv : option ascii) (s : str) :
  forallb is_space s = true -> s <> [] ->
  exec_at re_rtrim pv s = Some (length s, []).
Proof.
  intros H Hne. rewrite exec_rtrim, span_all_true by exact H. cbn [fst snd].
  destruct s; [contradiction|reflexivity].
Qed.

Lemma rtrim_at_end (pv : option ascii) : exec_at re_rtrim pv [] = None.
Proof. now rewrite exec_rtrim. Qed.

Lemma trim_inside (ch : ascii) (s : str) :
  snd (span is_space s) <> [] -> exec_at re_trim (Some ch) s = None.
Proof.
  intros H. rewrite exec_trim.
  destruct (fst (span is_space s)); [reflexivity|].
  destruct (snd (span is_space s)); [contradiction|reflexivity].
Qed.

Lemma trim_trailing (pv : option ascii) (s : str) :
  forallb is_space s = true -> s <> [] ->
  exec_at re_trim pv s = Some (length s, []).
Proof.
  intros H Hne. rewrite exec_trim, span_all_true by exact H. cbn [fst snd].
  destruct s; [contradiction|]. now destruct pv.
Qed.

Lemma trim_at_end (pv : option ascii) : exec_at re_trim pv [] = None.
Proof. now rewrite exec_trim. Qed.

Lemma non_space_false (c : ascii) : non_space c = true -> is_space c = false.
Proof. unfold non_space. now destruct (is_space c). Qed.

Lemma rtrim_core (core b : str) :
  forallb is_space b = true -> ends_tight core = true -> rtrim (core ++ b) = core.
Proof.
  intros Hb Hc. unfold rtrim, gsub. destruct core as [|c t].
  - cbn [app]. apply (scan_trailing re_rtrim rtrim_at_end rtrim_trailing). exact Hb.
  - apply (gsub_core re_rtrim rtrim_at_end rtrim_inside rtrim_trailing);
      [discriminate|exact Hc|exact Hb|].
    rewrite exec_rtrim.
    assert (H : snd (span is_space ((c :: t) ++ b)) <> []).
    { apply (span_keeps is_space _ (last (c :: t) NUL)).
      - apply in_or_app. left. apply last_in. discriminate.
      - now apply non_space_false. }
    destruct (fst (span is_space ((c :: t) ++ b))); [reflexivity|].
    destruct (snd (span is_space ((c :: t) ++ b))); [contradiction|reflexivity].
Qed.

Lemma trim_core (a core b : str) :
  forallb is_space a = true -> forallb is_space b = true -> tight core = true ->
  trim (a ++ core ++ b) = core.
Proof.
  intros Ha Hb Hc. unfold trim, gsub. destruct core as [|c t].
  - cbn [app]. apply (scan_trailing re_trim trim_at_end trim_trailing).
    rewrite forallb_app. now rewrite Ha, Hb.
  - simpl in Hc. apply andb_prop in Hc. destruct Hc as [Hc Hl].
    assert (Hspan : span is_space (a ++ (c :: t) ++ b) = (a, (c :: t) ++ b)).
    { apply span_run; [exact Ha|]. simpl. now apply non_space_false. }
    destruct a as [|a0 a'].
    + cbn [app].
      apply (gsub_core re_trim trim_at_end trim_inside trim_trailing b (c :: t));
        [discriminate|exact Hl|exact Hb|].
      rewrite exec_trim.
      change ([] ++ (c :: t) ++ b) with ((c :: t) ++ b) in Hspan. now rewrite Hspan.
    + rewrite (scan_match re_trim None _ (length (a0 :: a')) []).
      * rewrite firstn_app, Nat.sub_diag, firstn_all, firstn_O, app_nil_r.
        rewrite skipn_app, Nat.sub_diag, skipn_all, skipn_O. cbn [app flat_map subst const_str].
        apply (gsub_core re_trim trim_at_end trim_inside trim_trailing b (c :: t));
          [discriminate|exact Hl|exact Hb|].
        unfold prev_after. apply trim_inside.
        change ((c :: t) ++ b) with (c :: (t ++ b)).
        rewrite (span_head_false is_space c) by now apply non_space_false.
        discriminate.
      * rewrite exec_trim, Hspan. reflexivity.
      * simpl. lia.
      * rewrite length_app. lia.
Qed.

(** Every text is white space, a tight core, and white space. *)
Lemma rtrim_parts (s : str) :
  exists core b, s = core ++ b /\ forallb is_space b = true /\ ends_tight core = true.
Proof.
  induction s as [|c t IH].
  - exists [], []. now repeat split.
  - destruct IH as (core & b & -> & Hb & Hc).
    destruct core as [|d core'].
    + destruct (is_space c) eqn:Ec.
      * exists [], (c :: b). repeat split. simpl. now rewrite Ec, Hb.
      * exists [c], b. repeat split; [exact Hb|]. simpl. unfold non_space. now rewrite Ec.
    + exists (c :: d :: core'), b. repeat split; [exact Hb|exact Hc].
Qed.

Lemma trim_parts (s : str) :
  exists a core b,
    s = a ++ core ++ b /\ forallb is_space a = true /\ forallb is_space b = true /\
    tight core = true.
Proof.
  destruct (rtrim_parts (snd (span is_space s))) as (core & b & E & Hb & Hc).
  exists (fst (span is_space s)), core, b.
  split; [rewrite <- E; symmetry; apply span_app|].
  split; [apply span_all|]. split; [exact Hb|].
  pose proof (span_stop is_space s) as Hs. rewrite E in Hs.
  destruct core as [|c t]; [reflexivity|].
  simpl in Hs. simpl. unfold non_space at 1. rewrite Hs. exact Hc.
Qed.

(** X3.  [trim] removes exactly the white space at the two ends: of a text
    made of white space, a core that neither starts nor ends with white
    space, and white space again, it returns the core.  Whatever the
    text, the result neither starts nor ends with white space, is not
    longer than the text, and is left unchanged by [trim] and by
    [rtrim]. *)
Theorem trim_spec (a core b s : str) :
  (forallb is_space a = true -> forallb is_space b = true -> tight core = true ->
   trim (a ++ core ++ b) = core) /\
  tight (trim s) = true /\ length (trim s) <= length s /\
  trim (trim s) = trim s /\ rtrim (trim s) = trim s.
Proof.
  split; [apply trim_core|].
  destruct (trim_parts s) as (a' & core' & b' & -> & Ha & Hb & Hc).
  rewrite (trim_core a' core' b' Ha Hb Hc).
  split; [exact Hc|]. split; [rewrite !length_app; lia|]. split.
  - rewrite <- (app_nil_r core') at 1.
    now apply (trim_core [] core' []).
  - rewrite <- (app_nil_r core') at 1. apply rtrim_core; [reflexivity|].
    destruct core' as [|c t]; [reflexivity|].
    simpl in Hc. apply andb_prop in Hc. apply Hc.
Qed.

Lemma trim_spec_witness :
  trim (lit "  " ++ lit "a  b" ++ [SP; LF]) = lit "a  b".
Proof.
  apply (proj1 (trim_spec (lit "  ") (lit "a  b") [SP; LF] [])); reflexivity.
Defined.

(** X4.  [rtrim] removes exactly the white space at the end: of a core
    that does not end with white space, followed by white space, it
    returns the core, with the white space the core starts with.
    Whatever the text, the result does not end with white space, is not
    longer than the text, and is left unchanged by [rtrim]. *)
Theorem rtrim_spec (core b s : str) :
  (forallb is_space b = true -> ends_tight core = true -> rtrim (core ++ b) = core) /\
  ends_tight (rtrim s) = true /\ length (rtrim s) <= length s /\
  rtrim (rtrim s) = rtrim s.
Proof.
  split; [apply rtrim_core|].
  destruct (rtrim_parts s) as (core' & b' & -> & Hb & Hc).
  rewrite (rtrim_core core' b' Hb Hc).
  split; [exact Hc|]. split; [rewrite length_app; lia|].
  rewrite <- (app_nil_r core') at 1. now apply rtrim_core.
Qed.

Lemma rtrim_spec_witness :
  rtrim (lit "  a b" ++ [SP; LF; TAB]) = lit "  a b".
Proof.
  apply (proj1 (rtrim_spec (lit "  a b") [SP; LF; TAB] [])); reflexivity.
Defined.

(** ** [outdent] *)

Lemma span_n_app (p : ascii -> bool) (k : nat) (s : str) :
  fst (span_n p k s) ++ snd (span_n p k s) = s.
Proof.
  revert s. induction k as [|k IH]; intros s; [reflexivity|].
  destruct s as [|ch t]; [reflexivity|]. simpl.
  destruct (p ch); [|reflexivity].
  specialize (IH t). destruct (span_n p k t). simpl in *. now rewrite IH.
Qed.

Lemma span_n_nil (p : ascii -> bool) (k : nat) : span_n p k [] = ([], []).
Proof. now destruct k. Qed.

Lemma span_n_cons (p : ascii -> bool) (k : nat) (ch : ascii) (t : str) :
  p ch = true ->
  span_n p (S k) (ch :: t) = (ch :: fst (span_n p k t), snd (span_n p k t)).
Proof. intros H. simpl. rewrite H. now destruct (span_n p k t). Qed.

Lemma span_n_stop (p : ascii -> bool) (k : nat) (ch : ascii) (t : str) :
  p ch = false -> span_n p k (ch :: t) = ([], ch :: t).
Proof. intros H. destruct k; [reflexivity|]. simpl. now rewrite H. Qed.

Lemma rep_step (ma : mstate -> cont -> option mstate) (f mn k : nat)
    (x : mstate) (c : cont) :
  rep ma true (S f) mn (Some (S k)) x c =
  let d : cont := fun y =>
    if (mn =? 0) && (length (rest y) =? length (rest x)) then None
    else rep ma true f (pred mn) (Some k) y c in
  if 0 <? mn then ma x d
  else match ma x d with Some z => Some z | None => c x end.
Proof. reflexivity. Qed.

Lemma m_chr (p : ascii -> bool) (x : mstate) (c : cont) :
  m (Chr p) x c =
  match rest x with
  | ch :: t => if p ch then c (MState (Some ch) t (caps x)) else None
  | [] => None
  end.
Proof. reflexivity. Qed.

(** A greedy bounded repetition of one class stops after the longest
    run the bound allows, when the continuation accepts that. *)
Lemma rep_chr_upto (p : ascii -> bool) (c : cont) (g : list (nat * str)) (z : mstate) :
  forall fuel k mn pv s,
    mn + length s <= fuel ->
    mn <= length (fst (span_n p k s)) ->
    c (MState (prev_after pv (fst (span_n p k s))) (snd (span_n p k s)) g) = Some z ->
    rep (m (Chr p)) true fuel mn (Some k) (MState pv s g) c = Some z.
Proof.
  induction fuel as [|f IH]; intros k mn pv s Hf Hmn Hc.
  - assert (s = []) as -> by (destruct s; [reflexivity|simpl in Hf; lia]).
    rewrite span_n_nil in Hc. destruct k; exact Hc.
  - destruct k as [|k]; [exact Hc|].
    rewrite rep_step. cbv zeta. rewrite m_chr. cbn [rest caps].
    destruct s as [|ch t].
    + rewrite span_n_nil in Hmn, Hc. simpl in Hmn.
      assert (mn = 0) as -> by lia. exact Hc.
    + destruct (p ch) eqn:Ep.
      * rewrite (span_n_cons p k ch t Ep) in Hmn, Hc. cbn [fst snd] in Hmn, Hc.
        rewrite prev_after_cons in Hc.
        assert (E : (length t =? length (ch :: t)) = false)
          by (apply Nat.eqb_neq; simpl; lia).
        rewrite E, andb_false_r.
        rewrite (IH k (pred mn) (Some ch) t);
          [now destruct (0 <? mn)|simpl in Hf; lia|simpl in Hmn; lia|exact Hc].
      * rewrite (span_n_stop p (S k) ch t Ep) in Hmn, Hc. simpl in Hmn.
        assert (mn = 0) as -> by lia. exact Hc.
Qed.

Lemma rep_chr_upto_short (p : ascii -> bool) (c : cont) (g : list (nat * str)) :
  forall fuel k mn pv s,
    mn + length s <= fuel -> mn <= k -> length (fst (span_n p k s)) < mn ->
    rep (m (Chr p)) true fuel mn (Some k) (MState pv s g) c = None.
Proof.
  induction fuel as [|f IH]; intros k mn pv s Hf Hk Hmn; [lia|].
  destruct k as [|k]; [lia|].
  rewrite rep_step. cbv zeta. rewrite m_chr. cbn [rest caps].
  destruct s as [|ch t].
  - destruct mn; [lia|reflexivity].
  - destruct (p ch) eqn:Ep.
    + rewrite (span_n_cons p k ch t Ep) in Hmn. cbn [fst length] in Hmn.
      assert (E : (length t =? length (ch :: t)) = false)
        by (apply Nat.eqb_neq; simpl; lia).
      rewrite E, andb_false_r.
      rewrite (IH k (pred mn) (Some ch) t) by (simpl in Hf; lia).
      destruct mn; [lia|reflexivity].
    + destruct mn; [lia|reflexivity].
Qed.

Lemma length_span_n (p : ascii -> bool) (k : nat) (s : str) :
  length s = length (fst (span_n p k s)) + length (snd (span_n p k s)).
Proof. rewrite <- (span_n_app p k s) at 1. apply length_app. Qed.

Lemma skipn_span_n (p : ascii -> bool) (k : nat) (s : str) :
  skipn (length (fst (span_n p k s))) s = snd (span_n p k s).
Proof.
  rewrite <- (span_n_app p k s) at 2.
  now rewrite skipn_app, Nat.sub_diag, skipn_all, skipn_O.
Qed.

(** What the pattern of [outdent] does at one position. *)
Lemma exec_outdent (pv : option ascii) (s : str) :
  exec_at re_outdent pv s =
  if bol pv then
    match indent_len s with
    | 0 => None
    | S n => Some (S n, [(1, firstn (S n) s)])
    end
  else None.
Proof.
  unfold exec_at, re_outdent.
  assert (E : m (Seq (Bol true) (Grp 1 (Alt (Chr (eqc TAB)) (Rep true 1 (Some 4) sp))))
                (MState pv s []) Some
              = if bol pv
                then match m (Chr (eqc TAB)) (MState pv s [])
                             (fun y => Some (set_cap 1 (MState pv s []) y)) with
                     | Some z => Some z
                     | None => rep (m (Chr (eqc SP))) true (1 + length s) 1 (Some 4)
                                   (MState pv s [])
                                   (fun y => Some (set_cap 1 (MState pv s []) y))
                     end
                else None).
  { cbn [m]. unfold at_bol, bol. cbn [prev rest andb]. reflexivity. }
  rewrite E. clear E. destruct (bol pv); [|reflexivity].
  destruct s as [|c t]; [reflexivity|].
  rewrite m_chr. cbn [rest caps]. unfold indent_len, eqc at 1.
  destruct (Ascii.eqb c TAB) eqn:Ec.
  - unfold set_cap. cbn [rest caps prev].
    replace (length (c :: t) - length t) with 1 by (simpl; lia). reflexivity.
  - pose proof (length_span_n (eqc SP) 4 (c :: t)) as HL.
    destruct (fst (span_n (eqc SP) 4 (c :: t))) as [|a w] eqn:Ew.
    + rewrite rep_chr_upto_short; [reflexivity|simpl; lia|lia|rewrite Ew; simpl; lia].
    + rewrite (rep_chr_upto (eqc SP) _ []
                 (set_cap 1 (MState pv (c :: t) [])
                    (MState (prev_after pv (a :: w)) (snd (span_n (eqc SP) 4 (c :: t))) [])));
        [|simpl; lia|rewrite Ew; simpl; lia|rewrite Ew; reflexivity].
      unfold set_cap. cbn [rest caps prev].
      replace (length (c :: t) - length (snd (span_n (eqc SP) 4 (c :: t))))
        with (length (a :: w)) by lia.
      reflexivity.
Qed.

Lemma scan_first_pv (r : re) (pv pv' : option ascii) (s : str) :
  exec_at r pv s = exec_at r pv' s -> scan r pv s 0 = scan r pv' s 0.
Proof. intros H. destruct s; simpl; now rewrite H. Qed.

Lemma dot_not_bol (c : ascii) : dot c = true -> bol (Some c) = false.
Proof. unfold dot, bol. now destruct (is_line_terminator c). Qed.

(** Inside a line nothing matches: a line that is not outdented at its
    start is copied. *)
Lemma scan_outdent_line (tail : str) :
  forall l pv,
    forallb dot l = true ->
    (l <> [] -> exec_at re_outdent pv (l ++ tail) = None) ->
    scan re_outdent pv (l ++ tail) 0 =
    map TLit l ++ scan re_outdent (prev_after pv l) tail 0.
Proof.
  induction l as [|c t IH]; intros pv Hl H0; [reflexivity|].
  simpl in Hl. apply andb_prop in Hl. destruct Hl as [Hc Ht].
  rewrite <- app_comm_cons, scan_nomatch by (apply H0; discriminate).
  rewrite prev_after_cons. cbn [map app]. f_equal.
  apply IH; [exact Ht|]. intros _.
  rewrite exec_outdent. now rewrite dot_not_bol.
Qed.

Lemma span_n_length (p : ascii -> bool) (k : nat) (s : str) :
  length (fst (span_n p k s)) <= length s.
Proof. pose proof (length_span_n p k s). lia. Qed.

Lemma span_n_app_stop (p : ascii -> bool) (w : str) :
  match w with ch :: _ => p ch = false | [] => True end ->
  forall k l, fst (span_n p k (l ++ w)) = fst (span_n p k l).
Proof.
  intros Hw. induction k as [|k IH]; intros l; [reflexivity|].
  destruct l as [|c t].
  - cbn [app]. destruct w as [|ch w']; [reflexivity|].
    now rewrite span_n_stop.
  - rewrite <- app_comm_cons. cbn [span_n]. destruct (p c); [|reflexivity].
    specialize (IH t). destruct (span_n p k (t ++ w)), (span_n p k t).
    simpl in *. now rewrite IH.
Qed.

Lemma lt_not_tab (c : ascii) : is_line_terminator c = true -> Ascii.eqb c TAB = false.
Proof.
  intros H. destruct (Ascii.eqb c TAB) eqn:E; [|reflexivity].
  apply Ascii.eqb_eq in E. subst. discriminate.
Qed.

Lemma lt_not_sp (c : ascii) : is_line_terminator c = true -> eqc SP c = false.
Proof.
  intros H. unfold eqc. destruct (Ascii.eqb c SP) eqn:E; [|reflexivity].
  apply Ascii.eqb_eq in E. subst. discriminate.
Qed.

(** The indentation of a line does not depend on the lines after it. *)
Lemma indent_len_line (l : str) (sepc : ascii) (more : str) :
  is_line_terminator sepc = true ->
  indent_len (l ++ sepc :: more) = indent_len l.
Proof.
  intros Hs. destruct l as [|c t].
  - cbn [app]. unfold indent_len. rewrite lt_not_tab by exact Hs.
    now rewrite span_n_stop by (now apply lt_not_sp).
  - rewrite <- app_comm_cons. unfold indent_len.
    destruct (Ascii.eqb c TAB); [reflexivity|].
    rewrite app_comm_cons. f_equal. apply span_n_app_stop. now apply lt_not_sp.
Qed.

Lemma indent_len_le (l : str) : indent_len l <= length l.
Proof.
  destruct l as [|c t]; [reflexivity|]. unfold indent_len.
  destruct (Ascii.eqb c TAB); [simpl; lia|apply span_n_length].
Qed.

Lemma outdent_line_skipn (l : str) : outdent_line l = skipn (indent_len l) l.
Proof.
  destruct l as [|c t]; [reflexivity|]. unfold outdent_line, indent_len.
  destruct (Ascii.eqb c TAB); [reflexivity|]. symmetry. apply skipn_span_n.
Qed.

Lemma forallb_skipn (p : ascii -> bool) (n : nat) (l : str) :
  forallb p l = true -> forallb p (skipn n l) = true.
Proof.
  revert l. induction n as [|n IH]; intros l H; [exact H|].
  destruct l as [|c t]; [reflexivity|]. simpl in *.
  apply andb_prop in H. now apply IH.
Qed.

Lemma forallb_last (p : ascii -> bool) (l : str) (d : ascii) :
  forallb p l = true -> l <> [] -> p (last l d) = true.
Proof.
  intros H Hne. rewrite forallb_forall in H. apply H. now apply last_in.
Qed.

(** The tokens of a text that starts with a line: the indentation of the
    line is one match and the rest of the line is copied. *)
Lemma scan_outdent_head (l tail : str) (pv : option ascii) :
  forallb dot l = true -> bol pv = true ->
  indent_len (l ++ tail) = indent_len l ->
  flat_map (subst (const_str [])) (scan re_outdent pv (l ++ tail) 0) =
  outdent_line l
  ++ flat_map (subst (const_str []))
       (scan re_outdent (prev_after pv l) tail 0).
Proof.
  intros Hl Hpv Hi. rewrite outdent_line_skipn.
  pose proof (indent_len_le l) as Hle.
  destruct (indent_len l) as [|n] eqn:En.
  - rewrite scan_outdent_line; [|exact Hl|].
    + now rewrite flat_map_app_tokens, flat_map_subst_lit.
    + intros _. now rewrite exec_outdent, Hpv, Hi.
  - rewrite (scan_match re_outdent pv (l ++ tail) (S n) [(1, firstn (S n) (l ++ tail))]);
      [|now rewrite exec_outdent, Hpv, Hi|lia|rewrite length_app; lia].
    cbn [flat_map subst const_str app].
    rewrite firstn_app, skipn_app.
    replace (S n - length l) with 0 by lia.
    rewrite firstn_O, skipn_O, app_nil_r.
    assert (Hne : firstn (S n) l <> []) by (destruct l; [simpl in Hle; lia|discriminate]).
    rewrite scan_outdent_line.
    + rewrite flat_map_app_tokens, flat_map_subst_lit.
      rewrite <- prev_after_app, firstn_skipn. reflexivity.
    + now apply forallb_skipn.
    + intros _. rewrite exec_outdent.
      destruct (firstn (S n) l) as [|a w] eqn:Ef; [contradiction|].
      unfold prev_after. rewrite dot_not_bol; [reflexivity|].
      rewrite <- Ef. apply forallb_last; [|now rewrite Ef].
      rewrite <- (firstn_skipn (S n) l) in Hl. rewrite forallb_app in Hl.
      apply andb_prop in Hl. apply Hl.
Qed.

Lemma outdent_one_line (line : str) :
  forallb dot line = true -> outdent line = outdent_line line.
Proof.
  intros Hl. unfold outdent, gsub.
  rewrite <- (app_nil_r line) at 1.
  rewrite scan_outdent_head; [|exact Hl|reflexivity|now rewrite app_nil_r].
  cbn [scan]. rewrite exec_outdent. cbn [indent_len].
  destruct (bol (prev_after None line)); apply app_nil_r.
Qed.

Lemma outdent_first_line (line : str) (sepc : ascii) (more : str) :
  forallb dot line = true -> is_line_terminator sepc = true ->
  outdent (line ++ sepc :: more) = outdent_line line ++ sepc :: outdent more.
Proof.
  intros Hl Hs. unfold outdent, gsub.
  rewrite scan_outdent_head;
    [|exact Hl|reflexivity|now apply indent_len_line].
  f_equal.
  rewrite scan_nomatch.
  - cbn [flat_map subst app]. f_equal. f_equal.
    apply scan_first_pv. rewrite !exec_outdent. cbn [bol]. now rewrite Hs.
  - rewrite exec_outdent. unfold indent_len.
    rewrite lt_not_tab by exact Hs.
    rewrite span_n_stop by (now apply lt_not_sp).
    now destruct (bol (prev_after None line)).
Qed.

(** X5.  [outdent] works line by line: from a line it removes one tab,
    or else up to four spaces, at the start and nothing after that, and
    the text after a line terminator is outdented on its own. *)
Theorem outdent_lines (line : str) :
  forallb dot line = true ->
  outdent line = outdent_line line /\
  forall sepc more,
    is_line_terminator sepc = true ->
    outdent (line ++ sepc :: more) = outdent_line line ++ sepc :: outdent more.
Proof.
  intros Hl. split; [now apply outdent_one_line|].
  intros sepc more Hs. now apply outdent_first_line.
Qed.

Lemma outdent_lines_witness :
  outdent (lit "      six") = lit "  six" /\
  outdent (lit "  two" ++ LF :: TAB :: lit " tab") = lit "two" ++ LF :: lit " tab".
Proof.
  split.
  - apply (outdent_lines (lit "      six")). reflexivity.
  - rewrite (proj2 (outdent_lines (lit "  two") eq_refl) LF (TAB :: lit " tab") eq_refl).
    rewrite (proj1 (outdent_lines (TAB :: lit " tab") eq_refl)). reflexivity.
Defined.

(** ** [sanitizeHtml], once more *)

Lemma sanitizeHtml_free_prefix (whitelist : re) (pre x : str) :
  forallb (nec "<") pre = true ->
  sanitizeHtml (pre ++ x) whitelist = pre ++ sanitizeHtml x whitelist.
Proof.
  intros Hpre. unfold sanitizeHtml, gsub.
  rewrite scan_lits.
  - rewrite flat_map_app, flat_map_subst_lit. f_equal. f_equal.
    apply scan_pv. apply exec_tag_pv.
  - intros ch t pv Hin. apply exec_tag_not_lt.
    rewrite forallb_forall in Hpre. now apply Hpre.
Qed.

Lemma sanitizeHtml_no_tag (whitelist : re) (html : str) :
  forallb (nec "<") html = true -> sanitizeHtml html whitelist = html.
Proof.
  intros H. rewrite <- (app_nil_r html) at 1.
  rewrite sanitizeHtml_free_prefix by exact H.
  now rewrite app_nil_r.
Qed.

(** A text has no tag, or a first tag that is not closed, or a first tag
    that is closed and a text after it. *)
Lemma html_parts (html : str) :
  forallb (nec "<") html = true \/
  (exists pre body,
     html = pre ++ lit "<" ++ body /\
     forallb (nec "<") pre = true /\ forallb (nec ">") body = true) \/
  (exists pre body rest,
     html = pre ++ lit "<" ++ body ++ lit ">" ++ rest /\
     forallb (nec "<") pre = true /\ forallb (nec ">") body = true).
Proof.
  pose proof (span_app (nec "<") html) as E1.
  pose proof (span_all (nec "<") html) as A1.
  pose proof (span_stop (nec "<") html) as S1.
  destruct (snd (span (nec "<") html)) as [|c r].
  - left. rewrite <- E1, app_nil_r. exact A1.
  - right. apply nec_false in S1. subst c.
    pose proof (span_app (nec ">") r) as E2.
    pose proof (span_all (nec ">") r) as A2.
    pose proof (span_stop (nec ">") r) as S2.
    destruct (snd (span (nec ">") r)) as [|c2 rest].
    + left. exists (fst (span (nec "<") html)), (fst (span (nec ">") r)).
      split; [|now split].
      rewrite <- E1 at 1. rewrite <- E2 at 1. now rewrite app_nil_r.
    + right. apply nec_false in S2. subst c2.
      exists (fst (span (nec "<") html)), (fst (span (nec ">") r)), rest.
      split; [|now split].
      rewrite <- E1 at 1. rewrite <- E2 at 1. reflexivity.
Qed.

(** X6.  Sanitizing twice with the same whitelist is the same as
    sanitizing once, whatever the whitelist, and sanitizing never makes
    the text longer. *)
Theorem sanitizeHtml_idempotent (whitelist : re) (html : str) :
  sanitizeHtml (sanitizeHtml html whitelist) whitelist = sanitizeHtml html whitelist /\
  length (sanitizeHtml html whitelist) <= length html.
Proof.
  assert (Hle : length html <= length html) by lia.
  revert Hle. generalize (length html) at 2. intros n. revert html.
  induction n as [|n IH]; intros html Hn.
  - destruct html; [|simpl in Hn; lia]. split; reflexivity.
  - destruct (html_parts html)
      as [H|[(pre & body & -> & Hp & Hb)|(pre & body & rest & -> & Hp & Hb)]].
    + rewrite !(sanitizeHtml_no_tag whitelist html H). split; [reflexivity|lia].
    + (* the last tag is not closed *)
      rewrite sanitizeHtml_open by assumption.
      destruct (test whitelist (lit "<" ++ body)) eqn:Et.
      * rewrite sanitizeHtml_open by assumption. rewrite Et. split; [reflexivity|lia].
      * rewrite app_nil_r, sanitizeHtml_no_tag by exact Hp.
        split; [reflexivity|rewrite length_app; lia].
    + (* a closed tag, kept or removed, and the text after it *)
      rewrite sanitizeHtml_closed by assumption.
      destruct (IH rest) as [IH1 IH2].
      { rewrite !length_app in Hn. simpl in Hn. lia. }
      destruct (test whitelist (lit "<" ++ body ++ lit ">")) eqn:Et.
      * split.
        -- rewrite <- !app_assoc.
           rewrite sanitizeHtml_closed by assumption. now rewrite Et, IH1, <- !app_assoc.
        -- rewrite !length_app. simpl. lia.
      * cbn [app]. split.
        -- rewrite sanitizeHtml_free_prefix by exact Hp. now rewrite IH1.
        -- rewrite !length_app. simpl. lia.
Qed.

(** ** [inlineTags] looks at the start of the tag name only *)

Lemma some_alt_l (a b : re) (x : mstate) (c : cont) :
  is_some (m a x c) = true -> is_some (m (Alt a b) x c) = true.
Proof. rewrite m_alt. now destruct (m a x c). Qed.

Lemma some_alt_r (a b : re) (x : mstate) (c : cont) :
  is_some (m b x c) = true -> is_some (m (Alt a b) x c) = true.
Proof. rewrite m_alt. now destruct (m a x c). Qed.

Lemma some_alts (a : re) (x : mstate) (c : cont) :
  forall l, In a l -> is_some (m a x c) = true -> is_some (m (alts l) x c) = true.
Proof.
  induction l as [|b l IH]; intros Hin Ha; [contradiction|].
  destruct l as [|b' l'].
  - destruct Hin as [->|[]]. exact Ha.
  - change (alts (b :: b' :: l')) with (Alt b (alts (b' :: l'))).
    destruct Hin as [->|Hin]; [now apply some_alt_l|].
    apply some_alt_r. now apply IH.
Qed.

Lemma m_chr_hit (p : ascii -> bool) (pv : option ascii) (ch : ascii) (t : str)
    (g : list (nat * str)) (c : cont) :
  p ch = true -> m (Chr p) (MState pv (ch :: t) g) c = c (MState (Some ch) t g).
Proof. intros H. rewrite m_chr. cbn [rest caps]. now rewrite H. Qed.

Lemma some_opt_skip (a : re) (x : mstate) (c : cont) :
  is_some (c x) = true -> is_some (m (Opt a) x c) = true.
Proof.
  intros H. rewrite m_opt. destruct (rest x); [exact H|].
  now destruct (m a x _).
Qed.

Lemma some_opt_take (p : ascii -> bool) (pv : option ascii) (ch : ascii) (t : str)
    (g : list (nat * str)) (c : cont) :
  p ch = true -> is_some (c (MState (Some ch) t g)) = true ->
  is_some (m (Opt (Chr p)) (MState pv (ch :: t) g) c) = true.
Proof.
  intros Hp H. rewrite m_opt. cbn [rest].
  rewrite m_chr_hit by exact Hp. cbn [rest].
  assert (E : (length t =? S (length t)) = false) by (apply Nat.eqb_neq; lia).
  cbn [length]. rewrite E.
  now destruct (c (MState (Some ch) t g)).
Qed.

Lemma some_star (p : ascii -> bool) (x : mstate) (c : cont) :
  is_some (c (MState (prev_after (prev x) (fst (span p (rest x))))
                     (snd (span p (rest x))) (caps x))) = true ->
  is_some (m (Star (Chr p)) x c) = true.
Proof.
  intros H. unfold Star. rewrite m_rep_chr.
  destruct (c (MState (prev_after (prev x) (fst (span p (rest x))))
                      (snd (span p (rest x))) (caps x))) as [z|] eqn:E;
    [|discriminate].
  now rewrite (greedy_chr_longest p c (caps x) z) by (lia || exact E).
Qed.

(** A literal under the flag [i] reads any text that differs from it in
    letter case only. *)
Lemma m_litci (l : str) :
  forall u pv t g c,
    same_ci u l ->
    m (seqs (map (fun a => Chr (is_ci a)) l)) (MState pv (u ++ t) g) c =
    c (MState (prev_after pv u) t g).
Proof.
  induction l as [|a l IH]; intros u pv t g c Hu.
  - destruct u; [reflexivity|discriminate].
  - destruct u as [|ch u]; [discriminate|].
    unfold same_ci in Hu. cbn [map] in Hu. injection Hu as Hc Hu.
    cbn [map]. rewrite m_seqs_cons. rewrite <- app_comm_cons.
    rewrite m_chr_hit by (unfold is_ci; rewrite Hc; apply Ascii.eqb_refl).
    rewrite IH by exact Hu. now rewrite prev_after_cons.
Qed.

(** After the name, anything up to the closing bracket is accepted. *)
Lemma inline_tail (x0 : mstate) (pv : option ascii) (nm body : str) (name : string) :
  In name inline_names -> same_ci nm (lit name) ->
  forallb (nec ">") body = true ->
  is_some
    (m (seqs [Grp 2 (alts (map LitCI inline_names));
              Star (Chr (nec ">")); Chr (eqc ">")])
       (MState pv (nm ++ body ++ lit ">") [])
       (fun y => m (Eol false) (set_cap 1 x0 y) Some)) = true.
Proof.
  intros Hin Hnm Hb.
  rewrite m_seqs_cons, m_grp.
  apply (some_alts (LitCI name)); [now apply in_map|].
  unfold LitCI. rewrite m_litci by exact Hnm.
  rewrite m_seqs_cons.
  apply some_star. unfold set_cap. cbn [prev rest caps].
  rewrite (span_run (nec ">") body (lit ">")) by (exact Hb || reflexivity).
  cbn [fst snd seqs]. unfold lit at 1. cbn [list_ascii_of_string].
  rewrite m_chr_hit by reflexivity.
  reflexivity.
Qed.

Lemma inlineTags_accepts (name : string) (sl nm body : str) :
  In name inline_names -> same_ci nm (lit name) ->
  sl = [] \/ sl = lit "/" ->
  forallb (nec ">") body = true ->
  test inlineTags (lit "<" ++ sl ++ nm ++ body ++ lit ">") = true.
Proof.
  intros Hin Hnm Hsl Hb.
  set (s := lit "<" ++ sl ++ nm ++ body ++ lit ">").
  assert (H : is_some (m inlineTags (MState None s []) Some) = true).
  { unfold inlineTags. rewrite m_seqs_cons.
    assert (E : forall c, m (Bol false) (MState None s []) c = c (MState None s []))
      by reflexivity.
    rewrite E. clear E. rewrite m_seqs_cons, m_grp.
    apply some_alt_l. rewrite m_seqs_cons.
    subst s. unfold lit at 1. cbn [list_ascii_of_string app].
    rewrite m_chr_hit by reflexivity. rewrite m_seqs_cons.
    destruct Hsl as [->| ->].
    - cbn [app]. apply some_opt_skip.
      now apply (inline_tail _ (Some "<"%char) nm body name).
    - unfold lit at 1. cbn [list_ascii_of_string app].
      apply some_opt_take; [reflexivity|].
      now apply (inline_tail _ (Some "/"%char) nm body name). }
  unfold test. destruct s as [|ch t] eqn:Es.
  - cbn [search]. unfold exec_at. now destruct (m inlineTags (MState None [] []) Some).
  - cbn [search]. unfold exec_at.
    destruct (m inlineTags (MState None (ch :: t) []) Some); [reflexivity|discriminate].
Qed.

Lemma names_are_letters :
  forallb (fun name => forallb (fun a => nec ">" (to_upper a) && nec "/" (to_upper a))
                               (lit name))
          inline_names = true.
Proof. reflexivity. Qed.

Lemma to_upper_special (ch : ascii) :
  (nec ">" (to_upper ch) && nec "/" (to_upper ch) = true) ->
  nec ">" ch = true.
Proof.
  intros H. destruct (nec ">" ch) eqn:E; [reflexivity|].
  apply nec_false in E. subst ch. discriminate.
Qed.

Lemma name_no_bracket (name : string) (nm : str) :
  In name inline_names -> same_ci nm (lit name) -> forallb (nec ">") nm = true.
Proof.
  intros Hin Hnm.
  pose proof names_are_letters as HL. rewrite forallb_forall in HL.
  specialize (HL name Hin). unfold same_ci in Hnm.
  revert nm Hnm. induction (lit name) as [|a l IH]; intros nm Hnm.
  - destruct nm; [reflexivity|discriminate].
  - destruct nm as [|ch nm]; [discriminate|].
    cbn [map] in Hnm. injection Hnm as Hc Hnm.
    cbn [forallb] in HL. apply andb_prop in HL. destruct HL as [Ha Hl].
    cbn [forallb]. rewrite (IH Hl nm Hnm), andb_true_r.
    apply to_upper_special. now rewrite Hc.
Qed.

(** X7.  The whitelist of span-level tags checks only how the tag name
    starts: a tag, opening or closing, whose name starts with one of the
    listed names in any letter case is accepted whatever follows up to the
    closing bracket, so [sanitizeHtml] keeps it. *)
Theorem inlineTags_prefix (name : string) (sl nm body pre rest : str) :
  In name inline_names -> same_ci nm (lit name) ->
  sl = [] \/ sl = lit "/" ->
  forallb (nec ">") body = true ->
  forallb (nec "<") pre = true ->
  test inlineTags (lit "<" ++ sl ++ nm ++ body ++ lit ">") = true /\
  sanitizeHtml (pre ++ lit "<" ++ (sl ++ nm ++ body) ++ lit ">" ++ rest) inlineTags =
  pre ++ (lit "<" ++ (sl ++ nm ++ body) ++ lit ">") ++ sanitizeHtml rest inlineTags.
Proof.
  intros Hin Hnm Hsl Hb Hp.
  pose proof (inlineTags_accepts name sl nm body Hin Hnm Hsl Hb) as Ht.
  split; [exact Ht|].
  assert (Hbody : forallb (nec ">") (sl ++ nm ++ body) = true).
  { rewrite !forallb_app, Hb, andb_true_r.
    rewrite (name_no_bracket name nm Hin Hnm), andb_true_r.
    now destruct Hsl as [->| ->]. }
  rewrite sanitizeHtml_closed by assumption.
  rewrite <- !app_assoc. rewrite Ht. now rewrite <- !app_assoc.
Qed.

Lemma inlineTags_prefix_witness :
  test inlineTags (lit "<" ++ [] ++ lit "U" ++ lit "l class=x" ++ lit ">") = true /\
  sanitizeHtml (lit "a " ++ lit "<" ++ ([] ++ lit "U" ++ lit "l class=x") ++ lit ">"
                ++ lit "<li>b") inlineTags =
  lit "a " ++ (lit "<" ++ ([] ++ lit "U" ++ lit "l class=x") ++ lit ">")
  ++ sanitizeHtml (lit "<li>b") inlineTags.
Proof.
  apply (inlineTags_prefix "u" [] (lit "U") (lit "l class=x") (lit "a ") (lit "<li>b")).
  - unfold inline_names. repeat (try (left; reflexivity); right).
  - reflexivity.
  - now left.
  - reflexivity.
  - reflexivity.
Defined.

(** ** [processEscapes], once more *)

Lemma processEscapes_escapes (text : str) : processEscapes text = escapes text.
Proof.
  unfold processEscapes, re_esc_pipe, re_esc_colon.
  rewrite !gsub_lit2. apply pipe_then_colon.
Qed.

Lemma has2_cons (a b c : ascii) (t : str) :
  has2 a b (c :: t) =
  match t with
  | d :: _ => (Ascii.eqb c a && Ascii.eqb d b) || has2 a b t
  | [] => false
  end.
Proof. reflexivity. Qed.

Lemma search_lit2 (a b : ascii) (s : str) :
  forall pv, is_some (search (Seq (Chr (eqc a)) (Chr (eqc b))) pv s) = has2 a b s.
Proof.
  induction s as [|c t IH]; intros pv.
  - reflexivity.
  - cbn [search]. rewrite exec_lit2, has2_cons.
    destruct t as [|d t'].
    + cbn [search]. rewrite exec_lit2. reflexivity.
    + destruct (Ascii.eqb c a && Ascii.eqb d b); [reflexivity|].
      specialize (IH (Some c)). cbn [orb].
      destruct (search (Seq (Chr (eqc a)) (Chr (eqc b))) (Some c) (d :: t'));
        exact IH.
Qed.

Lemma test_lit2 (a b : ascii) (s : str) :
  test (Seq (Chr (eqc a)) (Chr (eqc b))) s = has2 a b s.
Proof.
  unfold test. rewrite <- (search_lit2 a b s None).
  now destruct (search _ None s).
Qed.

Lemma has2_free_prefix (a b : ascii) (u t : str) :
  forallb (nec a) u = true -> has2 a b (u ++ t) = has2 a b t.
Proof.
  induction u as [|c u IH]; intros H; [reflexivity|].
  simpl in H. apply andb_prop in H. destruct H as [Hc Hu].
  rewrite <- app_comm_cons, has2_cons.
  unfold nec in Hc. apply negb_true_iff in Hc.
  destruct (u ++ t) eqn:E.
  - destruct u; [|discriminate]. cbn [app] in E. now subst.
  - rewrite Hc. cbn [andb orb]. now apply IH.
Qed.

(** The first character of the output of [escapes]: that of the input,
    or the ampersand of an entity. *)
Lemma escapes_head (d : ascii) (t : str) :
  exists h r, escapes (d :: t) = h :: r /\ (h = d \/ h = "&"%char).
Proof.
  destruct t as [|d' t'].
  - exists d, []. split; [reflexivity|now left].
  - rewrite escapes_cons2.
    destruct (Ascii.eqb d "\" && Ascii.eqb d' "|").
    + eexists _, _. split; [reflexivity|now right].
    + destruct (Ascii.eqb d "\" && Ascii.eqb d' ":").
      * eexists _, _. split; [reflexivity|now right].
      * exists d, (escapes (d' :: t')). split; [reflexivity|now left].
Qed.

(** No escaped pipe and no escaped colon is left after [escapes]. *)
Lemma escapes_done (b : ascii) :
  b = "|"%char \/ b = ":"%char ->
  forall s, has2 "\" b (escapes s) = false.
Proof.
  intros Hb. induction s as [| c | c d t IHt IHdt] using str_ind2.
  - reflexivity.
  - reflexivity.
  - rewrite escapes_cons2.
    destruct (Ascii.eqb c "\" && Ascii.eqb d "|") eqn:E1.
    + rewrite has2_free_prefix by reflexivity. exact IHt.
    + destruct (Ascii.eqb c "\" && Ascii.eqb d ":") eqn:E2.
      * rewrite has2_free_prefix by reflexivity. exact IHt.
      * destruct (escapes_head d t) as (h & r & Eh & Hh).
        rewrite Eh in *. rewrite has2_cons, IHdt, orb_false_r.
        destruct (Ascii.eqb c "\") eqn:Ec; [|reflexivity].
        cbn [andb] in *.
        destruct Hh as [->| ->].
        -- destruct Hb as [->| ->]; assumption.
        -- destruct Hb as [->| ->]; reflexivity.
Qed.

(** X8.  After [processEscapes] no escaped pipe and no escaped colon is
    left in the text, so escaping a second time changes nothing. *)
Theorem processEscapes_idempotent (text : str) :
  test re_esc_pipe (processEscapes text) = false /\
  test re_esc_colon (processEscapes text) = false /\
  processEscapes (processEscapes text) = processEscapes text.
Proof.
  assert (H1 : test re_esc_pipe (processEscapes text) = false).
  { unfold re_esc_pipe. rewrite test_lit2, processEscapes_escapes.
    apply escapes_done. now left. }
  assert (H2 : test re_esc_colon (processEscapes text) = false).
  { unfold re_esc_colon. rewrite test_lit2, processEscapes_escapes.
    apply escapes_done. now right. }
  split; [exact H1|]. split; [exact H2|].
  unfold processEscapes at 1.
  rewrite (gsub_no_match re_esc_pipe _ _ H1).
  apply (gsub_no_match re_esc_colon _ _ H2).
Qed.

(** ** [encodeCode] *)

Lemma encode_char_no_angle (c : ascii) : no_angle (encode_char c) = true.
Proof.
  unfold encode_char.
  destruct (Ascii.eqb c "&") eqn:E1; [reflexivity|].
  destruct (Ascii.eqb c "<") eqn:E2; [reflexivity|].
  destruct (Ascii.eqb c ">") eqn:E3; [reflexivity|].
  unfold no_angle. cbn [forallb]. now rewrite E2, E3.
Qed.

(** The first character of an entity is an ampersand, and the entities
    differ in their second character. *)
Lemma encode_char_inj (a b : ascii) (s t : str) :
  encode_char a ++ s = encode_char b ++ t -> a = b /\ s = t.
Proof.
  unfold encode_char.
  destruct (Ascii.eqb a "&") eqn:A1; [apply Ascii.eqb_eq in A1; subst a|];
  [|destruct (Ascii.eqb a "<") eqn:A2; [apply Ascii.eqb_eq in A2; subst a|]];
  [| |destruct (Ascii.eqb a ">") eqn:A3; [apply Ascii.eqb_eq in A3; subst a|]];
  (destruct (Ascii.eqb b "&") eqn:B1; [apply Ascii.eqb_eq in B1; subst b|];
   [|destruct (Ascii.eqb b "<") eqn:B2; [apply Ascii.eqb_eq in B2; subst b|]];
   [| |destruct (Ascii.eqb b ">") eqn:B3; [apply Ascii.eqb_eq in B3; subst b|]]);
  cbn [lit list_ascii_of_string app]; intros E;
  try discriminate E;
  try (injection E as E; subst; split; reflexivity);
  try (injection E as E1 E2; subst;
       first [ rewrite Ascii.eqb_refl in A1; discriminate
             | rewrite Ascii.eqb_refl in B1; discriminate
             | split; reflexivity ]).
Qed.

Lemma encodeCode_inj (a : str) :
  forall b, encodeCode a = encodeCode b -> a = b.
Proof.
  induction a as [|x a IH]; intros b E; rewrite !encodeCode_chars in E.
  - destruct b as [|y b]; [reflexivity|].
    cbn [flat_map] in E. unfold encode_char in E.
    destruct (Ascii.eqb y "&"); [discriminate|].
    destruct (Ascii.eqb y "<"); [discriminate|].
    destruct (Ascii.eqb y ">"); discriminate.
  - destruct b as [|y b].
    + cbn [flat_map] in E. unfold encode_char in E.
      destruct (Ascii.eqb x "&"); [discriminate|].
      destruct (Ascii.eqb x "<"); [discriminate|].
      destruct (Ascii.eqb x ">"); discriminate.
    + cbn [flat_map] in E. apply encode_char_inj in E. destruct E as [-> E].
      f_equal. apply IH. now rewrite !encodeCode_chars.
Qed.

(** X9.  The encoded code block has no angle bracket left in it, and
    encoding loses nothing: two code blocks with the same encoding are
    the same. *)
Theorem encodeCode_faithful (code : str) :
  no_angle (encodeCode code) = true /\
  forall other, encodeCode code = encodeCode other -> code = other.
Proof.
  split; [|apply encodeCode_inj].
  rewrite encodeCode_chars. unfold no_angle.
  induction code as [|c t IH]; [reflexivity|].
  cbn [flat_map]. rewrite forallb_app, IH, andb_true_r.
  apply encode_char_no_angle.
Qed.

Lemma encodeCode_faithful_witness :
  no_angle (encodeCode (lit "a<b>&c")) = true /\ lit "a<b>&c" = lit "a<b>&c".
Proof.
  split.
  - apply (encodeCode_faithful (lit "a<b>&c")).
  - apply (proj2 (encodeCode_faithful (lit "a<b>&c")) (lit "a<b>&c")). reflexivity.
Defined.

(** ** The store of blocks, once more *)

Lemma unHash_nil (e : Extra) : unHashExtraBlocks e [] = [].
Proof. now apply unHash_no_tilde. Qed.

Lemma unHash_placeholder (e : Extra) (k : nat) :
  unHashExtraBlocks e (placeholder k) = block_at (hashBlocks e) (Some k).
Proof.
  pose proof (unHash_embed e [] k []) as H.
  rewrite app_nil_r in H. cbn [app] in H.
  rewrite H, unHash_nil, app_nil_r. reflexivity.
Qed.

Lemma placeholder_inj (a b : nat) : placeholder a = placeholder b -> a = b.
Proof.
  unfold placeholder. intros H.
  apply app_inv_head in H. apply app_inv_tail in H.
  pose proof (parseInt_toString a) as Ha. rewrite H, parseInt_toString in Ha.
  now injection Ha.
Qed.

Lemma hashExtraBlock_fst (block : str) (e : Extra) :
  fst (hashExtraBlock block e) = placeholder (length (hashBlocks e)).
Proof.
  unfold hashExtraBlock. cbn [fst]. f_equal.
  rewrite length_app. simpl. lia.
Qed.

Lemma hashExtraBlock_snd (block : str) (e : Extra) :
  snd (hashExtraBlock block e) = set_hashBlocks e (hashBlocks e ++ [block]).
Proof. reflexivity. Qed.

Lemma str_eqb_eq (a : str) : forall b, str_eqb a b = true <-> a = b.
Proof.
  induction a as [|x a IH]; intros [|y b]; cbn [str_eqb]; try (split; (reflexivity || discriminate)).
  rewrite andb_true_iff, Ascii.eqb_eq, IH. split.
  - now intros [-> ->].
  - intros [= -> ->]. now split.
Qed.

(** X10.  [hashExtraBlock] stores the block after those already there
    and returns the placeholder of its index: restoring that placeholder
    gives the block back, and the placeholders handed out before restore
    as they did.  Two indices have the same placeholder only if they are
    the same index. *)
Theorem hashExtraBlock_restores (e : Extra) (block : str) (k j : nat) :
  let ph := fst (hashExtraBlock block e) in
  let e' := snd (hashExtraBlock block e) in
  ph = placeholder (length (hashBlocks e)) /\
  hashBlocks e' = hashBlocks e ++ [block] /\
  unHashExtraBlocks e' ph = block /\
  (k < length (hashBlocks e) ->
   unHashExtraBlocks e' (placeholder k) = unHashExtraBlocks e (placeholder k)) /\
  str_eqb (placeholder k) (placeholder j) = (k =? j).
Proof.
  cbv zeta. rewrite hashExtraBlock_fst, hashExtraBlock_snd.
  split; [reflexivity|]. split; [reflexivity|]. split; [|split].
  - rewrite unHash_placeholder. cbn [hashBlocks set_hashBlocks]. unfold block_at.
    rewrite nth_error_app2 by lia. now rewrite Nat.sub_diag.
  - intros Hk. rewrite !unHash_placeholder. cbn [hashBlocks set_hashBlocks].
    unfold block_at. now rewrite nth_error_app1 by exact Hk.
  - destruct (k =? j) eqn:E.
    + apply Nat.eqb_eq in E. subst j. now apply str_eqb_eq.
    + destruct (str_eqb (placeholder k) (placeholder j)) eqn:E2; [|reflexivity].
      apply str_eqb_eq, placeholder_inj in E2. apply Nat.eqb_neq in E. contradiction.
Qed.

Lemma hashExtraBlock_restores_witness :
  let e := set_hashBlocks (new_Extra para_host) [lit "<b>x</b>"] in
  unHashExtraBlocks (snd (hashExtraBlock (lit "<i>y</i>") e)) (placeholder 0) =
  unHashExtraBlocks e (placeholder 0).
Proof.
  cbv zeta.
  apply (hashExtraBlock_restores
           (set_hashBlocks (new_Extra para_host) [lit "<b>x</b>"]) (lit "<i>y</i>") 0 0).
  simpl. lia.
Defined.

(** *** The index of a placeholder is read as a number *)

Lemma parseInt_zero (s : str) :
  s <> [] -> parseInt ("0"%char :: s) = parseInt s.
Proof.
  intros Hs. unfold parseInt. destruct s as [|c t]; [contradiction|].
  cbn [string_of_list_ascii]. unfold NilZero.uint_of_string.
  cbn [NilEmpty.uint_of_string].
  destruct (uint_of_char c (NilEmpty.uint_of_string (string_of_list_ascii t)));
    reflexivity.
Qed.

Lemma parseInt_zeros (z k : nat) :
  parseInt (repeat "0"%char z ++ toString k) = Some k.
Proof.
  induction z as [|z IH]; [apply parseInt_toString|].
  cbn [repeat app]. rewrite parseInt_zero; [exact IH|].
  destruct (toString_digits k) as [Hne _].
  destruct (repeat "0"%char z); [exact Hne|discriminate].
Qed.

(** X11.  The digits of a placeholder are read with [parseInt], so an
    index written with leading zeros is restored like the placeholder
    of that index. *)
Theorem unHash_leading_zeros (e : Extra) (t0 t1 : str) (z k : nat) :
  unHashExtraBlocks e
    (t0 ++ lit "<p>~X" ++ (repeat "0"%char z ++ toString k) ++ lit "X</p>" ++ t1) =
  unHashExtraBlocks e (t0 ++ placeholder k ++ t1).
Proof.
  destruct (toString_digits k) as [Hne Hd].
  rewrite unHash_embed_digits.
  - rewrite parseInt_zeros. now rewrite unHash_embed.
  - destruct (repeat "0"%char z); [exact Hne|discriminate].
  - rewrite forallb_app, Hd, andb_true_r. now apply forallb_repeat.
Qed.

(** *** The recognizers only add blocks *)

Lemma extends_refl (e : Extra) : extends e e.
Proof. exists []. destruct e. unfold set_hashBlocks. cbn. now rewrite app_nil_r. Qed.

Lemma extends_trans (a b c : Extra) : extends a b -> extends b c -> extends a c.
Proof.
  intros [n1 ->] [n2 ->]. exists (n1 ++ n2).
  rewrite set_hashBlocks_idem. cbn [hashBlocks set_hashBlocks].
  now rewrite app_assoc.
Qed.

Lemma extends_hash (block : str) (e : Extra) : extends e (snd (hashExtraBlock block e)).
Proof. now exists [block]. Qed.

Lemma extends_substS (f : str -> list (nat * str) -> Extra -> str * Extra) :
  (forall w g e, extends e (snd (f w g e))) ->
  forall ts e, extends e (snd (substS f ts e)).
Proof.
  intros Hf. induction ts as [|[c|w g] ts IH]; intros e.
  - apply extends_refl.
  - cbn [substS]. specialize (IH e). destruct (substS f ts e). exact IH.
  - cbn [substS]. specialize (Hf w g e). destruct (f w g e) as [o1 e1].
    specialize (IH e1). destruct (substS f ts e1) as [o2 e2].
    cbn [snd] in *. now apply (extends_trans e e1 e2).
Qed.

Lemma extends_tables (text : str) (e : Extra) : extends e (snd (tables text e)).
Proof.
  unfold tables, gsubS.
  pose proof (extends_substS doTable (fun w g e => extends_hash _ e)) as H.
  pose proof (H (scan leadingPipe None text 0) e) as H1.
  destruct (substS doTable (scan leadingPipe None text 0) e) as [t1 e1].
  cbn [snd] in H1. apply (extends_trans e e1 _ H1). apply H.
Qed.

Lemma extends_fenced (text : str) (e : Extra) :
  extends e (snd (fencedCodeBlocks text e)).
Proof.
  unfold fencedCodeBlocks, gsubS. apply extends_substS.
  intros w g e0. apply extends_hash.
Qed.

Lemma extends_definitionLists (text : str) (e : Extra) :
  extends e (snd (definitionLists text e)).
Proof.
  unfold definitionLists, gsubS.
  match goal with
  | |- extends e (snd (let (t, e0) := substS ?f ?ts e in _)) =>
    assert (H : extends e (snd (substS f ts e)));
      [|destruct (substS f ts e); exact H]
  end.
  apply extends_substS. intros w g e0.
  pose proof (extends_hash (lit "<dl>" ++ [LF]
                            ++ trim (processDefListItems e0 (cap 2 g))
                            ++ [LF] ++ lit "</dl>") e0) as H.
  destruct (hashExtraBlock _ e0). exact H.
Qed.

Lemma extends_run (t : transformation) (text : str) (e : Extra) :
  extends e (snd (run t text e)).
Proof.
  destruct t; cbn [run].
  - unfold all. pose proof (extends_tables text e) as H1.
    destruct (tables text e) as [t1 e1]. cbn [snd] in H1.
    apply (extends_trans e e1 _ H1). apply extends_fenced.
  - apply extends_tables.
  - apply extends_fenced.
  - apply extends_definitionLists.
Qed.

Lemma extends_run_all (ts : list transformation) :
  forall text e, extends e (snd (run_all ts text e)).
Proof.
  induction ts as [|t ts IH]; intros text e; [apply extends_refl|].
  cbn [run_all]. pose proof (extends_run t text e) as H1.
  destruct (run t text e) as [t1 e1]. cbn [snd] in H1.
  apply (extends_trans e e1 _ H1). apply IH.
Qed.

(** X12.  The recognizers only ever add blocks after those already
    stored and change nothing else of the extension's state, in whatever
    order they run.  The pre-conversion hook empties the store before it
    runs them: the store it leaves holds exactly the blocks its
    recognizers add when started on the empty store, so neither its text
    nor its store depends on what the store held before, and on a text
    that no recognizer touches the store is left empty. *)
Theorem recognizers_append_only (ts : list transformation) (text : str) (e : Extra) :
  (exists new, snd (run_all ts text e) = set_hashBlocks e (hashBlocks e ++ new)) /\
  (exists new,
     snd (run_all ts (processEscapes text) (set_hashBlocks e [])) = set_hashBlocks e new /\
     snd (doConversion ts text e) = set_hashBlocks e new /\
     hashBlocks (snd (doConversion ts text e)) = new) /\
  (forall stored,
     doConversion ts text (set_hashBlocks e stored) = doConversion ts text e) /\
  (plain text = true -> hashBlocks (snd (doConversion ts text e)) = []).
Proof.
  split; [apply extends_run_all|].
  split; [|split].
  - unfold doConversion.
    pose proof (extends_run_all ts (processEscapes text) (set_hashBlocks e [])) as [new H].
    destruct (run_all ts (processEscapes text) (set_hashBlocks e [])) as [t1 e1].
    cbn [snd] in *. exists new.
    rewrite H, set_hashBlocks_idem. cbn [hashBlocks set_hashBlocks app]. auto.
  - intros stored. unfold doConversion. now rewrite set_hashBlocks_idem.
  - intros Hp. unfold doConversion.
    rewrite (processEscapes_plain text Hp), (run_all_plain ts text _ Hp).
    reflexivity.
Qed.

Lemma recognizers_append_only_witness :
  let e := set_hashBlocks (new_Extra para_host) [lit "<pre>old</pre>"] in
  plain (lit "plain words") = true /\
  hashBlocks (snd (doConversion [T_tables; T_fencedCodeBlocks] (lit "plain words") e)) = [].
Proof.
  split; [reflexivity|].
  apply (recognizers_append_only [T_tables; T_fencedCodeBlocks] (lit "plain words")); reflexivity.
Defined.

(** ** Splitting a row into cells *)

Lemma pipe_refuses_sp (l : list re) (c : cont) :
  refuses (eqc SP) (fun y => m (seqs (pipe :: l)) y c).
Proof.
  intros pv ch t g H. rewrite m_seqs_cons. unfold pipe. rewrite m_chr. cbn [rest].
  unfold eqc in *. apply Ascii.eqb_eq in H. now subst ch.
Qed.

(** What the separator pattern does at one position: spaces, one pipe,
    spaces. *)
Lemma exec_cell_sep (pv : option ascii) (s : str) :
  exec_at re_cell_sep pv s =
  match snd (span (eqc SP) s) with
  | c :: r' =>
    if Ascii.eqb c "|"
    then Some (S (length (fst (span (eqc SP) s)) + length (fst (span (eqc SP) r'))), [])
    else None
  | [] => None
  end.
Proof.
  unfold exec_at, re_cell_sep, sp. rewrite m_seqs_cons.
  unfold Star at 1. rewrite m_rep_chr. cbn [prev rest caps].
  rewrite (greedy_chr_only (eqc SP) _ [] (pipe_refuses_sp _ _)).
  cbn [Nat.leb].
  pose proof (length_span (eqc SP) s) as HL.
  destruct (snd (span (eqc SP) s)) as [|c r']; [reflexivity|].
  rewrite m_seqs_cons. unfold pipe. rewrite m_chr. cbn [rest caps]. unfold eqc at 1.
  destruct (Ascii.eqb c "|"); [|reflexivity].
  cbn [seqs]. unfold Star. rewrite m_rep_chr. cbn [prev rest caps].
  rewrite (greedy_chr_longest (eqc SP) Some []
             (MState (prev_after (Some c) (fst (span (eqc SP) r')))
                     (snd (span (eqc SP) r')) []))
    by (lia || reflexivity).
  cbn [rest caps]. f_equal. f_equal.
  pose proof (length_span (eqc SP) r') as HL2. simpl in HL. lia.
Qed.

Lemma count_chr_app (c : ascii) (a b : str) :
  count_chr c (a ++ b) = count_chr c a + count_chr c b.
Proof. unfold count_chr. now rewrite filter_app, length_app. Qed.

Lemma count_chr_none (c : ascii) (a : str) :
  forallb (nec c) a = true -> count_chr c a = 0.
Proof.
  induction a as [|x a IH]; intros H; [reflexivity|].
  simpl in H. apply andb_prop in H. destruct H as [Hx Ha].
  unfold count_chr. cbn [filter]. unfold nec in Hx. unfold eqc at 1.
  apply negb_true_iff in Hx. rewrite Hx. now apply IH.
Qed.

Lemma spaces_no_pipe (a : str) :
  forallb (eqc SP) a = true -> forallb (nec "|") a = true.
Proof.
  intros H. rewrite forallb_forall in *. intros x Hx.
  specialize (H x Hx). unfold eqc in H. apply Ascii.eqb_eq in H. now subst x.
Qed.

Lemma count_chr_cons_ne (c x : ascii) (t : str) :
  nec c x = true -> count_chr c (x :: t) = count_chr c t.
Proof.
  intros H. unfold count_chr. cbn [filter]. unfold nec in H. unfold eqc at 1.
  apply negb_true_iff in H. now rewrite H.
Qed.

(** Where the separator pattern does not match, the character is not a
    pipe. *)
Lemma cell_sep_none (pv : option ascii) (ch : ascii) (t : str) :
  exec_at re_cell_sep pv (ch :: t) = None -> nec "|" ch = true.
Proof.
  rewrite exec_cell_sep. intros H.
  destruct (nec "|" ch) eqn:N; [reflexivity|].
  apply nec_false in N. subst ch. discriminate H.
Qed.

(** A match of the separator pattern has exactly one pipe in it. *)
Lemma cell_sep_some (pv : option ascii) (s : str) (n : nat) (g : list (nat * str)) :
  exec_at re_cell_sep pv s = Some (n, g) ->
  0 < n <= length s /\ count_chr "|" s = S (count_chr "|" (skipn n s)).
Proof.
  rewrite exec_cell_sep.
  pose proof (span_app (eqc SP) s) as E.
  pose proof (span_all (eqc SP) s) as A.
  destruct (snd (span (eqc SP) s)) as [|c r'] eqn:Er; [discriminate|].
  destruct (Ascii.eqb c "|") eqn:Ec; [|discriminate].
  apply Ascii.eqb_eq in Ec. subst c. intros [= <- _].
  pose proof (span_app (eqc SP) r') as E2.
  pose proof (span_all (eqc SP) r') as A2.
  remember (fst (span (eqc SP) s)) as a eqn:Ea.
  remember (fst (span (eqc SP) r')) as b eqn:Eb.
  remember (snd (span (eqc SP) r')) as r2 eqn:Er2.
  assert (Hs : s = (a ++ ["|"%char] ++ b) ++ r2).
  { rewrite <- E, <- E2. now rewrite <- !app_assoc. }
  assert (Hlen : length (a ++ ["|"%char] ++ b) = S (length a + length b)).
  { rewrite !length_app. simpl. lia. }
  clear Ea Eb Er2 E E2 Er.
  split.
  - rewrite Hs, length_app, Hlen. lia.
  - assert (Hk : skipn (length (a ++ ["|"%char] ++ b)) ((a ++ ["|"%char] ++ b) ++ r2) = r2)
      by now rewrite skipn_app, Nat.sub_diag, skipn_all, skipn_O.
    rewrite Hs, <- Hlen, Hk. rewrite !count_chr_app.
    rewrite (count_chr_none "|" a) by (now apply spaces_no_pipe).
    rewrite (count_chr_none "|" b) by (now apply spaces_no_pipe).
    reflexivity.
Qed.

(** Every pipe is in one separator and every separator has one pipe. *)
Lemma length_split_cells_go (s : str) :
  forall pv skip piece,
    skip <= length s ->
    length (split_go re_cell_sep pv s skip piece) = S (count_chr "|" (skipn skip s)).
Proof.
  induction s as [|ch t IH]; intros pv skip piece Hs.
  - destruct skip; [reflexivity|simpl in Hs; lia].
  - destruct skip as [|k].
    + cbn [split_go skipn].
      destruct (exec_at re_cell_sep pv (ch :: t)) as [[n g]|] eqn:E.
      * apply cell_sep_some in E. destruct E as [Hn Hc].
        destruct n as [|n]; [lia|].
        cbn [length]. rewrite IH by (simpl in Hn; lia).
        rewrite Hc. reflexivity.
      * apply cell_sep_none in E. rewrite IH by lia.
        cbn [skipn]. now rewrite count_chr_cons_ne.
    + cbn [split_go skipn]. apply IH. simpl in Hs. lia.
Qed.

Lemma forallb_rev (p : ascii -> bool) (l : str) :
  forallb p l = true -> forallb p (rev l) = true.
Proof.
  intros H. rewrite forallb_forall in *. intros x Hx. apply H. now apply in_rev.
Qed.

Lemma split_cells_go_free (s : str) :
  forall pv skip piece,
    forallb (nec "|") piece = true ->
    forallb (forallb (nec "|")) (split_go re_cell_sep pv s skip piece) = true.
Proof.
  induction s as [|ch t IH]; intros pv skip piece Hp.
  - cbn [split_go forallb]. now rewrite forallb_rev.
  - destruct skip as [|k]; [|now apply IH].
    cbn [split_go].
    destruct (exec_at re_cell_sep pv (ch :: t)) as [[n g]|] eqn:E.
    + apply cell_sep_some in E. destruct E as [Hn _].
      destruct n as [|n]; [lia|].
      cbn [forallb]. rewrite forallb_rev by exact Hp. now apply IH.
    + apply cell_sep_none in E. apply IH. cbn [forallb]. now rewrite E, Hp.
Qed.

(** X13.  A row is split into one cell more than it has pipes, whatever
    the spaces around them, and no cell has a pipe in it. *)
Theorem cells_count_pipes (row : str) :
  length (split_re re_cell_sep row) = S (count_chr "|" row) /\
  forallb (forallb (nec "|")) (split_re re_cell_sep row) = true.
Proof.
  destruct row as [|ch t].
  - unfold split_re. rewrite exec_cell_sep. split; reflexivity.
  - unfold split_re. split.
    + now rewrite length_split_cells_go by (simpl; lia).
    + now apply split_cells_go_free.
Qed.

(** ** What a table needs *)

Lemma leadingPipe_needs :
  must (eqc LF) leadingPipe = true /\ must (one_of ["-"; ":"]%char) leadingPipe = true.
Proof. split; reflexivity. Qed.

Lemma noLeadingPipe_needs :
  must (eqc LF) noLeadingPipe = true /\
  must (one_of ["-"; ":"]%char) noLeadingPipe = true.
Proof. split; reflexivity. Qed.

(** X14.  A table needs a header line, a separator line and a pipe: a
    text with no newline, or with neither a dash nor a colon, or with no
    pipe, is returned by [tables] as it is and nothing is stored. *)
Theorem tables_needs_separator (text : str) (e : Extra) :
  forallb (nec LF) text = true \/
  forallb (fun c => negb (one_of ["-"; ":"]%char c)) text = true \/
  forallb (nec "|") text = true ->
  tables text e = (text, e).
Proof.
  intros H. apply tables_no_match.
  - destruct H as [H|[H|H]].
    + apply (test_must (eqc LF)); [apply leadingPipe_needs|exact H].
    + apply (test_must (one_of ["-"; ":"]%char)); [apply leadingPipe_needs|exact H].
    + apply (test_must (eqc "|")); [apply leadingPipe_must|exact H].
  - destruct H as [H|[H|H]].
    + apply (test_must (eqc LF)); [apply noLeadingPipe_needs|exact H].
    + apply (test_must (one_of ["-"; ":"]%char)); [apply noLeadingPipe_needs|exact H].
    + apply (test_must (eqc "|")); [apply noLeadingPipe_must|exact H].
Qed.

Lemma tables_needs_separator_witness :
  tables (lit "| a | b |") (new_Extra para_host) = (lit "| a | b |", new_Extra para_host)
  /\ tables (lit "a | b" ++ [LF] ++ lit "c | d" ++ [LF]) (new_Extra para_host) =
     (lit "a | b" ++ [LF] ++ lit "c | d" ++ [LF], new_Extra para_host).
Proof.
  split.
  - apply (tables_needs_separator (lit "| a | b |")). left. reflexivity.
  - apply (tables_needs_separator (lit "a | b" ++ [LF] ++ lit "c | d" ++ [LF])).
    right. left. reflexivity.
Defined.

(** ** One fenced code block *)

Lemma rep_lazy_step (ma : mstate -> cont -> option mstate) (f : nat)
    (x : mstate) (c : cont) :
  rep ma false (S f) 0 None x c =
  match c x with
  | Some z => Some z
  | None =>
    ma x (fun y => if length (rest y) =? length (rest x) then None
                   else rep ma false f 0 None y c)
  end.
Proof. reflexivity. Qed.

Lemma rep_lazy_chr (p : ascii -> bool) (c : cont) (g : list (nat * str)) :
  forall fuel pv s,
    length s <= fuel ->
    rep (m (Chr p)) false fuel 0 None (MState pv s g) c = lazy_chr p pv s g c.
Proof.
  induction fuel as [|f IH]; intros pv s Hf.
  - destruct s; [|simpl in Hf; lia]. cbn [rep lazy_chr].
    now destruct (c (MState pv [] g)).
  - rewrite rep_lazy_step.
    destruct s as [|ch t]; cbn [lazy_chr];
      destruct (c (MState pv _ g)); try reflexivity.
    rewrite m_chr. cbn [rest caps].
    destruct (p ch); [|reflexivity].
    assert (E : (length t =? length (ch :: t)) = false)
      by (apply Nat.eqb_neq; simpl; lia).
    rewrite E. apply IH. simpl in Hf. lia.
Qed.

Lemma m_lazy_chr (p : ascii -> bool) (x : mstate) (c : cont) :
  m (LazyStar (Chr p)) x c = lazy_chr p (prev x) (rest x) (caps x) c.
Proof.
  destruct x as [pv s g]. unfold LazyStar. rewrite m_rep. cbn [rest prev caps].
  now apply rep_lazy_chr.
Qed.

(** The lazy repetition stops at the first position the continuation
    accepts. *)
Lemma lazy_chr_first (c : cont) (g : list (nat * str)) (w : str) (z : mstate) :
  forall body pv,
    (forall k, k < length body ->
       c (MState (prev_after pv (firstn k body)) (skipn k body ++ w) g) = None) ->
    c (MState (prev_after pv body) w g) = Some z ->
    lazy_chr any pv (body ++ w) g c = Some z.
Proof.
  induction body as [|ch t IH]; intros pv Hno Hyes.
  - destruct w; cbn [app lazy_chr]; cbn [prev_after] in Hyes; now rewrite Hyes.
  - rewrite <- app_comm_cons. cbn [lazy_chr].
    pose proof (Hno 0) as H0. cbn [firstn skipn prev_after] in H0.
    rewrite <- app_comm_cons in H0. rewrite H0 by (simpl; lia).
    cbn [any]. apply IH.
    + intros k Hk. specialize (Hno (S k)).
      cbn [firstn skipn] in Hno. rewrite prev_after_cons in Hno.
      apply Hno. simpl. lia.
    + now rewrite prev_after_cons in Hyes.
Qed.

Lemma has_fence_skipn (body : str) :
  has_fence body = false ->
  forall k, k < length body -> strip fence (skipn k body) = None.
Proof.
  induction body as [|ch t IH]; intros H k Hk; [simpl in Hk; lia|].
  cbn [has_fence] in H. apply orb_false_iff in H. destruct H as [H1 H2].
  destruct k as [|k].
  - cbn [skipn]. now destruct (strip fence (ch :: t)).
  - cbn [skipn]. apply IH; [exact H2|simpl in Hk; lia].
Qed.

(** A closing fence that follows the body is not seen from inside it. *)
Lemma strip_fence_inside (q post : str) :
  q <> [] -> strip fence q = None -> strip fence (q ++ fence ++ post) = None.
Proof.
  intros Hq H. rewrite strip_app_stable; [now rewrite H| |exact Hq].
  intros k Hk. unfold fence in *. cbn [lit list_ascii_of_string length] in Hk.
  destruct k as [|[|[|[|k]]]]; try lia; reflexivity.
Qed.

Lemma firstn_app_length (a b : str) : firstn (length (a ++ b) - length b) (a ++ b) = a.
Proof.
  rewrite length_app. replace (length a + length b - length b) with (length a) by lia.
  now rewrite firstn_app, Nat.sub_diag, firstn_all, firstn_O, app_nil_r.
Qed.

Lemma dot_not_nl (ch : ascii) : dot ch = true -> eqc LF ch = false.
Proof.
  unfold dot, eqc. intros H. destruct (Ascii.eqb ch LF) eqn:E; [|reflexivity].
  apply Ascii.eqb_eq in E. subst ch. discriminate.
Qed.

Lemma m_fence (x : mstate) (c : cont) :
  m (seqs [nl; Lit "```"]) x c =
  match strip fence (rest x) with
  | Some r => c (MState (prev_after (prev x) fence) r (caps x))
  | None => None
  end.
Proof.
  change (seqs [nl; Lit "```"]) with (seqs (map (fun a => Chr (eqc a)) fence)).
  apply m_lit.
Qed.

(** After the opening backticks: the language up to the end of the line,
    then the shortest body that is followed by a closing fence. *)
Lemma fence_tail (pv : option ascii) (lang body post : str) :
  forallb dot lang = true -> has_fence body = false ->
  m (seqs [Grp 1 (Star (Chr dot)); nl; Grp 2 (LazyStar (Chr any)); nl; Lit "```"])
    (MState pv (lang ++ LF :: body ++ fence ++ post) []) Some =
  Some (MState (Some "`"%char) post [(2, body); (1, lang)]).
Proof.
  intros Hl Hb.
  rewrite m_seqs_cons, m_grp. unfold Star. rewrite m_rep_chr. cbn [prev rest caps].
  set (x1 := MState pv (lang ++ LF :: body ++ fence ++ post) []).
  assert (R : refuses dot
                (fun y => m (seqs [nl; Grp 2 (LazyStar (Chr any)); nl; Lit "```"])
                            (set_cap 1 x1 y) Some)).
  { intros pv0 ch t g H. rewrite m_seqs_cons. unfold nl, set_cap.
    rewrite m_chr. cbn [rest]. now rewrite dot_not_nl. }
  rewrite (greedy_chr_only dot _ [] R). clear R. cbn [Nat.leb].
  rewrite (span_run dot lang (LF :: body ++ fence ++ post)) by (exact Hl || reflexivity).
  cbn [fst snd].
  rewrite m_seqs_cons. unfold nl at 1. unfold set_cap at 1. cbn [rest prev caps].
  rewrite m_chr_hit by reflexivity.
  subst x1. cbn [rest]. rewrite firstn_app_length.
  rewrite m_seqs_cons, m_grp, m_lazy_chr. cbn [prev rest caps].
  apply lazy_chr_first.
  - intros k Hk. rewrite m_fence. unfold set_cap. cbn [rest].
    rewrite strip_fence_inside; [reflexivity| |now apply has_fence_skipn].
    intros E. apply (f_equal (@length ascii)) in E.
    rewrite length_skipn in E. simpl in E. lia.
  - rewrite m_fence. unfold set_cap. cbn [rest prev caps].
    rewrite strip_app, firstn_app_length. reflexivity.
Qed.

Lemma strip_backtick (l : str) (ch : ascii) (t : str) :
  nec "`" ch = true -> strip ("`"%char :: l) (ch :: t) = None.
Proof.
  intros H. cbn [strip]. unfold nec in H. apply negb_true_iff in H. now rewrite H.
Qed.

(** No fence starts at a character that is not a backtick and is not
    followed by one. *)
Lemma fence_none_at (pv : option ascii) (ch d : ascii) (t : str) :
  nec "`" ch = true -> nec "`" d = true ->
  exec_at re_fence pv (ch :: d :: t) = None.
Proof.
  intros Hc Hd. unfold exec_at, re_fence.
  rewrite m_seqs_cons, m_alt.
  assert (E1 : m (Bol false) (MState pv (ch :: d :: t) [])
                 (fun y => m (seqs [Lit "```"; Grp 1 (Star (Chr dot)); nl;
                                    Grp 2 (LazyStar (Chr any)); nl; Lit "```"]) y Some)
               = None).
  { cbn [m]. destruct (at_bol false _); [|reflexivity].
    rewrite m_seqs_cons, m_Lit. cbn [rest]. unfold lit. cbn [list_ascii_of_string].
    now rewrite strip_backtick. }
  rewrite E1. unfold nl at 1. rewrite m_chr. cbn [rest caps].
  destruct (eqc LF ch); [|reflexivity].
  rewrite m_seqs_cons, m_Lit. cbn [rest]. unfold lit. cbn [list_ascii_of_string].
  now rewrite strip_backtick.
Qed.

Lemma scan_fence_pre (w : str) :
  forall pre pv,
    forallb (nec "`") pre = true ->
    scan re_fence pv (pre ++ LF :: w) 0 =
    map TLit pre ++ scan re_fence (prev_after pv pre) (LF :: w) 0.
Proof.
  induction pre as [|c pre IH]; intros pv Hp; [reflexivity|].
  cbn [forallb] in Hp. apply andb_prop in Hp. destruct Hp as [Hc Hp].
  rewrite <- app_comm_cons. rewrite scan_nomatch.
  - rewrite IH by exact Hp. now rewrite prev_after_cons.
  - destruct pre as [|d pre'].
    + now apply fence_none_at.
    + cbn [forallb] in Hp. apply andb_prop in Hp. now apply fence_none_at.
Qed.

(** The pattern at a fence that opens after a newline, and at one that
    opens the text. *)
Lemma exec_fence_nl (pv : option ascii) (lang body post : str) :
  forallb dot lang = true -> has_fence body = false ->
  exec_at re_fence pv (fence ++ lang ++ LF :: body ++ fence ++ post) =
  Some (length (fence ++ lang ++ LF :: body ++ fence), [(2, body); (1, lang)]).
Proof.
  intros Hl Hb. unfold exec_at, re_fence.
  rewrite m_seqs_cons, m_alt.
  set (s := fence ++ lang ++ LF :: body ++ fence ++ post).
  assert (E1 : m (Bol false) (MState pv s [])
                 (fun y => m (seqs [Lit "```"; Grp 1 (Star (Chr dot)); nl;
                                    Grp 2 (LazyStar (Chr any)); nl; Lit "```"]) y Some)
               = None).
  { cbn [m]. destruct (at_bol false _); [|reflexivity].
    now rewrite m_seqs_cons, m_Lit. }
  rewrite E1. clear E1. subst s. unfold fence at 1. rewrite <- app_comm_cons.
  unfold nl at 1. rewrite m_chr_hit by reflexivity.
  rewrite m_seqs_cons, m_Lit. cbn [rest prev caps].
  rewrite strip_app. rewrite fence_tail by assumption.
  cbn [rest caps]. f_equal. f_equal.
  unfold fence. rewrite !length_app. simpl. rewrite !length_app. simpl. lia.
Qed.

Lemma exec_fence_start (lang body post : str) :
  forallb dot lang = true -> has_fence body = false ->
  exec_at re_fence None (lit "```" ++ lang ++ LF :: body ++ fence ++ post) =
  Some (length (lit "```" ++ lang ++ LF :: body ++ fence), [(2, body); (1, lang)]).
Proof.
  intros Hl Hb. unfold exec_at, re_fence.
  rewrite m_seqs_cons, m_alt.
  assert (E1 : forall s c, m (Bol false) (MState None s []) c = c (MState None s []))
    by reflexivity.
  rewrite E1. clear E1.
  rewrite m_seqs_cons, m_Lit. cbn [rest prev caps].
  rewrite strip_app. rewrite fence_tail by assumption.
  cbn [rest caps]. f_equal. f_equal.
  rewrite !length_app. simpl. rewrite !length_app. simpl. lia.
Qed.

Lemma substS_lits (S : Type) (f : str -> list (nat * str) -> S -> str * S)
    (pre : str) (ts : list token) (st : S) :
  substS f (map TLit pre ++ ts) st =
  (pre ++ fst (substS f ts st), snd (substS f ts st)).
Proof.
  induction pre as [|c pre IH]; cbn [map app substS].
  - now destruct (substS f ts st).
  - rewrite IH. reflexivity.
Qed.

Lemma scan_fence_post (pv : option ascii) (post : str) :
  forallb (nec "`") post = true -> scan re_fence pv post 0 = map TLit post.
Proof.
  intros H. apply scan_search_none.
  apply (must_search (eqc "`")); [apply re_fence_must|exact H].
Qed.

(** The tokens of a text that is one fenced block and what follows. *)
Lemma scan_fence_block (pv : option ascii) (opening lang body post : str) :
  exec_at re_fence pv (opening ++ lang ++ LF :: body ++ fence ++ post) =
  Some (length (opening ++ lang ++ LF :: body ++ fence), [(2, body); (1, lang)]) ->
  opening <> [] ->
  forallb (nec "`") post = true ->
  scan re_fence pv (opening ++ lang ++ LF :: body ++ fence ++ post) 0 =
  TMatch (opening ++ lang ++ LF :: body ++ fence) [(2, body); (1, lang)]
  :: map TLit post.
Proof.
  intros E Ho Hp.
  assert (Es : opening ++ lang ++ LF :: body ++ fence ++ post =
               (opening ++ lang ++ LF :: body ++ fence) ++ post).
  { rewrite <- !app_assoc. cbn [app]. now rewrite <- !app_assoc. }
  rewrite (scan_match _ _ _ _ _ E).
  - rewrite Es.
    rewrite firstn_app, Nat.sub_diag, firstn_all, firstn_O, app_nil_r.
    rewrite skipn_app, Nat.sub_diag, skipn_all, skipn_O. cbn [app].
    now rewrite scan_fence_post.
  - rewrite length_app. destruct opening; [contradiction|simpl; lia].
  - rewrite Es. rewrite (length_app (opening ++ lang ++ LF :: body ++ fence) post). lia.
Qed.

Lemma fenced_replacer (e : Extra) (lang body : str) :
  hashExtraBlock (code_html e (cap 1 [(2, body); (1, lang)]) (cap 2 [(2, body); (1, lang)])) e =
  (placeholder (length (hashBlocks e)),
   set_hashBlocks e (hashBlocks e ++ [code_html e lang body])).
Proof.
  change (cap 1 [(2, body); (1, lang)]) with lang.
  change (cap 2 [(2, body); (1, lang)]) with body.
  rewrite (surjective_pairing (hashExtraBlock _ e)).
  now rewrite hashExtraBlock_fst, hashExtraBlock_snd.
Qed.

Lemma fenced_after_text (e : Extra) (pre lang body post : str) :
  forallb (nec "`") pre = true -> forallb dot lang = true ->
  has_fence body = false -> forallb (nec "`") post = true ->
  fencedCodeBlocks (pre ++ fence ++ lang ++ LF :: body ++ fence ++ post) e =
  (pre ++ placeholder (length (hashBlocks e)) ++ post,
   set_hashBlocks e (hashBlocks e ++ [code_html e lang body])).
Proof.
  intros Hpre Hl Hb Hpost. unfold fencedCodeBlocks, gsubS.
  unfold fence at 1. rewrite <- app_comm_cons.
  rewrite scan_fence_pre by exact Hpre.
  change (LF :: lit "```" ++ lang ++ LF :: body ++ fence ++ post)
    with (fence ++ lang ++ LF :: body ++ fence ++ post).
  rewrite scan_fence_block;
    [|now apply exec_fence_nl|discriminate|exact Hpost].
  rewrite substS_lits. cbn [substS]. rewrite fenced_replacer.
  rewrite substS_lit. reflexivity.
Qed.

Lemma fenced_at_start (e : Extra) (lang body post : str) :
  forallb dot lang = true ->
  has_fence body = false -> forallb (nec "`") post = true ->
  fencedCodeBlocks (lit "```" ++ lang ++ LF :: body ++ fence ++ post) e =
  (placeholder (length (hashBlocks e)) ++ post,
   set_hashBlocks e (hashBlocks e ++ [code_html e lang body])).
Proof.
  intros Hl Hb Hpost. unfold fencedCodeBlocks, gsubS.
  rewrite scan_fence_block;
    [|now apply exec_fence_start|discriminate|exact Hpost].
  cbn [substS]. rewrite fenced_replacer.
  rewrite substS_lit. reflexivity.
Qed.

(** X15.  A fenced block is replaced by the placeholder of a new block,
    whose markup is built from the language line and from the body up to
    the first closing fence; the text before and after it, which has no
    backtick, is kept, except that the newline before the opening fence
    goes with the block.  Restoring gives the markup in place. *)
Theorem fenced_block (e : Extra) (pre lang body post : str) :
  forallb (nec "`") pre = true -> forallb dot lang = true ->
  has_fence body = false -> forallb (nec "`") post = true ->
  let e' := set_hashBlocks e (hashBlocks e ++ [code_html e lang body]) in
  fencedCodeBlocks (pre ++ fence ++ lang ++ LF :: body ++ fence ++ post) e =
    (pre ++ placeholder (length (hashBlocks e)) ++ post, e') /\
  fencedCodeBlocks (lit "```" ++ lang ++ LF :: body ++ fence ++ post) e =
    (placeholder (length (hashBlocks e)) ++ post, e') /\
  (no_tilde pre = true -> no_tilde post = true ->
   finishConversion (pre ++ placeholder (length (hashBlocks e)) ++ post) e' =
   (pre ++ code_html e lang body ++ post, set_hashBlocks e [])).
Proof.
  intros Hpre Hl Hb Hpost. cbv zeta.
  split; [now apply fenced_after_text|]. split; [now apply fenced_at_start|].
  intros H1 H2. unfold finishConversion.
  rewrite unHash_embed, !unHash_no_tilde by assumption.
  cbn [hashBlocks set_hashBlocks]. unfold block_at.
  rewrite nth_error_app2 by lia. rewrite Nat.sub_diag. cbn [nth_error].
  now rewrite set_hashBlocks_idem.
Qed.

Lemma fenced_block_witness :
  let e := set_highlighter (new_Extra para_host) (lit "prettify") in
  fencedCodeBlocks (lit "Some code:" ++ fence ++ lit "js" ++ LF :: lit "a < b" ++ fence
                    ++ LF :: lit "done") e =
  (lit "Some code:" ++ placeholder 0 ++ LF :: lit "done",
   set_hashBlocks e (hashBlocks e ++ [code_html e (lit "js") (lit "a < b")])).
Proof.
  cbv zeta.
  apply (fenced_block (set_highlighter (new_Extra para_host) (lit "prettify"))
                      (lit "Some code:") (lit "js") (lit "a < b") (LF :: lit "done"));
    reflexivity.
Defined.

(** ** What a definition list needs after it *)

Lemma search_none_suffix (r : re) (s : str) :
  (forall pv y, is_suffix y s -> exec_at r pv y = None) ->
  forall pv, search r pv s = None.
Proof.
  induction s as [|ch t IH]; intros H pv; cbn [search].
  - now rewrite H by apply is_suffix_refl.
  - rewrite H by apply is_suffix_refl.
    rewrite IH; [reflexivity|].
    intros pv' y Hy. apply H.
    apply (is_suffix_trans y t (ch :: t)); [exact Hy|apply is_suffix_cons].
Qed.

Lemma par_break_cons (c : ascii) (t : str) :
  par_break (c :: t) = false -> par_break t = false.
Proof. cbn [par_break]. intros H. apply orb_false_iff in H. apply H. Qed.

Lemma par_break_suffix (a b : str) :
  is_suffix a b -> par_break b = false -> par_break a = false.
Proof.
  intros [p ->]. induction p as [|c p IH]; intros H; [exact H|].
  apply IH. now apply (par_break_cons c).
Qed.

Lemma forallb_suffix (p : ascii -> bool) (a b : str) :
  is_suffix a b -> forallb p b = true -> forallb p a = true.
Proof.
  intros [q ->] H. rewrite forallb_app in H. apply andb_prop in H. apply H.
Qed.

(** After a run of two newlines or more, no character that is not
    white space. *)
Lemma par_break_run (c : ascii) (r : str) :
  forall w,
    forallb (eqc LF) w = true -> 2 <= length w ->
    par_break (w ++ c :: r) = false -> non_space c = false.
Proof.
  induction w as [|a w IH]; intros Hw Hl H; [simpl in Hl; lia|].
  destruct w as [|b w'].
  - simpl in Hl. lia.
  - destruct w' as [|b' w''].
    + cbn [app par_break] in H. apply orb_false_iff in H. destruct H as [H _].
      cbn [forallb] in Hw. unfold eqc in Hw.
      apply andb_prop in Hw. destruct Hw as [Ha Hw].
      apply andb_prop in Hw. destruct Hw as [Hb _].
      rewrite Ha, Hb in H. exact H.
    + apply IH.
      * cbn [forallb] in Hw. apply andb_prop in Hw. apply Hw.
      * simpl. lia.
      * rewrite <- app_comm_cons in H. now apply par_break_cons in H.
Qed.

Lemma list_end_groups (x : mstate) (c : cont) :
  forallb (nec NUL) (rest x) = true -> par_break (rest x) = false ->
  m list_end x c = None.
Proof.
  intros Hn Hp. unfold list_end. rewrite m_alt.
  assert (E1 : m (Look true (Seq (Chr (eqc NUL)) (Lit "x03"))) x c = None).
  { cbn [m]. destruct (rest x) as [|ch t]; [reflexivity|].
    cbn [forallb] in Hn. apply andb_prop in Hn. destruct Hn as [Hc _].
    unfold nec in Hc. apply negb_true_iff in Hc. unfold eqc. now rewrite Hc. }
  rewrite E1. clear E1.
  assert (E2 : m (seqs [AtLeast 2 nl;
                        Look true (Chr non_space);
                        Look false (seqs [
                          sp03;
                          LazyPlus (seqs [Chr non_space; Star (Chr dot); nl; sp]);
                          Opt nl;
                          def_mark]);
                        Look false def_mark]) x Some = None).
  { rewrite m_seqs_cons. unfold AtLeast, nl. rewrite m_rep_chr.
    rewrite greedy_chr_only.
    - destruct (2 <=? length (fst (span (eqc LF) (rest x)))) eqn:E; [|reflexivity].
      apply Nat.leb_le in E.
      rewrite m_seqs_cons.
      pose proof (span_app (eqc LF) (rest x)) as Ea.
      pose proof (span_all (eqc LF) (rest x)) as Aa.
      destruct (snd (span (eqc LF) (rest x))) as [|ch r] eqn:Er; [reflexivity|].
      rewrite <- Ea in Hp.
      pose proof (par_break_run ch r _ Aa E Hp) as Hc.
      cbn [m rest]. now rewrite Hc.
    - intros pv ch t g H. rewrite m_seqs_cons. cbn [m rest].
      unfold eqc in H. apply Ascii.eqb_eq in H. now subst ch. }
  change (m (Look true (seqs [AtLeast 2 nl;
                        Look true (Chr non_space);
                        Look false (seqs [
                          sp03;
                          LazyPlus (seqs [Chr non_space; Star (Chr dot); nl; sp]);
                          Opt nl;
                          def_mark]);
                        Look false def_mark])) x c)
    with (match m (seqs [AtLeast 2 nl;
                        Look true (Chr non_space);
                        Look false (seqs [
                          sp03;
                          LazyPlus (seqs [Chr non_space; Star (Chr dot); nl; sp]);
                          Opt nl;
                          def_mark]);
                        Look false def_mark]) x Some with
          | Some y => c (MState (prev x) (rest x) (caps y))
          | None => None
          end).
  now rewrite E2.
Qed.

Lemma wholeList_ends :
  wholeList =
  seqs [Grp 1 (Alt (Seq (Chr (eqc STX)) (Opt nl)) (Seq nl nl));
        Grp 2 (seqs [
          Grp 3 (seqs [
            sp03;
            Grp 4 (Plus (seqs [Star (Chr (one_of [SP; TAB]));
                               Chr non_space; Star (Chr dot); nl]));
            Opt nl;
            def_mark]);
          Grp 5 (LazyPlus (Chr any));
          Grp 6 list_end])].
Proof. reflexivity. Qed.

Lemma seqs_one (a : re) : seqs [a] = a.
Proof. reflexivity. Qed.

(** No match of [wholeList] in a text with no blank line that has text
    after it. *)
Lemma wholeList_none (x : mstate) (c : cont) :
  forallb (nec NUL) (rest x) = true -> par_break (rest x) = false ->
  m wholeList x c = None.
Proof.
  intros Hn Hp. rewrite wholeList_ends.
  rewrite m_seqs_cons. apply m_none. intros y1 H1.
  rewrite seqs_one, m_grp, m_seqs_cons. apply m_none. intros y2 H2.
  rewrite m_seqs_cons. apply m_none. intros y3 H3.
  rewrite seqs_one, m_grp.
  assert (Hs : is_suffix (rest y3) (rest x)).
  { apply (is_suffix_trans _ (rest y2)); [exact H3|].
    apply (is_suffix_trans _ (rest y1)); [exact H2|exact H1]. }
  apply list_end_groups.
  - now apply (forallb_suffix _ _ (rest x)).
  - now apply (par_break_suffix _ (rest x)).
Qed.

Lemma addAnchors_chars (text : str) (ch : ascii) :
  In ch (addAnchors text) -> ch = STX \/ ch = ETX \/ In ch text.
Proof.
  unfold addAnchors.
  set (t1 := match text with
             | [] => STX :: text
             | c :: _ => if Ascii.eqb c STX then text else STX :: text
             end).
  assert (H1 : In ch t1 -> ch = STX \/ In ch text).
  { subst t1. destruct text as [|c t]; [intros [<-|[]]; now left|].
    destruct (Ascii.eqb c STX); [now right|]. intros [<-|H]; [now left|now right]. }
  destruct (Ascii.eqb (last t1 NUL) ETX).
  - intros H. apply H1 in H. tauto.
  - intros H. apply in_app_or in H. destruct H as [H|[<-|[]]]; [|tauto].
    apply H1 in H. tauto.
Qed.

Lemma addAnchors_without (p : ascii -> bool) (text : str) :
  p STX = true -> p ETX = true -> forallb p text = true ->
  forallb p (addAnchors text) = true.
Proof.
  intros H2 H3 H. rewrite forallb_forall in *. intros ch Hin.
  apply addAnchors_chars in Hin. destruct Hin as [->|[->|Hin]]; auto.
Qed.

Lemma test_wholeList_none (s : str) :
  forallb (nec NUL) s = true -> par_break s = false -> test wholeList s = false.
Proof.
  intros Hn Hp. unfold test. rewrite search_none_suffix; [reflexivity|].
  intros pv y Hy. unfold exec_at. rewrite wholeList_none; [reflexivity| |].
  - now apply (forallb_suffix _ _ s).
  - now apply (par_break_suffix _ s).
Qed.

(** X16.  A definition list is recognised only when a blank line and
    then text follow it (the sentinel ETX counts as text): the pattern's
    alternative for the end of the text asks for a NUL character and the
    letters x03, so in a text with no NUL and no blank line followed by
    text nothing is converted, even a list on the last lines. *)
Theorem definitionLists_needs_blank_line (text : str) (e : Extra) :
  forallb (nec NUL) text = true -> par_break (addAnchors text) = false ->
  test wholeList (addAnchors text) = false /\
  definitionLists text e = (removeAnchors text, e).
Proof.
  intros Hn Hp.
  assert (Ht : test wholeList (addAnchors text) = false).
  { apply test_wholeList_none; [|exact Hp].
    now apply addAnchors_without. }
  split; [exact Ht|].
  rewrite definitionLists_no_match by exact Ht.
  now rewrite removeAnchors_after_add.
Qed.

Lemma definitionLists_needs_blank_line_witness :
  definitionLists (lit "Term" ++ [LF] ++ lit ":   Definition text" ++ [LF])
                  (new_Extra para_host) =
  (lit "Term" ++ [LF] ++ lit ":   Definition text" ++ [LF], new_Extra para_host).
Proof.
  apply (definitionLists_needs_blank_line
           (lit "Term" ++ [LF] ++ lit ":   Definition text" ++ [LF])
           (new_Extra para_host)); reflexivity.
Defined.

(** ** The step that is meant to trim trailing blank lines *)

Lemma trailing_blank_none (x : mstate) :
  forallb (nec "\") (rest x) = true -> m re_trailing_blank x Some = None.
Proof.
  intros H. unfold re_trailing_blank.
  change (m (Seq (AtLeast 2 nl) (Look true (Seq (Chr (eqc "\")) (Lit "x03")))) x Some)
    with (m (AtLeast 2 nl) x
            (fun y => m (Look true (Seq (Chr (eqc "\")) (Lit "x03"))) y Some)).
  apply m_none. intros y Hy.
  pose proof (forallb_suffix _ _ _ Hy H) as Hy'.
  cbn [m]. destruct (rest y) as [|ch t]; [reflexivity|].
  cbn [forallb] in Hy'. apply andb_prop in Hy'. destruct Hy' as [Hc _].
  unfold nec in Hc. apply negb_true_iff in Hc. unfold eqc. now rewrite Hc.
Qed.

(** X17.  The step of [processDefListItems] that is meant to trim
    trailing blank lines looks ahead for a backslash and the letters x03,
    not for the sentinel ETX: on a list with no backslash it changes
    nothing, so the blank lines at the end stay. *)
Theorem trailing_blank_lines_stay (e : Extra) (listStr : str) :
  forallb (nec "\") listStr = true ->
  sub_first re_trailing_blank (const_str [LF]) (addAnchors listStr) = addAnchors listStr /\
  processDefListItems e listStr =
  removeAnchors
    (gsub dd (fun _ g => dd_item e (get_cap 1 g) (cap 2 g) (cap 3 g))
       (gsub dt (fun _ g => dt_item e (cap 2 g)) (addAnchors listStr))).
Proof.
  intros H.
  assert (E : sub_first re_trailing_blank (const_str [LF]) (addAnchors listStr)
              = addAnchors listStr).
  { apply sub_first_no_match. unfold test.
    rewrite search_none_suffix; [reflexivity|].
    intros pv y Hy. unfold exec_at. rewrite trailing_blank_none; [reflexivity|].
    apply (forallb_suffix _ _ _ Hy). now apply addAnchors_without. }
  split; [exact E|]. unfold processDefListItems. now rewrite E.
Qed.

Lemma trailing_blank_lines_stay_witness :
  sub_first re_trailing_blank (const_str [LF])
            (addAnchors (lit "Term" ++ [LF] ++ lit ":   Def" ++ [LF; LF; LF])) =
  addAnchors (lit "Term" ++ [LF] ++ lit ":   Def" ++ [LF; LF; LF]).
Proof.
  apply (trailing_blank_lines_stay (new_Extra para_host)
           (lit "Term" ++ [LF] ++ lit ":   Def" ++ [LF; LF; LF])).
  reflexivity.
Defined.

(** ** The options of [init] *)

Lemma contains_In (l : list str) (name : str) : contains l name = true <-> In name l.
Proof.
  unfold contains. rewrite existsb_exists. split.
  - intros (x & Hx & E). apply str_eqb_eq in E. now subst.
  - intros H. exists name. split; [exact H|]. now apply str_eqb_eq.
Qed.

Lemma contains_same (l l' : list str) (name : str) :
  (forall n, In n l <-> In n l') -> contains l name = contains l' name.
Proof.
  intros H. destruct (contains l name) eqn:E1, (contains l' name) eqn:E2;
    try reflexivity.
  - apply contains_In, H, contains_In in E1. congruence.
  - apply contains_In, H, contains_In in E2. congruence.
Qed.

(** X18.  Which recognizers run depends only on which names are listed
    in [options.extensions], not on their order or on repetitions; the
    list is [all] alone, or some of tables, fenced code blocks and
    definition lists in this order. *)
Theorem init_transformations_names (l l' : list str) :
  (forall n, In n l <-> In n l') ->
  init_transformations l = init_transformations l' /\
  (init_transformations l = [T_all] \/
   exists a b c : bool,
     init_transformations l =
     (if a then [T_tables] else []) ++ (if b then [T_fencedCodeBlocks] else [])
     ++ (if c then [T_definitionLists] else [])).
Proof.
  intros H. split.
  - unfold init_transformations. now rewrite !(contains_same l l' _ H).
  - unfold init_transformations. destruct (contains l (lit "all")); [now left|].
    right. now eexists _, _, _.
Qed.

Lemma init_transformations_names_witness :
  init_transformations [lit "def_list"; lit "tables"] =
  init_transformations [lit "tables"; lit "def_list"; lit "tables"].
Proof.
  apply (init_transformations_names [lit "def_list"; lit "tables"]
           [lit "tables"; lit "def_list"; lit "tables"]).
  intros n. simpl. tauto.
Defined.

(** ** [all] does not include the definition lists *)

Lemma escapes_chars (ch : ascii) :
  forall s, In ch (escapes s) ->
            In ch s \/ In ch (lit "&#124;") \/ In ch (lit "&#58;").
Proof.
  induction s as [| c | c d t IHt IHdt] using str_ind2; intros H.
  - contradiction.
  - now left.
  - rewrite escapes_cons2 in H.
    destruct (Ascii.eqb c "\" && Ascii.eqb d "|").
    + apply in_app_or in H. destruct H as [H|H]; [tauto|].
      apply IHt in H. destruct H as [H|H]; [|tauto]. left. now right; right.
    + destruct (Ascii.eqb c "\" && Ascii.eqb d ":").
      * apply in_app_or in H. destruct H as [H|H]; [tauto|].
        apply IHt in H. destruct H as [H|H]; [|tauto]. left. now right; right.
      * destruct H as [<-|H]; [left; now left|].
        apply IHdt in H. destruct H as [H|H]; [|tauto]. left. now right.
Qed.

Lemma escapes_without (p : ascii -> bool) (s : str) :
  forallb p (lit "&#124;") = true -> forallb p (lit "&#58;") = true ->
  forallb p s = true -> forallb p (escapes s) = true.
Proof.
  intros H1 H2 H. rewrite forallb_forall in *. intros ch Hin.
  apply escapes_chars in Hin. destruct Hin as [Hin|[Hin|Hin]]; auto.
Qed.

Lemma all_no_pipe_backtick (text : str) (e : Extra) :
  forallb (fun c => negb (one_of ["|"; "`"]%char c)) text = true ->
  all text e = (text, e).
Proof.
  intros H. unfold all.
  assert (Hp : forallb (fun ch => negb (eqc "|" ch)) text = true).
  { rewrite forallb_forall in *. intros ch Hin. specialize (H ch Hin).
    unfold one_of in H. cbn [existsb] in H. unfold eqc.
    now destruct (Ascii.eqb ch "|"). }
  assert (Hb : forallb (fun ch => negb (eqc "`" ch)) text = true).
  { rewrite forallb_forall in *. intros ch Hin. specialize (H ch Hin).
    unfold one_of in H. cbn [existsb] in H. unfold eqc.
    destruct (Ascii.eqb ch "`"); [|reflexivity].
    now rewrite orb_true_r in H. }
  rewrite tables_no_match.
  - apply fencedCodeBlocks_no_match.
    now apply (test_must (eqc "`")); [apply re_fence_must|].
  - now apply (test_must (eqc "|")); [apply leadingPipe_must|].
  - now apply (test_must (eqc "|")); [apply noLeadingPipe_must|].
Qed.

Lemma init_store_empty (s p : Converter) (options : option Options) :
  set_hashBlocks (fst (init s p options)) [] = fst (init s p options).
Proof.
  unfold init. cbn [fst].
  destruct options as [o|]; cbn [no_options o_sanitize o_highlighter o_table_class].
  - destruct (o_highlighter o), (o_table_class o); reflexivity.
  - reflexivity.
Qed.

Lemma init_all_listed (s p : Converter) (o : Options) (l : list str) :
  o_extensions o = Some l -> In (lit "all") l -> snd (init s p (Some o)) = [T_all].
Proof.
  intros Ho Hin. unfold init. cbn [snd]. rewrite Ho.
  unfold init_transformations.
  now rewrite (proj2 (contains_In l (lit "all")) Hin).
Qed.

(** X19.  With the default options, and whenever [all] is listed, the
    only transformation is [all], which runs the tables and the fenced
    code blocks: a text with no pipe and no backtick leaves the
    pre-conversion hook with its escapes processed and a newline added,
    whatever definition lists are in it. *)
Theorem all_skips_definition_lists (s p : Converter) (options : option Options)
    (text : str) :
  forallb (fun c => negb (one_of ["|"; "`"]%char c)) text = true ->
  snd (init s p None) = [T_all] /\
  (forall o l, o_extensions o = Some l -> In (lit "all") l ->
               snd (init s p (Some o)) = [T_all]) /\
  (snd (init s p options) = [T_all] ->
   preBlockGamut (init s p options) text =
   (processEscapes text ++ [LF], fst (init s p options))).
Proof.
  intros H. split; [reflexivity|]. split; [apply init_all_listed|]. intros Ht.
  unfold preBlockGamut, doConversion. rewrite Ht, init_store_empty.
  cbn [run_all run].
  rewrite all_no_pipe_backtick; [reflexivity|].
  rewrite processEscapes_escapes. now apply escapes_without.
Qed.

Lemma all_skips_definition_lists_witness :
  preBlockGamut (init para_host para_host None)
                ([LF; LF] ++ lit "Term" ++ [LF] ++ lit ":   Definition text" ++ [LF; LF; LF]) =
  ([LF; LF] ++ lit "Term" ++ [LF] ++ lit ":   Definition text" ++ [LF; LF; LF; LF],
   new_Extra para_host).
Proof.
  apply (all_skips_definition_lists para_host para_host None
           ([LF; LF] ++ lit "Term" ++ [LF] ++ lit ":   Definition text" ++ [LF; LF; LF]));
    reflexivity.
Defined.

(** ** The outer pipes of a header line *)

Lemma exec_lead_pipe (pv : option ascii) (s : str) :
  exec_at re_lead_pipe pv s =
  if bol pv then
    match snd (span (eqc SP) s) with
    | c :: r =>
      if Ascii.eqb c "|" then Some (S (length (fst (span (eqc SP) s))), []) else None
    | [] => None
    end
  else None.
Proof.
  unfold exec_at, re_lead_pipe, sp. rewrite m_seqs_cons.
  assert (E : forall c, m (Bol true) (MState pv s []) c
                        = if bol pv then c (MState pv s []) else None).
  { intros c. cbn [m]. unfold at_bol, bol. cbn [prev]. now destruct pv. }
  rewrite E. clear E. destruct (bol pv); [|reflexivity].
  rewrite m_seqs_cons. unfold Star. rewrite m_rep_chr. cbn [prev rest caps].
  rewrite (greedy_chr_only (eqc SP) _ [] (pipe_refuses_sp [] Some)).
  cbn [Nat.leb].
  pose proof (length_span (eqc SP) s) as HL.
  destruct (snd (span (eqc SP) s)) as [|c r]; [reflexivity|].
  rewrite seqs_one. unfold pipe. rewrite m_chr. cbn [rest caps]. unfold eqc at 1.
  destruct (Ascii.eqb c "|"); [|reflexivity].
  cbn [rest caps]. f_equal. f_equal. simpl in HL. lia.
Qed.

Lemma skipn_S_app (a : str) (c : ascii) (r : str) :
  skipn (S (length a)) (a ++ c :: r) = r.
Proof. induction a as [|x a IH]; [reflexivity|exact IH]. Qed.

Lemma sub_first_lead_pipe (h : str) :
  forallb dot h = true -> sub_first re_lead_pipe (const_str []) h = drop_pipe h.
Proof.
  intros Hd. unfold sub_first, drop_pipe.
  destruct h as [|ch t].
  - cbn [search]. rewrite exec_lead_pipe. reflexivity.
  - cbn [search]. rewrite exec_lead_pipe. cbn [bol].
    pose proof (span_app (eqc SP) (ch :: t)) as E.
    remember (fst (span (eqc SP) (ch :: t))) as a eqn:Ea.
    cbn [forallb] in Hd. apply andb_prop in Hd. destruct Hd as [Hc Ht].
    destruct (snd (span (eqc SP) (ch :: t))) as [|c r] eqn:Er.
    + unfold re_lead_pipe. cbn [seqs].
      now rewrite (search_after_char _ t ch Hc Ht).
    + destruct (Ascii.eqb c "|") eqn:Ec.
      * cbn [f_pre f_whole f_caps f_post const_str app].
        rewrite <- E. apply skipn_S_app.
      * unfold re_lead_pipe. cbn [seqs].
        now rewrite (search_after_char _ t ch Hc Ht).
Qed.

Lemma eol_refuses_sp :
  refuses (eqc SP) (fun y => m (seqs [Eol true]) y Some).
Proof.
  intros pv ch t g H. unfold eqc in H. apply Ascii.eqb_eq in H. now subst ch.
Qed.

Lemma exec_trail_pipe (pv : option ascii) (s : str) :
  exec_at re_trail_pipe pv s =
  match s with
  | c :: t =>
    if Ascii.eqb c "|" && line_end (snd (span (eqc SP) t))
    then Some (S (length (fst (span (eqc SP) t))), [])
    else None
  | [] => None
  end.
Proof.
  unfold exec_at, re_trail_pipe, sp. rewrite m_seqs_cons.
  unfold pipe. rewrite m_chr. cbn [rest caps].
  destruct s as [|c t]; [reflexivity|]. unfold eqc at 1.
  destruct (Ascii.eqb c "|"); [|reflexivity]. cbn [andb].
  rewrite m_seqs_cons. unfold Star. rewrite m_rep_chr. cbn [prev rest caps].
  rewrite (greedy_chr_only (eqc SP) _ [] eol_refuses_sp). cbn [Nat.leb].
  rewrite seqs_one.
  pose proof (length_span (eqc SP) t) as HL.
  assert (E : forall x, m (Eol true) x Some = if line_end (rest x) then Some x else None).
  { intros x. cbn [m]. unfold at_eol, line_end. now destruct (rest x). }
  rewrite E. cbn [rest].
  destruct (line_end (snd (span (eqc SP) t))); [|reflexivity].
  cbn [rest caps]. f_equal. f_equal. simpl. lia.
Qed.

Lemma span_app_nonnil (p : ascii -> bool) (v : str) :
  forall u, snd (span p u) <> [] ->
            span p (u ++ v) = (fst (span p u), snd (span p u) ++ v).
Proof.
  induction u as [|x u IH]; intros H; [contradiction|].
  rewrite <- app_comm_cons. cbn [span] in *.
  destruct (p x); [|reflexivity].
  destruct (span p u) as [a b]. cbn [snd] in H.
  rewrite (IH H). reflexivity.
Qed.

(** Whether a text with a character that is not a space starts with a
    pipe, after spaces, does not depend on what is appended to it. *)
Lemma drop_pipe_app (u v : str) :
  snd (span (eqc SP) u) <> [] -> drop_pipe (u ++ v) = drop_pipe u ++ v.
Proof.
  intros H. unfold drop_pipe. rewrite span_app_nonnil by exact H. cbn [snd].
  destruct (snd (span (eqc SP) u)) as [|c r]; [contradiction|].
  rewrite <- app_comm_cons. now destruct (Ascii.eqb c "|").
Qed.

Lemma drop_pipe_spaces (u : str) : forallb (eqc SP) u = true -> drop_pipe u = u.
Proof. intros H. unfold drop_pipe. now rewrite span_all_true. Qed.

Lemma span_nonnil (p : ascii -> bool) (u : str) :
  forallb p u = false -> snd (span p u) <> [].
Proof.
  induction u as [|x u IH]; [discriminate|].
  cbn [forallb span]. destruct (p x); [|discriminate].
  cbn [andb]. intros H. specialize (IH H). now destruct (span p u).
Qed.

(** The first match of the trailing-pipe pattern in a line: the pipe
    that has only spaces after it. *)
Lemma search_trail_pipe (h : str) :
  forall pv, forallb dot h = true ->
    match search re_trail_pipe pv h with
    | Some x => f_pre x ++ f_post x
    | None => h
    end = rev (drop_pipe (rev h)).
Proof.
  induction h as [|c t IH]; intros pv Hd.
  - cbn [search]. rewrite exec_trail_pipe. reflexivity.
  - cbn [forallb] in Hd. apply andb_prop in Hd. destruct Hd as [Hc Ht].
    cbn [search]. rewrite exec_trail_pipe.
    pose proof (span_app (eqc SP) t) as E.
    pose proof (span_all (eqc SP) t) as A.
    destruct (Ascii.eqb c "|" && line_end (snd (span (eqc SP) t))) eqn:Em.
    + (* the pipe, then spaces to the end of the line *)
      apply andb_prop in Em. destruct Em as [Ec Hl].
      apply Ascii.eqb_eq in Ec. subst c.
      assert (Hr : snd (span (eqc SP) t) = []).
      { apply line_end_inv; [exact Hl|].
        rewrite <- E in Ht. apply forallb_dot_app in Ht. apply Ht. }
      rewrite Hr, app_nil_r in E. rewrite E in A.
      cbn [f_pre f_post app]. rewrite E.
      change (skipn (S (length t)) ("|"%char :: t)) with (skipn (length t) t).
      rewrite skipn_all. cbn [rev].
      unfold drop_pipe.
      rewrite (span_run (eqc SP) (rev t) ["|"%char]);
        [reflexivity|now apply forallb_rev|reflexivity].
    + specialize (IH (Some c) Ht).
      assert (Hrev : rev (drop_pipe (rev (c :: t))) = c :: rev (drop_pipe (rev t))).
      { cbn [rev]. destruct (forallb (eqc SP) (rev t)) eqn:Hs.
        - (* only spaces after [c], so [c] is not a pipe *)
          assert (Hs' : forallb (eqc SP) t = true).
          { rewrite <- (rev_involutive t). now apply forallb_rev. }
          rewrite (drop_pipe_spaces (rev t) Hs), rev_involutive.
          rewrite (span_all_true _ _ Hs') in Em. cbn [snd line_end] in Em.
          rewrite andb_true_r in Em.
          unfold drop_pipe.
          destruct (eqc SP c) eqn:Ec.
          + rewrite span_all_true by (rewrite forallb_app, Hs; cbn; now rewrite Ec).
            cbn [snd]. now rewrite rev_app_distr, rev_involutive.
          + rewrite (span_run (eqc SP) (rev t) [c]) by (exact Hs || exact Ec).
            cbn [snd]. rewrite Em. now rewrite rev_app_distr, rev_involutive.
        - rewrite drop_pipe_app by now apply span_nonnil.
          now rewrite rev_app_distr. }
      rewrite Hrev.
      destruct (search re_trail_pipe (Some c) t) as [f|].
      * cbn [f_pre f_post]. rewrite <- app_comm_cons. now rewrite IH.
      * f_equal. exact IH.
Qed.

Lemma sub_first_trail_pipe (h : str) :
  forallb dot h = true ->
  sub_first re_trail_pipe (const_str []) h = rev (drop_pipe (rev h)).
Proof.
  intros Hd. unfold sub_first. rewrite <- (search_trail_pipe h None Hd).
  now destruct (search re_trail_pipe None h).
Qed.

Lemma drop_pipe_chars (p : ascii -> bool) (h : str) :
  forallb p h = true -> forallb p (drop_pipe h) = true.
Proof.
  intros H. unfold drop_pipe.
  pose proof (span_app (eqc SP) h) as E.
  destruct (snd (span (eqc SP) h)) as [|c r]; [exact H|].
  destruct (Ascii.eqb c "|"); [|exact H].
  rewrite <- E, forallb_app in H. apply andb_prop in H. destruct H as [_ H].
  cbn [forallb] in H. apply andb_prop in H. apply H.
Qed.

(** X20.  On one line, [doTable] removes exactly the outer pipes: the
    pipe the line starts with, spaces before it included, and the pipe it
    ends with, spaces after it included; a line without them is kept. *)
Theorem strip_header_outer_pipes (header : str) :
  forallb dot header = true ->
  strip_header header = rev (drop_pipe (rev (drop_pipe header))).
Proof.
  intros Hd. unfold strip_header.
  rewrite sub_first_lead_pipe by exact Hd.
  apply sub_first_trail_pipe. now apply drop_pipe_chars.
Qed.

Lemma strip_header_outer_pipes_witness :
  strip_header (lit "  | a | b |  ") = lit " a | b " /\
  strip_header (lit "a | b") = lit "a | b" /\
  strip_header (lit "| a | b") = lit " a | b".
Proof.
  split; [|split].
  - apply (strip_header_outer_pipes (lit "  | a | b |  ")). reflexivity.
  - apply (strip_header_outer_pipes (lit "a | b")). reflexivity.
  - apply (strip_header_outer_pipes (lit "| a | b")). reflexivity.
Defined.

(** ** The terms of a definition list *)

Lemma split_chr_line (l rest : str) :
  forallb (nec LF) l = true ->
  split_chr LF (l ++ LF :: rest) = l :: split_chr LF rest.
Proof.
  induction l as [|c l IH]; intros H.
  - reflexivity.
  - cbn [forallb] in H. apply andb_prop in H. destruct H as [Hc Hl].
    rewrite <- app_comm_cons. cbn [split_chr].
    unfold nec in Hc. apply negb_true_iff in Hc. rewrite Hc.
    now rewrite IH.
Qed.

Lemma split_chr_last (l : str) :
  forallb (nec LF) l = true -> split_chr LF l = [l].
Proof.
  induction l as [|c l IH]; intros H; [reflexivity|].
  cbn [forallb] in H. apply andb_prop in H. destruct H as [Hc Hl].
  cbn [split_chr]. unfold nec in Hc. apply negb_true_iff in Hc. rewrite Hc.
  now rewrite IH.
Qed.

(** Splitting at the newlines undoes the joining. *)
Lemma split_join_lines (ls : list str) :
  ls <> [] -> Forall (fun t => forallb (nec LF) t = true) ls ->
  split_chr LF (join_lines ls) = ls.
Proof.
  intros Hne H. destruct ls as [|l ls]; [contradiction|]. clear Hne.
  revert l H. induction ls as [|l' ls IH]; intros l H.
  - cbn [join_lines flat_map]. rewrite app_nil_r.
    apply split_chr_last. now inversion H.
  - inversion H as [|? ? Hl H']; subst.
    cbn [join_lines flat_map]. rewrite <- app_comm_cons.
    rewrite split_chr_line by exact Hl. f_equal.
    apply (IH l' H').
Qed.

Lemma last_app_nonnil (a b : str) (d : ascii) : b <> [] -> last (a ++ b) d = last b d.
Proof.
  intros Hb. induction a as [|x a IH]; [reflexivity|].
  cbn [app]. destruct (a ++ b) eqn:E.
  - destruct a; [cbn [app] in E; contradiction|discriminate].
  - cbn [last]. exact IH.
Qed.

Lemma last_in_list (A : Type) (l : list A) (d : A) : l <> [] -> In (last l d) l.
Proof.
  induction l as [|x l IH]; [contradiction|]. intros _.
  destruct l as [|y l']; [now left|]. right. apply IH. discriminate.
Qed.

Lemma join_lines_last (ls : list str) (l : str) :
  (forall t, In t (l :: ls) -> t <> []) ->
  last (join_lines (l :: ls)) NUL = last (last (l :: ls) []) NUL.
Proof.
  revert l. induction ls as [|l' ls IH]; intros l H.
  - cbn [join_lines flat_map last]. now rewrite app_nil_r.
  - cbn [join_lines flat_map].
    assert (Hl' : l' <> []) by (apply H; right; now left).
    rewrite last_app_nonnil by discriminate.
    specialize (IH l' (fun t Ht => H t (or_intror Ht))).
    cbn [join_lines] in IH.
    change (last (l :: l' :: ls) []) with (last (l' :: ls) []).
    rewrite <- IH. rewrite <- app_comm_cons.
    destruct (l' ++ flat_map (fun x => LF :: x) ls) eqn:E.
    + destruct l'; [contradiction|discriminate].
    + cbn [last]. reflexivity.
Qed.

Lemma join_lines_tight (ls : list str) :
  ls <> [] -> Forall term_line ls -> tight (join_lines ls) = true.
Proof.
  intros Hne H. destruct ls as [|l ls]; [contradiction|].
  assert (Hall : forall t, In t (l :: ls) -> term_line t)
    by (now apply Forall_forall).
  assert (Hnn : forall t, In t (l :: ls) -> t <> [])
    by (intros t Ht; apply (Hall t Ht)).
  destruct (Hall l (or_introl eq_refl)) as (Hl & Htl & _).
  unfold tight. destruct (join_lines (l :: ls)) as [|c r] eqn:E.
  - reflexivity.
  - rewrite <- E, join_lines_last by exact Hnn.
    assert (Hc : non_space c = true).
    { destruct l as [|x l0]; [contradiction|]. cbn [join_lines app] in E.
      injection E as <- _. unfold tight in Htl. apply andb_prop in Htl. apply Htl. }
    rewrite Hc. cbn [andb].
    assert (Hin : In (last (l :: ls) []) (l :: ls))
      by (apply last_in_list; discriminate).
    destruct (Hall _ Hin) as (Hn & Ht & _).
    unfold tight in Ht. destruct (last (l :: ls) []); [contradiction|].
    apply andb_prop in Ht. apply Ht.
Qed.

Lemma trim_tight_text (t : str) : tight t = true -> trim t = t.
Proof.
  intros H. rewrite <- (app_nil_r t) at 1. now apply (trim_core [] t []).
Qed.

(** X21.  The replacer of [dt] makes one [<dt>] element of each line of
    terms, in order, its text passed through [convertSpans]; white
    space around the lines of terms as a whole is dropped. *)
Theorem dt_item_lines (e : Extra) (a b : str) (terms : list str) :
  terms <> [] -> Forall term_line terms ->
  forallb is_space a = true -> forallb is_space b = true ->
  dt_item e (a ++ join_lines terms ++ b) =
  concat (map (fun t => [LF] ++ lit "<dt>" ++ convertSpans t (converter e)
                        ++ lit "</dt>") terms)
  ++ [LF].
Proof.
  intros Hne Ht Ha Hb. unfold dt_item.
  rewrite trim_core by (assumption || now apply join_lines_tight).
  rewrite split_join_lines; [|exact Hne|].
  - f_equal. f_equal. apply map_ext_in. intros t Hin.
    rewrite Forall_forall in Ht. destruct (Ht t Hin) as (_ & Htt & _).
    now rewrite trim_tight_text.
  - apply Forall_forall. intros t Hin.
    rewrite Forall_forall in Ht. apply (Ht t Hin).
Qed.

Lemma dt_item_lines_witness :
  dt_item (new_Extra para_host)
          ([SP] ++ join_lines [lit "Term 1"; lit "Term 2"] ++ [LF]) =
  concat (map (fun t => [LF] ++ lit "<dt>" ++ convertSpans t (converter (new_Extra para_host))
                        ++ lit "</dt>")
              [lit "Term 1"; lit "Term 2"])
  ++ [LF].
Proof.
  apply (dt_item_lines (new_Extra para_host) [SP] [LF] [lit "Term 1"; lit "Term 2"]).
  - discriminate.
  - repeat constructor; discriminate.
  - reflexivity.
  - reflexivity.
Defined.

(** ** A table whose lines start with a pipe *)

Lemma ends_star (p : ascii -> bool) (x : mstate) (c : cont) (r : str)
    (g : list (nat * str)) (n : nat) :
  n <= length (fst (span p (rest x))) ->
  ends (c (MState (prev_after (prev x) (fst (span p (rest x))))
                  (snd (span p (rest x))) (caps x))) r g ->
  ends (m (Rep true n None (Chr p)) x c) r g.
Proof.
  intros Hn [pv H]. exists pv. rewrite m_rep_chr.
  now apply greedy_chr_longest.
Qed.

Lemma ends_upto (p : ascii -> bool) (k : nat) (x : mstate) (c : cont) (r : str)
    (g : list (nat * str)) :
  ends (c (MState (prev_after (prev x) (fst (span_n p k (rest x))))
                  (snd (span_n p k (rest x))) (caps x))) r g ->
  ends (m (Upto k (Chr p)) x c) r g.
Proof.
  intros [pv H]. exists pv. unfold Upto. rewrite m_rep.
  destruct x as [pv0 s g0]. cbn [prev rest caps] in *.
  apply rep_chr_upto; [lia|lia|exact H].
Qed.

Lemma ends_chr (p : ascii -> bool) (pv : option ascii) (ch : ascii) (t : str)
    (g0 : list (nat * str)) (c : cont) (r : str) (g : list (nat * str)) :
  p ch = true -> ends (c (MState (Some ch) t g0)) r g ->
  ends (m (Chr p) (MState pv (ch :: t) g0) c) r g.
Proof. intros Hp H. now rewrite m_chr_hit. Qed.

Lemma ends_opt_nl (pv : option ascii) (t : str) (g0 : list (nat * str)) (c : cont)
    (r : str) (g : list (nat * str)) :
  ends (c (MState (Some LF) t g0)) r g ->
  ends (m (Opt nl) (MState pv (LF :: t) g0) c) r g.
Proof.
  intros [pvz H]. exists pvz. rewrite m_opt. cbn [rest].
  unfold nl. rewrite m_chr_hit by reflexivity. cbn [rest length].
  assert (E : (length t =? S (length t)) = false) by (apply Nat.eqb_neq; lia).
  now rewrite E, H.
Qed.

Lemma span_n_run (p : ascii -> bool) (k : nat) (a b : str) :
  forallb p a = true -> length a <= k ->
  match b with ch :: _ => p ch = false | [] => True end ->
  span_n p k (a ++ b) = (a, b).
Proof.
  revert k. induction a as [|x a IH]; intros k Ha Hk Hb.
  - cbn [app]. destruct b as [|ch b]; [apply span_n_nil|now apply span_n_stop].
  - destruct k as [|k]; [simpl in Hk; lia|].
    cbn [forallb] in Ha. apply andb_prop in Ha. destruct Ha as [Hx Ha].
    rewrite <- app_comm_cons, span_n_cons by exact Hx.
    rewrite IH by (assumption || (simpl in Hk; lia)). reflexivity.
Qed.

(** One row, with its newline. *)
Lemma ends_row (l rest' : str) (pv : option ascii) (g0 : list (nat * str))
    (c : cont) (r : str) (g : list (nat * str)) :
  is_row l = true ->
  ends (c (MState (Some LF) rest' g0)) r g ->
  ends (m pipe_row (MState pv (l ++ LF :: rest') g0) c) r g.
Proof.
  intros Hl H. unfold is_row in Hl.
  pose proof (span_app (eqc SP) l) as E.
  pose proof (span_all (eqc SP) l) as A.
  destruct (snd (span (eqc SP) l)) as [|ch cells] eqn:Er; [discriminate|].
  apply andb_prop in Hl. destruct Hl as [Hc Hd].
  apply Ascii.eqb_eq in Hc. subst ch.
  unfold pipe_row, sp. rewrite m_seqs_cons.
  apply ends_star; [lia|]. cbn [prev rest caps].
  rewrite <- E, <- app_assoc.
  rewrite (span_run (eqc SP) (fst (span (eqc SP) l)))
    by (exact A || reflexivity).
  cbn [fst snd]. rewrite m_seqs_cons. rewrite <- app_comm_cons.
  apply ends_chr; [reflexivity|].
  rewrite m_seqs_cons. apply ends_star; [lia|]. cbn [prev rest caps].
  rewrite (span_run dot cells (LF :: rest')) by (exact Hd || reflexivity).
  cbn [fst snd]. rewrite seqs_one. now apply ends_opt_nl.
Qed.

(** Where the rows stop: at the end of the text or at a newline. *)
Lemma row_none (pv : option ascii) (stop : str) (g0 : list (nat * str)) (c : cont) :
  match stop with [] => True | ch :: _ => ch = LF end ->
  m pipe_row (MState pv stop g0) c = None.
Proof.
  intros Hs. unfold pipe_row, sp. rewrite m_seqs_cons.
  unfold Star at 1. rewrite m_rep_chr. cbn [prev rest caps].
  rewrite (greedy_chr_only (eqc SP) _ g0 (pipe_refuses_sp _ _)).
  destruct stop as [|ch t].
  - reflexivity.
  - subst ch. reflexivity.
Qed.

Lemma rep_rows_step (ma : mstate -> cont -> option mstate) (f : nat)
    (x : mstate) (c : cont) :
  rep ma true (S f) 0 None x c =
  match ma x (fun y => if length (rest y) =? length (rest x) then None
                       else rep ma true f 0 None y c) with
  | Some z => Some z
  | None => c x
  end.
Proof. reflexivity. Qed.

Lemma length_rows_text (l : str) (lines : list str) :
  length (rows_text (l :: lines)) = length l + 1 + length (rows_text lines).
Proof. cbn [rows_text flat_map]. rewrite !length_app. reflexivity. Qed.

(** The rows, as many as there are. *)
Lemma ends_rows (stop : str) (c : cont) (r : str) (g : list (nat * str))
    (g0 : list (nat * str)) :
  match stop with [] => True | ch :: _ => ch = LF end ->
  (forall pv, ends (c (MState pv stop g0)) r g) ->
  forall lines fuel pv,
    Forall (fun l => is_row l = true) lines ->
    length (rows_text lines ++ stop) <= fuel ->
    ends (rep (m pipe_row) true fuel 0 None
              (MState pv (rows_text lines ++ stop) g0) c) r g.
Proof.
  intros Hs Hc. induction lines as [|l lines IH]; intros fuel pv Hl Hf.
  - cbn [rows_text flat_map app].
    destruct fuel as [|f]; [apply Hc|].
    rewrite rep_rows_step, row_none by exact Hs. apply Hc.
  - inversion Hl as [|? ? Hrow Hrest]; subst.
    destruct fuel as [|f].
    { rewrite length_app, length_rows_text in Hf. lia. }
    rewrite rep_rows_step.
    cbn [rows_text flat_map]. rewrite <- !app_assoc. cbn [app].
    fold (rows_text lines).
    assert (H : ends (m pipe_row
                        (MState pv (l ++ LF :: rows_text lines ++ stop) g0)
                        (fun y => if length (rest y)
                                     =? length (rest (MState pv
                                          (l ++ LF :: rows_text lines ++ stop) g0))
                                  then None
                                  else rep (m pipe_row) true f 0 None y c)) r g).
    { apply ends_row; [exact Hrow|]. cbn [rest].
      assert (E : (length (rows_text lines ++ stop)
                   =? length (l ++ LF :: rows_text lines ++ stop)) = false).
      { apply Nat.eqb_neq. rewrite (length_app l). simpl. lia. }
      rewrite E. apply IH; [exact Hrest|].
      rewrite length_app, length_rows_text in Hf.
      rewrite length_app. lia. }
    destruct H as [pvz H]. exists pvz. now rewrite H.
Qed.

Lemma m_bol (x : mstate) (c : cont) :
  bol (prev x) = true -> m (Bol true) x c = c x.
Proof.
  intros H. cbn [m]. unfold at_bol. unfold bol in H.
  destruct (prev x); [|reflexivity]. cbn [andb]. now rewrite H.
Qed.

Lemma sep_ok_parts (sep : str) :
  sep_ok sep = true ->
  1 <= length (fst (span (one_of ["-"; ":"]%char) (snd (span (eqc SP) sep)))) /\
  forallb is_sep_char
    (snd (span (one_of ["-"; ":"]%char) (snd (span (eqc SP) sep)))) = true.
Proof.
  unfold sep_ok. intros H. apply andb_prop in H. destruct H as [Hs Hh].
  pose proof (span_app (eqc SP) sep) as E1.
  pose proof (span_app (one_of ["-"; ":"]%char) (snd (span (eqc SP) sep))) as E2.
  split.
  - destruct (snd (span (eqc SP) sep)) as [|c r]; [discriminate|].
    rewrite span_cons_true by exact Hh. simpl. lia.
  - rewrite <- E1, forallb_app in Hs. apply andb_prop in Hs. destruct Hs as [_ Hs].
    rewrite <- E2, forallb_app in Hs. apply andb_prop in Hs. apply Hs.
Qed.

(** The whole pattern on a table: header line, separator line, rows,
    and the end of the text or a newline. *)
Lemma ends_leadingPipe (pv : option ascii) (sp0 header sp1 sep : str)
    (lines : list str) (stop : str) :
  bol pv = true ->
  forallb (eqc SP) sp0 = true -> length sp0 <= 3 ->
  header <> [] -> forallb dot header = true ->
  forallb (eqc SP) sp1 = true -> length sp1 <= 3 ->
  sep_ok sep = true ->
  Forall (fun l => is_row l = true) lines ->
  match stop with [] => True | ch :: _ => ch = LF end ->
  ends (m leadingPipe
          (MState pv (sp0 ++ "|"%char :: header ++ LF :: sp1 ++ "|"%char :: sep
                      ++ LF :: rows_text lines ++ stop) [])
          Some)
       (tl stop) [(3, rows_text lines); (2, sep); (1, header)].
Proof.
  intros Hpv H0 L0 Hne Hh H1 L1 Hsep Hrows Hstop.
  destruct (sep_ok_parts sep Hsep) as [Hd Hr].
  unfold leadingPipe.
  rewrite m_seqs_cons, m_bol by exact Hpv.
  (* the first line *)
  rewrite m_seqs_cons. unfold sp. apply ends_upto. cbn [prev rest caps].
  rewrite span_n_run by (assumption || reflexivity). cbn [fst snd].
  rewrite m_seqs_cons. unfold pipe at 1. apply ends_chr; [reflexivity|].
  rewrite m_seqs_cons, m_grp. unfold Plus at 1.
  apply ends_star; cbn [prev rest caps];
    rewrite (span_run dot header) by (exact Hh || reflexivity); cbn [fst snd];
    [destruct header; [contradiction|simpl; lia]|].
  unfold set_cap at 1. cbn [prev rest caps]. rewrite firstn_app_length.
  rewrite m_seqs_cons. unfold nl at 1. apply ends_chr; [reflexivity|].
  (* the separator line *)
  rewrite m_seqs_cons. apply ends_upto. cbn [prev rest caps].
  rewrite span_n_run by (assumption || reflexivity). cbn [fst snd].
  rewrite m_seqs_cons. unfold pipe at 1. apply ends_chr; [reflexivity|].
  rewrite m_seqs_cons, m_grp, m_seqs_cons.
  unfold Star at 1. apply ends_star; [lia|]. cbn [prev rest caps].
  rewrite (span_app_stop (eqc SP) (LF :: rows_text lines ++ stop)) by reflexivity.
  cbn [fst snd].
  rewrite m_seqs_cons. unfold dash_colon, Plus at 1.
  apply ends_star; cbn [prev rest caps];
    rewrite (span_app_stop (one_of ["-"; ":"]%char) (LF :: rows_text lines ++ stop))
      by reflexivity; cbn [fst snd]; [exact Hd|].
  rewrite seqs_one. unfold sep_char, Star at 1.
  apply ends_star; [lia|]. cbn [prev rest caps].
  rewrite (span_run is_sep_char _ (LF :: rows_text lines ++ stop))
    by (exact Hr || reflexivity).
  cbn [fst snd]. unfold set_cap at 1. cbn [prev rest caps].
  rewrite firstn_app_length.
  rewrite m_seqs_cons. unfold nl at 1. apply ends_chr; [reflexivity|].
  (* the rows *)
  rewrite m_seqs_cons, m_grp.
  change (seqs [Star (Chr (eqc SP)); pipe; Star (Chr dot); Opt nl]) with pipe_row.
  unfold Star. rewrite m_rep. cbn [rest].
  apply (ends_rows stop _ (tl stop) _ [(2, sep); (1, header)] Hstop);
    [|exact Hrows|lia].
  intros pv'. unfold set_cap. cbn [prev rest caps]. rewrite firstn_app_length.
  rewrite seqs_one, m_alt.
  destruct stop as [|ch t].
  - now exists pv'.
  - subst ch. unfold nl. rewrite m_chr_hit by reflexivity. now exists (Some LF).
Qed.

Lemma digit_not_pipe (ds : str) :
  forallb is_digit ds = true -> forallb (nec "|") ds = true.
Proof.
  intros H. rewrite forallb_forall in *. intros ch Hin. specialize (H ch Hin).
  destruct (nec "|" ch) eqn:E; [reflexivity|]. apply nec_false in E. now subst ch.
Qed.

Lemma placeholder_no_pipe (n : nat) : forallb (nec "|") (placeholder n) = true.
Proof.
  unfold placeholder. rewrite !forallb_app.
  rewrite (digit_not_pipe _ (proj2 (toString_digits n))). reflexivity.
Qed.

(** The first pass of [tables] on a text that starts with such a table. *)
Lemma tables_on_table (e : Extra) (sp0 header sp1 sep : str) (lines : list str)
    (stop : str) :
  forallb (eqc SP) sp0 = true -> length sp0 <= 3 ->
  header <> [] -> forallb dot header = true ->
  forallb (eqc SP) sp1 = true -> length sp1 <= 3 ->
  sep_ok sep = true ->
  Forall (fun l => is_row l = true) lines ->
  match stop with [] => True | ch :: _ => ch = LF end ->
  forallb (nec "|") (tl stop) = true ->
  tables (sp0 ++ "|"%char :: header ++ LF :: sp1 ++ "|"%char :: sep
          ++ LF :: rows_text lines ++ stop) e =
  (placeholder (length (hashBlocks e)) ++ tl stop,
   set_hashBlocks e
     (hashBlocks e ++ [table_html e header sep (rows_text lines)])).
Proof.
  intros H0 L0 Hne Hh H1 L1 Hsep Hrows Hstop Ht.
  set (s := sp0 ++ "|"%char :: header ++ LF :: sp1 ++ "|"%char :: sep
            ++ LF :: rows_text lines ++ stop).
  set (g := [(3, rows_text lines); (2, sep); (1, header)]).
  destruct (ends_leadingPipe None sp0 header sp1 sep lines stop eq_refl
              H0 L0 Hne Hh H1 L1 Hsep Hrows Hstop) as [pvz Hm].
  fold s in Hm. fold g in Hm.
  assert (Hex : exec_at leadingPipe None s = Some (length s - length (tl stop), g)).
  { unfold exec_at. now rewrite Hm. }
  assert (Hs : exists w, s = w ++ tl stop /\ w <> []).
  { exists (sp0 ++ "|"%char :: header ++ LF :: sp1 ++ "|"%char :: sep
            ++ LF :: rows_text lines ++ firstn 1 stop).
    split.
    - subst s. destruct stop as [|c t0]; cbn [tl firstn].
      + now rewrite !app_nil_r.
      + repeat (rewrite <- app_assoc; cbn [app]). reflexivity.
    - destruct sp0; discriminate. }
  destruct Hs as (w & Hw & Hwne).
  assert (Hn : length s - length (tl stop) = length w)
    by (rewrite Hw, length_app; lia).
  rewrite Hn in Hex.
  unfold tables, gsubS.
  rewrite (scan_match leadingPipe None s (length w) g Hex);
    [|destruct w; [contradiction|simpl; lia]|rewrite Hw, length_app; lia].
  rewrite Hw.
  rewrite firstn_app, Nat.sub_diag, firstn_all, firstn_O, app_nil_r.
  rewrite skipn_app, Nat.sub_diag, skipn_all, skipn_O. cbn [app].
  rewrite (scan_search_none leadingPipe (tl stop))
    by (apply (must_search (eqc "|")); [apply leadingPipe_must|exact Ht]).
  cbn [substS]. unfold doTable at 1.
  change (cap 1 g) with header. change (cap 2 g) with sep.
  change (cap 3 g) with (rows_text lines).
  rewrite (surjective_pairing (hashExtraBlock _ e)).
  rewrite hashExtraBlock_fst, hashExtraBlock_snd, substS_lit.
  apply gsubS_no_match.
  apply (test_must (eqc "|")); [apply noLeadingPipe_must|].
  change (forallb (nec "|") (placeholder (length (hashBlocks e)) ++ tl stop) = true).
  now rewrite forallb_app, placeholder_no_pipe, Ht.
Qed.

(** X22.  A table whose lines start with a pipe: a header line, a
    separator line that starts with a dash or a colon after its pipe and
    has only dashes, colons, pipes and spaces, and any number of rows.  At
    the end of the text, or before a newline and text with no pipe,
    [tables] replaces it by the placeholder of one new block: the markup
    [doTable] builds from the header, the separator and the rows.  The
    newline that follows the rows is taken with the table. *)
Theorem tables_leading_pipe (e : Extra) (sp0 header sp1 sep : str)
    (lines : list str) (t : str) :
  forallb (eqc SP) sp0 = true -> length sp0 <= 3 ->
  header <> [] -> forallb dot header = true ->
  forallb (eqc SP) sp1 = true -> length sp1 <= 3 ->
  sep_ok sep = true ->
  Forall (fun l => is_row l = true) lines ->
  forallb (nec "|") t = true ->
  let table := sp0 ++ "|"%char :: header ++ LF :: sp1 ++ "|"%char :: sep
               ++ LF :: rows_text lines in
  let e' := set_hashBlocks e
              (hashBlocks e ++ [table_html e header sep (rows_text lines)]) in
  tables table e = (placeholder (length (hashBlocks e)), e') /\
  tables (table ++ LF :: t) e = (placeholder (length (hashBlocks e)) ++ t, e').
Proof.
  intros H0 L0 Hne Hh H1 L1 Hsep Hrows Ht. cbv zeta. split.
  - pose proof (tables_on_table e sp0 header sp1 sep lines [] H0 L0 Hne Hh H1 L1
                  Hsep Hrows I eq_refl) as H.
    rewrite !app_nil_r in H. exact H.
  - pose proof (tables_on_table e sp0 header sp1 sep lines (LF :: t) H0 L0 Hne Hh H1 L1
                  Hsep Hrows eq_refl Ht) as H.
    cbn [tl] in H. rewrite <- H. f_equal.
    repeat (rewrite <- app_assoc; cbn [app]). reflexivity.
Qed.

Lemma tables_leading_pipe_witness :
  let e := new_Extra para_host in
  tables ([] ++ "|"%char :: lit " A | B |" ++ LF :: [SP] ++ "|"%char :: lit " --- | :-: |"
          ++ LF :: rows_text [lit "| 1 | 2 |"; lit "  | 3"])
         e =
  (placeholder 0,
   set_hashBlocks e
     [table_html e (lit " A | B |") (lit " --- | :-: |")
                 (rows_text [lit "| 1 | 2 |"; lit "  | 3"])]).
Proof.
  cbv zeta.
  apply (tables_leading_pipe (new_Extra para_host) [] (lit " A | B |") [SP]
           (lit " --- | :-: |") [lit "| 1 | 2 |"; lit "  | 3"] []);
    try reflexivity; try (simpl; lia); try discriminate.
  repeat constructor.
Defined.

(** ** An escaped pipe inside a cell *)

Lemma escapes_free_prefix (u t : str) :
  forallb (nec "\") u = true -> escapes (u ++ t) = u ++ escapes t.
Proof.
  induction u as [|c u IH]; intros H; [reflexivity|].
  cbn [forallb] in H. apply andb_prop in H. destruct H as [Hc Hu].
  unfold nec in Hc. apply negb_true_iff in Hc.
  rewrite <- !app_comm_cons, escapes_cons_ne by exact Hc.
  now rewrite IH.
Qed.

Lemma escapes_no_backslash (u : str) :
  forallb (nec "\") u = true -> escapes u = u.
Proof.
  intros H. rewrite <- (app_nil_r u) at 1.
  rewrite escapes_free_prefix by exact H. now rewrite app_nil_r.
Qed.

Lemma without_two (x y : ascii) (s : str) :
  forallb (fun c => negb (one_of [x; y] c)) s = true ->
  forallb (nec x) s = true /\ forallb (nec y) s = true.
Proof.
  intros H. split; rewrite forallb_forall in *; intros ch Hin;
    specialize (H ch Hin); unfold one_of in H; cbn [existsb] in H;
    unfold nec.
  - now destruct (Ascii.eqb ch x).
  - destruct (Ascii.eqb ch y); [|reflexivity]. now rewrite orb_true_r in H.
Qed.

(** X23.  An escaped pipe does not separate cells: in a row, text with
    no pipe and no backslash around one backslash-pipe is, after
    [processEscapes], a single cell that holds the entity of the pipe,
    whereas around a pipe that is not escaped it is two cells. *)
Theorem escaped_pipe_one_cell (a b : str) :
  forallb (fun c => negb (one_of ["|"; "\"]%char c)) a = true ->
  forallb (fun c => negb (one_of ["|"; "\"]%char c)) b = true ->
  processEscapes (a ++ lit "\|" ++ b) = a ++ lit "&#124;" ++ b /\
  split_re re_cell_sep (processEscapes (a ++ lit "\|" ++ b)) =
    [a ++ lit "&#124;" ++ b] /\
  length (split_re re_cell_sep (processEscapes (a ++ lit "|" ++ b))) = 2.
Proof.
  intros Ha Hb.
  destruct (without_two _ _ _ Ha) as [Ha1 Ha2].
  destruct (without_two _ _ _ Hb) as [Hb1 Hb2].
  assert (E : processEscapes (a ++ lit "\|" ++ b) = a ++ lit "&#124;" ++ b).
  { rewrite processEscapes_escapes, escapes_free_prefix by exact Ha2.
    f_equal. unfold lit at 1. cbn [list_ascii_of_string app].
    destruct b as [|c t]; [reflexivity|].
    rewrite escapes_cons2. cbn [Ascii.eqb andb].
    rewrite (escapes_no_backslash (c :: t) Hb2). reflexivity. }
  split; [exact E|]. split.
  - rewrite E. apply split_cells_no_pipe.
    rewrite !forallb_app, Ha1, Hb1. reflexivity.
  - rewrite processEscapes_escapes, escapes_no_backslash
      by (rewrite !forallb_app, Ha2, Hb2; reflexivity).
    destruct (a ++ lit "|" ++ b) as [|c t] eqn:Es.
    + destruct a; discriminate.
    + unfold split_re. rewrite length_split_cells_go by (simpl; lia).
      cbn [skipn]. rewrite <- Es, !count_chr_app.
      rewrite (count_chr_none "|" a Ha1), (count_chr_none "|" b Hb1). reflexivity.
Qed.

Lemma escaped_pipe_one_cell_witness :
  split_re re_cell_sep (processEscapes (lit "a " ++ lit "\|" ++ lit " b")) =
  [lit "a " ++ lit "&#124;" ++ lit " b"].
Proof.
  apply (escaped_pipe_one_cell (lit "a ") (lit " b")); reflexivity.
Defined.

(** ** The two hooks around one fenced block *)

Lemma processEscapes_no_backslash (text : str) :
  forallb (nec "\") text = true -> processEscapes text = text.
Proof.
  intros H. rewrite processEscapes_escapes. now apply escapes_no_backslash.
Qed.

(** X24.  With the default options, a text that is one fenced block with
    no pipe and no backslash in it goes through the two hooks as follows:
    the pre-conversion hook returns the placeholder of block 0 and a
    newline and stores the markup of the block; the post-conversion hook
    puts the markup in place of the placeholder and empties the store. *)
Theorem hooks_fenced_block (s p : Converter) (lang body : str) :
  forallb dot lang = true -> has_fence body = false ->
  forallb (fun c => negb (one_of ["|"; "\"]%char c)) (lang ++ body) = true ->
  let session := init s p None in
  let e0 := fst session in
  let text := lit "```" ++ lang ++ LF :: body ++ fence in
  preBlockGamut session text =
    (placeholder 0 ++ [LF], set_hashBlocks e0 [code_html e0 lang body]) /\
  postConversion (snd (preBlockGamut session text)) (fst (preBlockGamut session text)) =
    (code_html e0 lang body ++ [LF], e0).
Proof.
  intros Hl Hb Hc. cbv zeta.
  destruct (without_two _ _ _ Hc) as [Hp Hs].
  rewrite forallb_app in Hp, Hs.
  apply andb_prop in Hp. destruct Hp as [Hp1 Hp2].
  apply andb_prop in Hs. destruct Hs as [Hs1 Hs2].
  set (text := lit "```" ++ lang ++ LF :: body ++ fence).
  assert (Hpre : preBlockGamut (init s p None) text =
                 (placeholder 0 ++ [LF],
                  set_hashBlocks (fst (init s p None))
                    [code_html (fst (init s p None)) lang body])).
  { unfold preBlockGamut, doConversion. rewrite init_store_empty.
    change (snd (init s p None)) with [T_all]. cbn [run_all run].
    rewrite processEscapes_no_backslash
      by (subst text; rewrite !forallb_app; cbn [forallb];
          rewrite !forallb_app, Hs1, Hs2; reflexivity).
    unfold all. rewrite tables_no_match.
    - subst text. rewrite <- (app_nil_r fence).
      rewrite fenced_at_start by (assumption || reflexivity).
      now rewrite app_nil_r.
    - apply (test_must (eqc "|")); [apply leadingPipe_must|].
      change (forallb (nec "|") text = true).
      subst text. rewrite !forallb_app. cbn [forallb].
      rewrite !forallb_app, Hp1, Hp2. reflexivity.
    - apply (test_must (eqc "|")); [apply noLeadingPipe_must|].
      change (forallb (nec "|") text = true).
      subst text. rewrite !forallb_app. cbn [forallb].
      rewrite !forallb_app, Hp1, Hp2. reflexivity. }
  split; [exact Hpre|].
  rewrite Hpre. cbn [fst snd]. unfold postConversion, finishConversion.
  pose proof (unHash_embed (set_hashBlocks (fst (init s p None))
                              [code_html (fst (init s p None)) lang body])
                           [] 0 [LF]) as H.
  cbn [app] in H. rewrite H.
  rewrite unHash_nil, (unHash_no_tilde _ [LF]) by reflexivity.
  cbn [hashBlocks set_hashBlocks block_at nth_error app].
  now rewrite set_hashBlocks_idem, init_store_empty.
Qed.

Lemma hooks_fenced_block_witness :
  preBlockGamut (init para_host para_host None)
                (lit "```" ++ lit "js" ++ LF :: lit "a < b" ++ fence) =
  (placeholder 0 ++ [LF],
   set_hashBlocks (fst (init para_host para_host None))
     [code_html (fst (init para_host para_host None)) (lit "js") (lit "a < b")]).
Proof.
  apply (hooks_fenced_block para_host para_host (lit "js") (lit "a < b")); reflexivity.
Defined.

(** ** The outer pipes of the body lines *)

Section AnchoredScan.
Variable r : re.
Hypothesis inside : forall pv s, bol pv = false -> exec_at r pv s = None.

(** A pattern anchored at the start of a line matches nowhere inside a
    line: a line where it does not match at the start is copied. *)
Lemma scan_inside_line (tail : str) :
  forall l pv,
    forallb dot l = true ->
    (l <> [] -> exec_at r pv (l ++ tail) = None) ->
    scan r pv (l ++ tail) 0 = map TLit l ++ scan r (prev_after pv l) tail 0.
Proof.
  induction l as [|c t IH]; intros pv Hl H0; [reflexivity|].
  cbn [forallb] in Hl. apply andb_prop in Hl. destruct Hl as [Hc Ht].
  rewrite <- app_comm_cons, scan_nomatch by (apply H0; discriminate).
  rewrite prev_after_cons. cbn [map app]. f_equal.
  apply IH; [exact Ht|]. intros _. apply inside. now apply dot_not_bol.
Qed.

End AnchoredScan.

Lemma lead_pipe_inside (pv : option ascii) (s : str) :
  bol pv = false -> exec_at re_lead_pipe pv s = None.
Proof. intros H. now rewrite exec_lead_pipe, H. Qed.

Lemma lt_not_pipe (c : ascii) : is_line_terminator c = true -> Ascii.eqb c "|" = false.
Proof.
  intros H. destruct (Ascii.eqb c "|") eqn:E; [|reflexivity].
  apply Ascii.eqb_eq in E. subst. discriminate.
Qed.

Lemma line_end_no_space (tail : str) :
  line_end tail = true ->
  match tail with ch :: _ => eqc SP ch = false | [] => True end.
Proof. destruct tail as [|ch w]; [trivial|]. cbn [line_end]. apply lt_not_sp. Qed.

Lemma firstn_S_app (a : str) (c : ascii) (r : str) :
  firstn (S (length a)) (a ++ c :: r) = a ++ [c].
Proof. induction a as [|x a IH]; [reflexivity|]. cbn [length app firstn] in *. now rewrite IH. Qed.

(** At the start of a line the leading-pipe pattern reads the line only. *)
Lemma exec_lead_pipe_line (l tail : str) (pv : option ascii) :
  bol pv = true -> line_end tail = true ->
  exec_at re_lead_pipe pv (l ++ tail) =
  match snd (span (eqc SP) l) with
  | c :: _ =>
    if Ascii.eqb c "|" then Some (S (length (fst (span (eqc SP) l))), []) else None
  | [] => None
  end.
Proof.
  intros Hpv Ht. rewrite exec_lead_pipe, Hpv.
  rewrite (span_app_stop (eqc SP) tail (line_end_no_space tail Ht) l). cbn [fst snd].
  destruct (snd (span (eqc SP) l)) as [|c r]; [|reflexivity].
  cbn [app]. destruct tail as [|ch w]; [reflexivity|].
  cbn [line_end] in Ht. now rewrite (lt_not_pipe ch Ht).
Qed.

(** The tokens of a text that starts with a line: the pipe the line
    starts with is one match and the rest of the line is copied. *)
Lemma scan_lead_head (l tail : str) (pv : option ascii) :
  forallb dot l = true -> bol pv = true -> line_end tail = true ->
  flat_map (subst (const_str [])) (scan re_lead_pipe pv (l ++ tail) 0) =
  drop_pipe l
  ++ flat_map (subst (const_str [])) (scan re_lead_pipe (prev_after pv l) tail 0).
Proof.
  intros Hl Hpv Ht.
  pose proof (exec_lead_pipe_line l tail pv Hpv Ht) as Hex.
  pose proof (span_app (eqc SP) l) as El.
  unfold drop_pipe.
  remember (fst (span (eqc SP) l)) as a eqn:Ea.
  destruct (snd (span (eqc SP) l)) as [|c r].
  - rewrite (scan_inside_line _ lead_pipe_inside) by (exact Hl || (intros _; exact Hex)).
    now rewrite flat_map_app_tokens, flat_map_subst_lit.
  - destruct (Ascii.eqb c "|") eqn:Ec.
    + clear Ea. subst l. apply Ascii.eqb_eq in Ec. subst c.
      rewrite (scan_match _ _ _ _ _ Hex);
        [|lia|rewrite !length_app; cbn [length]; lia].
      rewrite <- app_assoc, <- app_comm_cons.
      rewrite firstn_S_app, skipn_S_app.
      cbn [flat_map subst const_str app].
      apply forallb_dot_app in Hl. destruct Hl as [_ Hl].
      cbn [forallb] in Hl. apply andb_prop in Hl. destruct Hl as [_ Hr].
      rewrite (scan_inside_line _ lead_pipe_inside).
      * rewrite flat_map_app_tokens, flat_map_subst_lit. do 3 f_equal.
        rewrite <- prev_after_app, <- app_assoc. reflexivity.
      * exact Hr.
      * intros _. apply lead_pipe_inside. now rewrite prev_after_app.
    + rewrite (scan_inside_line _ lead_pipe_inside) by (exact Hl || (intros _; exact Hex)).
      now rewrite flat_map_app_tokens, flat_map_subst_lit.
Qed.

Lemma gsub_lead_line (l : str) (sepc : ascii) (more : str) :
  forallb dot l = true -> is_line_terminator sepc = true ->
  gsub re_lead_pipe (const_str []) (l ++ sepc :: more) =
  drop_pipe l ++ sepc :: gsub re_lead_pipe (const_str []) more.
Proof.
  intros Hl Hs. unfold gsub.
  rewrite scan_lead_head; [|exact Hl|reflexivity|exact Hs].
  f_equal. rewrite scan_nomatch.
  - cbn [flat_map subst app]. do 2 f_equal.
    apply scan_first_pv. rewrite !exec_lead_pipe. cbn [bol]. now rewrite Hs.
  - rewrite exec_lead_pipe, (span_head_false _ _ _ (lt_not_sp sepc Hs)).
    cbn [snd]. rewrite (lt_not_pipe sepc Hs).
    now destruct (bol (prev_after None l)).
Qed.

Lemma gsub_lead_last (l : str) :
  forallb dot l = true -> gsub re_lead_pipe (const_str []) l = drop_pipe l.
Proof.
  intros Hl. unfold gsub. rewrite <- (app_nil_r l) at 1.
  rewrite scan_lead_head; [|exact Hl|reflexivity|reflexivity].
  cbn [scan]. rewrite exec_lead_pipe.
  destruct (bol (prev_after None l)); apply app_nil_r.
Qed.

Lemma line_end_app (u tail : str) :
  forallb dot u = true -> line_end tail = true -> line_end (u ++ tail) = line_end u.
Proof.
  intros Hu Ht. destruct u as [|c u]; [exact Ht|reflexivity].
Qed.

(** A character that is not the trailing pipe of its line stays in
    front of what is kept of the line. *)
Lemma drop_pipe_rev_cons (c : ascii) (t : str) :
  Ascii.eqb c "|" && line_end (snd (span (eqc SP) t)) = false ->
  rev (drop_pipe (rev (c :: t))) = c :: rev (drop_pipe (rev t)).
Proof.
  intros Em. cbn [rev]. destruct (forallb (eqc SP) (rev t)) eqn:Hs.
  - assert (Hs' : forallb (eqc SP) t = true).
    { rewrite <- (rev_involutive t). now apply forallb_rev. }
    rewrite (drop_pipe_spaces (rev t) Hs), rev_involutive.
    rewrite (span_all_true _ _ Hs') in Em. cbn [snd line_end] in Em.
    rewrite andb_true_r in Em.
    unfold drop_pipe.
    destruct (eqc SP c) eqn:Ec.
    + rewrite span_all_true by (rewrite forallb_app, Hs; cbn; now rewrite Ec).
      cbn [snd]. now rewrite rev_app_distr, rev_involutive.
    + rewrite (span_run (eqc SP) (rev t) [c]) by (exact Hs || exact Ec).
      cbn [snd]. rewrite Em. now rewrite rev_app_distr, rev_involutive.
  - rewrite drop_pipe_app by now apply span_nonnil.
    now rewrite rev_app_distr.
Qed.

(** The tokens of a text that starts with a line: the pipe the line ends
    with, and the spaces after it, are one match; the rest of the line
    is copied. *)
Lemma scan_trail_head (tail : str) :
  line_end tail = true ->
  forall l pv,
    forallb dot l = true ->
    flat_map (subst (const_str [])) (scan re_trail_pipe pv (l ++ tail) 0) =
    rev (drop_pipe (rev l))
    ++ flat_map (subst (const_str [])) (scan re_trail_pipe (prev_after pv l) tail 0).
Proof.
  intros Ht. induction l as [|c t IH]; intros pv Hd; [reflexivity|].
  cbn [forallb] in Hd. apply andb_prop in Hd. destruct Hd as [Hc Hd].
  rewrite <- app_comm_cons.
  pose proof (span_app (eqc SP) t) as E.
  assert (Hex : exec_at re_trail_pipe pv (c :: t ++ tail) =
                if Ascii.eqb c "|" && line_end (snd (span (eqc SP) t))
                then Some (S (length (fst (span (eqc SP) t))), []) else None).
  { rewrite exec_trail_pipe.
    rewrite (span_app_stop (eqc SP) tail (line_end_no_space tail Ht) t). cbn [fst snd].
    rewrite line_end_app; [reflexivity| |exact Ht].
    rewrite <- E in Hd. apply forallb_dot_app in Hd. apply Hd. }
  destruct (Ascii.eqb c "|" && line_end (snd (span (eqc SP) t))) eqn:Em.
  - apply andb_prop in Em. destruct Em as [Ec Hl].
    apply Ascii.eqb_eq in Ec. subst c.
    assert (Hr : snd (span (eqc SP) t) = []).
    { apply line_end_inv; [exact Hl|].
      rewrite <- E in Hd. apply forallb_dot_app in Hd. apply Hd. }
    pose proof (span_all (eqc SP) t) as A.
    rewrite Hr, app_nil_r in E. rewrite E in A, Hex.
    rewrite (scan_match _ _ _ _ _ Hex);
      [|lia|cbn [length]; rewrite length_app; lia].
    cbn [firstn skipn].
    rewrite firstn_app, skipn_app, Nat.sub_diag, firstn_all, skipn_all, firstn_O, skipn_O.
    rewrite app_nil_r. cbn [flat_map subst const_str app rev].
    unfold drop_pipe.
    rewrite (span_run (eqc SP) (rev t) ["|"%char]);
      [reflexivity|now apply forallb_rev|reflexivity].
  - rewrite (scan_nomatch _ _ _ _ Hex). cbn [flat_map subst app].
    rewrite (IH (Some c) Hd), (drop_pipe_rev_cons c t Em), prev_after_cons.
    reflexivity.
Qed.

Lemma gsub_trail_line (l : str) (sepc : ascii) (more : str) :
  forallb dot l = true -> is_line_terminator sepc = true ->
  gsub re_trail_pipe (const_str []) (l ++ sepc :: more) =
  rev (drop_pipe (rev l)) ++ sepc :: gsub re_trail_pipe (const_str []) more.
Proof.
  intros Hl Hs. unfold gsub.
  rewrite (scan_trail_head (sepc :: more) Hs l None Hl).
  f_equal. rewrite scan_nomatch.
  - cbn [flat_map subst app]. do 2 f_equal.
    apply scan_first_pv. now rewrite !exec_trail_pipe.
  - rewrite exec_trail_pipe. now rewrite (lt_not_pipe sepc Hs).
Qed.

Lemma gsub_trail_last (l : str) :
  forallb dot l = true ->
  gsub re_trail_pipe (const_str []) l = rev (drop_pipe (rev l)).
Proof.
  intros Hl. unfold gsub. rewrite <- (app_nil_r l) at 1.
  rewrite (scan_trail_head [] eq_refl l None Hl).
  cbn [scan]. rewrite exec_trail_pipe. apply app_nil_r.
Qed.

Lemma strip_line_chars (p : ascii -> bool) (l : str) :
  forallb p l = true -> forallb p (strip_line l) = true.
Proof.
  intros H. unfold strip_line.
  apply forallb_rev, drop_pipe_chars, forallb_rev, drop_pipe_chars, H.
Qed.

(** [doTable] strips the body line by line. *)
Lemma strip_body_line (l : str) (more : str) :
  forallb dot l = true ->
  strip_body (l ++ LF :: more) = strip_line l ++ LF :: strip_body more.
Proof.
  intros Hl. unfold strip_body.
  rewrite gsub_lead_line by (exact Hl || reflexivity).
  rewrite gsub_trail_line by (now apply drop_pipe_chars || reflexivity).
  reflexivity.
Qed.

Lemma strip_body_last (l : str) :
  forallb dot l = true -> strip_body l = strip_line l.
Proof.
  intros Hl. unfold strip_body.
  rewrite gsub_lead_last by exact Hl.
  apply gsub_trail_last. now apply drop_pipe_chars.
Qed.

Lemma strip_body_join (ls : list str) :
  forall l, Forall (fun x => forallb dot x = true) (l :: ls) ->
    strip_body (join_lines (l :: ls)) = join_lines (map strip_line (l :: ls)).
Proof.
  induction ls as [|l' ls IH]; intros l H; inversion H as [|? ? Hl H']; subst.
  - cbn [join_lines map flat_map]. rewrite !app_nil_r. now apply strip_body_last.
  - specialize (IH l' H').
    change (join_lines (l :: l' :: ls)) with (l ++ LF :: join_lines (l' :: ls)).
    rewrite strip_body_line by exact Hl. rewrite IH. reflexivity.
Qed.

Lemma split_chr_cons (s : str) : exists l ls, split_chr LF s = l :: ls.
Proof.
  induction s as [|c t IH]; [now exists [], []|]. cbn [split_chr].
  destruct (Ascii.eqb c LF); [eauto|].
  destruct (split_chr LF t) as [|q qs]; eauto.
Qed.

Lemma join_split_chr (s : str) : join_lines (split_chr LF s) = s.
Proof.
  induction s as [|c t IH]; [reflexivity|]. cbn [split_chr].
  destruct (split_chr_cons t) as (p & ps & E). rewrite E in *.
  destruct (Ascii.eqb c LF) eqn:Ec.
  - apply Ascii.eqb_eq in Ec. subst c.
    cbn [join_lines flat_map app] in *. now rewrite IH.
  - cbn [join_lines flat_map app] in *. now rewrite <- IH.
Qed.

Lemma split_chr_lines (p : ascii -> bool) (s : str) :
  forallb p s = true ->
  Forall (fun l => forallb (fun c => p c && nec LF c) l = true) (split_chr LF s).
Proof.
  induction s as [|c t IH]; intros H; [repeat constructor|].
  cbn [forallb] in H. apply andb_prop in H. destruct H as [Hc Ht].
  specialize (IH Ht). cbn [split_chr].
  destruct (Ascii.eqb c LF) eqn:Ec; [now constructor|].
  destruct (split_chr LF t) as [|q qs]; [repeat constructor|].
  - cbn [forallb]. unfold nec. now rewrite Hc, Ec.
  - inversion IH as [|? ? Hq Hqs]; subst. constructor; [|exact Hqs].
    cbn [forallb]. unfold nec at 1. now rewrite Hc, Ec, Hq.
Qed.

Lemma no_cr_nl_dot (l : str) :
  forallb (fun c => nec CR c && nec LF c) l = true -> forallb dot l = true.
Proof.
  intros H. rewrite forallb_forall in *. intros c Hc. specialize (H c Hc).
  apply andb_prop in H. destruct H as [H1 H2].
  unfold nec in *. unfold dot, is_line_terminator, one_of. cbn [existsb].
  apply negb_true_iff in H1, H2. now rewrite H1, H2.
Qed.

(** The lines [doTable] reads rows from are the lines of the body, each
    without its outer pipes. *)
Lemma strip_body_lines (body : str) :
  forallb (nec CR) body = true ->
  split_chr LF (strip_body body) = map strip_line (split_chr LF body).
Proof.
  intros H. pose proof (split_chr_lines _ _ H) as Hl.
  pose proof (join_split_chr body) as Ej.
  destruct (split_chr_cons body) as (l & ls & E). rewrite E in *.
  assert (Hd : Forall (fun x => forallb dot x = true) (l :: ls)).
  { eapply Forall_impl; [|exact Hl]. intros a. apply no_cr_nl_dot. }
  rewrite <- Ej, strip_body_join by exact Hd.
  apply split_join_lines; [discriminate|].
  apply Forall_map. eapply Forall_impl; [|exact Hd].
  intros a Ha. apply strip_line_chars.
  rewrite forallb_forall in *. intros c Hc. specialize (Ha c Hc).
  apply dot_not_nl in Ha. unfold nec, eqc in *. now rewrite Ha.
Qed.

(** *** The rendered table *)

Lemma th_cells_markup (e : Extra) (align headers : list str) :
  th_cells e align headers =
  map (fun i => lit "  <th" ++ nth i align [] ++ lit ">"
                ++ convertSpans (trim (nth i headers [])) (converter e)
                ++ lit "</th>" ++ [LF])
      (seq 0 (length headers)).
Proof.
  apply (nth_ext _ _ [] []).
  - now rewrite length_th_cells, length_map, length_seq.
  - intros i Hi. rewrite length_th_cells in Hi.
    rewrite nth_th_cells by exact Hi.
    rewrite (nth_map_in _ _ _ _ _ 0) by now rewrite length_seq.
    now rewrite seq_nth by exact Hi.
Qed.

Lemma td_cells_markup (e : Extra) (align : list str) (N : nat) (row : str) :
  td_cells e align N row =
  map (fun j => lit "  <td" ++ nth j align [] ++ lit ">"
                ++ convertSpans (trim (nth j (split_re re_cell_sep row) [])) (converter e)
                ++ lit "</td>" ++ [LF])
      (seq 0 N).
Proof.
  apply (nth_ext _ _ [] []).
  - now rewrite length_td_cells, length_map, length_seq.
  - intros j Hj. rewrite length_td_cells in Hj.
    rewrite nth_td_cells by exact Hj.
    rewrite (nth_map_in _ _ _ _ _ 0) by now rewrite length_seq.
    now rewrite seq_nth by exact Hj.
Qed.

(** C2, as the code has it.  The table that [doTable] renders for a
    header, a separator and a body, written out as markup.  The header
    row has one [th] cell per cell of the header, [N] of them.  The body
    is first stripped of the outer pipes of each of its lines; each
    stripped line that is not blank gives one row of exactly [N] [td]
    cells, the [j]-th made from the [j]-th cell of the line, or from the
    empty text when the line has no such cell, and the cells after the
    [N]-th are not rendered.  A line that is blank once stripped gives no
    row: a blank line, and also a line made of its outer pipes and white
    space only.  The header line is stripped of its outer pipes in the
    same way before it is split into cells. *)
Theorem table_cell_counts (e : Extra) (header separator body : str) :
  let headers := split_re re_cell_sep (strip_header header) in
  let align := map align_of (split_re re_cell_sep (strip_header separator)) in
  let N := length headers in
  let th := fun (i : nat) (text : str) =>
    lit "  <th" ++ nth i align [] ++ lit ">"
    ++ convertSpans (trim text) (converter e) ++ lit "</th>" ++ [LF] in
  let td := fun (j : nat) (text : str) =>
    lit "  <td" ++ nth j align [] ++ lit ">"
    ++ convertSpans (trim text) (converter e) ++ lit "</td>" ++ [LF] in
  let tr := fun cells : list str =>
    lit "<tr>" ++ [LF] ++ concat cells ++ lit "</tr>" ++ [LF] in
  let cls := match tableClass e with
             | [] => []
             | c => lit " class=" ++ [DQ] ++ c ++ [DQ]
             end in
  let not_blank := fun row : str => negb (forallb is_space row) in
  let rows := filter not_blank (split_chr LF (strip_body body)) in
  table_html e header separator body =
    lit "<table" ++ cls ++ lit ">" ++ [LF]
    ++ lit "<thead>" ++ [LF]
    ++ tr (map (fun i => th i (nth i headers [])) (seq 0 N))
    ++ lit "</thead>" ++ [LF]
    ++ concat (map (fun row =>
                      tr (map (fun j => td j (nth j (split_re re_cell_sep row) []))
                              (seq 0 N)))
                   rows)
    ++ lit "</table>" ++ [LF]
  /\ 1 <= N
  /\ (length (th_cells e align headers) = N /\
      th_cells e align headers = map (fun i => th i (nth i headers [])) (seq 0 N))
  /\ (forall row,
        length (td_cells e align N row) = N /\
        td_cells e align N row =
        map (fun j => td j (nth j (split_re re_cell_sep row) [])) (seq 0 N))
  /\ (forall row j,
        length (split_re re_cell_sep row) <= j ->
        td j (nth j (split_re re_cell_sep row) []) =
        lit "  <td" ++ nth j align [] ++ lit ">"
        ++ convertSpans [] (converter e) ++ lit "</td>" ++ [LF])
  /\ (forallb (nec CR) body = true ->
      rows = filter not_blank (map strip_line (split_chr LF body)))
  /\ (forall l, forallb is_space l = true -> not_blank (strip_line l) = false)
  /\ (forallb dot header = true -> strip_header header = strip_line header).
Proof.
  intros headers align N th td tr cls not_blank rows.
  split; [|split; [|split; [|split; [|split; [|split; [|split]]]]]].
  - assert (Er : forall l,
               map (tr_row e align N) l =
               map (fun row =>
                      tr (map (fun j => td j (nth j (split_re re_cell_sep row) []))
                              (seq 0 N))) l).
    { intros l. apply map_ext. intros row. unfold tr_row, tr.
      now rewrite td_cells_markup. }
    unfold table_html. rewrite body_rows_spec, th_cells_markup.
    fold headers align N. rewrite Er. unfold tr.
    repeat rewrite <- app_assoc. reflexivity.
  - apply length_split_cells.
  - split; [apply length_th_cells|apply th_cells_markup].
  - intros row. split; [apply length_td_cells|apply td_cells_markup].
  - intros row j Hj. unfold td.
    now rewrite (nth_overflow (split_re re_cell_sep row) [] Hj).
  - intros Hcr. unfold rows. now rewrite strip_body_lines by exact Hcr.
  - intros l Hl. unfold not_blank. now rewrite (strip_line_chars is_space l Hl).
  - intros Hd. unfold strip_header, strip_line.
    rewrite sub_first_lead_pipe by exact Hd.
    apply sub_first_trail_pipe. now apply drop_pipe_chars.
Qed.

Lemma table_cell_counts_witness :
  let e := new_Extra para_host in
  let body := lit "| 1 | 2 | 3 |" ++ LF :: lit "|" ++ LF :: lit "4" ++ [LF] in
  let not_blank := fun row : str => negb (forallb is_space row) in
  (forallb (nec CR) body = true /\
   filter not_blank (split_chr LF (strip_body body)) =
   filter not_blank (map strip_line (split_chr LF body))) /\
  (length (split_re re_cell_sep (lit "4")) <= 1 /\
   lit "  <td" ++ nth 1 (map align_of (split_re re_cell_sep (strip_header (lit ":-|-:")))) []
   ++ lit ">" ++ convertSpans (trim (nth 1 (split_re re_cell_sep (lit "4")) [])) (converter e)
   ++ lit "</td>" ++ [LF] =
   lit "  <td" ++ nth 1 (map align_of (split_re re_cell_sep (strip_header (lit ":-|-:")))) []
   ++ lit ">" ++ convertSpans [] (converter e) ++ lit "</td>" ++ [LF]) /\
  (forallb is_space [SP; TAB] = true /\
   negb (forallb is_space (strip_line [SP; TAB])) = false) /\
  (forallb dot (lit "| A | B") = true /\
   strip_header (lit "| A | B") = strip_line (lit "| A | B")).
Proof.
  pose proof (table_cell_counts (new_Extra para_host) (lit "| A | B") (lit ":-|-:")
                (lit "| 1 | 2 | 3 |" ++ LF :: lit "|" ++ LF :: lit "4" ++ [LF]))
    as (_ & _ & _ & _ & H1 & H2 & H3 & H4).
  cbv zeta in *. split; [|split; [|split]].
  - split; [reflexivity|]. apply H2. reflexivity.
  - split; [vm_compute; lia|]. apply (H1 (lit "4") 1). vm_compute. lia.
  - split; [reflexivity|]. apply (H3 [SP; TAB]). reflexivity.
  - split; [reflexivity|]. apply H4. reflexivity.
Defined.

(** Body lines that are not blank and still give no row: a line made of
    its outer pipes and spaces only is blank once the pipes are stripped.
    Of the four lines of this body only the last is rendered. *)
Lemma pipe_only_lines_give_no_row :
  let body := lit "|" ++ LF :: lit "||" ++ LF :: lit " | " ++ LF :: lit "1|2" ++ [LF] in
  split_chr LF body = [lit "|"; lit "||"; lit " | "; lit "1|2"; []] /\
  forallb (fun row => negb (forallb is_space row)) [lit "|"; lit "||"; lit " | "; lit "1|2"]
  = true /\
  split_chr LF (strip_body body) = [[]; []; lit " "; lit "1|2"; []] /\
  tables (lit "A|B" ++ LF :: lit "-|-" ++ LF :: body) (new_Extra para_host) =
  (placeholder 0,
   set_hashBlocks (new_Extra para_host)
     [lit "<table>" ++ [LF] ++ lit "<thead>" ++ [LF] ++ lit "<tr>" ++ [LF]
      ++ lit "  <th>A</th>" ++ [LF] ++ lit "  <th>B</th>" ++ [LF]
      ++ lit "</tr>" ++ [LF] ++ lit "</thead>" ++ [LF]
      ++ lit "<tr>" ++ [LF] ++ lit "  <td>1</td>" ++ [LF] ++ lit "  <td>2</td>" ++ [LF]
      ++ lit "</tr>" ++ [LF] ++ lit "</table>" ++ [LF]]).
Proof. vm_compute. repeat split. Qed.

(** ** One term and one definition *)

(** *** Stages of a match *)





















(** *** The term line *)
















(** *** The definition *)















(** *** The two renderings, written out *)







(** *** The list of one term and one definition *)













(** Two definitions of one term: the first, right after the term line,
    is rendered tight, and the second, after a blank line, loose. *)
Lemma processDefListItems_two_definitions_example :
  processDefListItems (new_Extra para_host)
    (lit "Term" ++ LF :: lit ":   one" ++ LF :: LF :: lit ":   two") =
  LF :: lit "<dt>Term</dt>" ++ LF :: lit "<dd>one</dd>" ++ LF
     :: LF :: lit "<dd>" ++ LF :: lit "<p>two" ++ [LF; LF] ++ lit "</p>"
     ++ LF :: lit "</dd>" ++ [LF].
Proof. vm_compute. reflexivity. Qed.

